(** * Tune-Trainer-Bot: the audio analysis core, embedded and verified

  A shallow embedding of [src/music.js] (pitch, note, chroma, key and chord
  functions) and of the decoding half of [src/audio.js] (the WAV container
  decoder, the channel mixer and the resampler).

  Conventions of the embedding:
  - a JavaScript number that holds a sample, a frequency or a score is a
    real number ([R]), and its arithmetic is taken exactly.  Rounding is
    written out where it decides a count, an index or a bound: the
    resampler has a second embedding in floating-point arithmetic
    ([Audio.Binary64]), and the store of a decoded sample into a
    [Float32Array] rounds to single precision ([Audio.stored_sample]).
    The two places where the
    source depends on a non-finite value ([-Infinity] as the initial best
    score, and [Infinity]/[NaN] as a sample count) carry an explicit
    extended type; other non-finite numbers are outside the embedding, and
    the theorems state the conditions (positive sample rates) under which
    the source keeps its numbers finite;
  - a number that the source keeps integral (an offset, a length, a lag, a
    MIDI number) is a [Z], with [%] as [Z.rem] (truncating, as in
    JavaScript);
  - a byte buffer is a list of bytes, and every [DataView] read checks its
    bounds and raises [RangeError] as the platform does;
  - [null]/[undefined] is [None]. *)

From Stdlib Require Import ZArith List String Ascii Bool Lia.
From Stdlib Require Import Reals Lra.
From Stdlib Require Import QArith Qround.
From Stdlib Require DecimalString.
Import ListNotations.

Local Open Scope Z_scope.

(* ================================================================== *)
(** ** JavaScript primitives used by both files *)
(* ================================================================== *)

Module Js.

(** [Math.floor] on a real. *)
Definition floor (x : R) : Z := Zfloor x.

(** [Math.round]: the nearest integer, halves rounded up. *)
Definition round (x : R) : Z := Zfloor (x + / 2)%R.

(** [Math.log2]. *)
Definition log2 (x : R) : R := (ln x / ln 2)%R.

(** [2 ** y]. *)
Definition pow2 (y : R) : R := Rpower 2 y.

(** Comparisons of numbers, as booleans. *)
Definition ltb (x y : R) : bool := if Rlt_dec x y then true else false.
Definition leb (x y : R) : bool := if Rle_dec x y then true else false.
Definition eqb (x y : R) : bool := if Req_dec_T x y then true else false.

(** [Math.hypot(...xs)]. *)
Definition hypot (xs : list R) : R :=
  sqrt (fold_left (fun acc x => acc + x * x)%R xs 0%R).

(** [arr[i]] on an array of strings inside a template literal: an index
    out of range prints as [undefined]. *)
Definition str_at (arr : list string) (i : Z) : string :=
  if i <? 0 then "undefined"%string
  else nth (Z.to_nat i) arr "undefined"%string.

(** [arr[i]] on an array of numbers; the functions below only read inside
    the array, which their theorems establish where it matters. *)
Definition num_at (arr : list R) (i : Z) : R :=
  if i <? 0 then 0%R else nth (Z.to_nat i) arr 0%R.

(** [arr.indexOf(x)]: first position of [x], or [-1]. *)
Fixpoint indexOf_from (x : string) (arr : list string) (i : Z) : Z :=
  match arr with
  | [] => -1
  | y :: ys => if String.eqb y x then i else indexOf_from x ys (i + 1)
  end.

Definition indexOf (arr : list string) (x : string) : Z :=
  indexOf_from x arr 0.

(** [s.split(" ")]: the fields between single spaces, empty ones kept. *)
Fixpoint split_space (s : string) : list string :=
  match s with
  | EmptyString => [EmptyString]
  | String c rest =>
      if Ascii.eqb c " "%char then EmptyString :: split_space rest
      else match split_space rest with
           | [] => [String c EmptyString]
           | w :: ws => String c w :: ws
           end
  end.

(** [x === "lit"] where [x] may be [undefined]. *)
Definition opt_eqb (x : option string) (lit : string) : bool :=
  match x with
  | Some y => String.eqb y lit
  | None => false
  end.

(** The integer part taken by [subarray] of a numeric bound
    (ToIntegerOrInfinity: truncation towards zero). *)
Definition to_integer (x : R) : Z :=
  if ltb x 0 then - Zfloor (- x) else Zfloor x.

(** The values [lo, lo+step, lo+2*step, ...] not above [hi], of a [for]
    loop with a constant positive stride. *)
Definition range_by (lo hi step : Z) : list Z :=
  if hi <? lo then []
  else map (fun k => lo + Z.of_nat k * step)
           (seq 0 (Z.to_nat ((hi - lo) / step + 1))).

(** [arr.subarray(a, b)] for [0 <= a <= b]. *)
Definition subarray {A} (arr : list A) (a b : Z) : list A :=
  firstn (Z.to_nat (b - a)) (skipn (Z.to_nat a) arr).

(** An integer inside a template literal: its decimal digits. *)
Definition string_of_Z (z : Z) : string :=
  DecimalString.NilZero.string_of_int (Z.to_int z).

(** [arr.map((x, index) => f(x, index))]. *)
Fixpoint mapi_from {A B} (f : A -> Z -> B) (l : list A) (i : Z) : list B :=
  match l with
  | [] => []
  | x :: xs => f x i :: mapi_from f xs (i + 1)
  end.

Definition mapi {A B} (f : A -> Z -> B) (l : list A) : list B :=
  mapi_from f l 0.

(** The integers [lo, lo+1, ..., hi] of a counting [for] loop. *)
Definition range (lo hi : Z) : list Z :=
  map (fun k => lo + Z.of_nat k) (seq 0 (Z.to_nat (hi - lo + 1))).

(** [arr.subarray(0, e)] for any integer [e]: a negative end counts from the
    end of the array, and the end is clamped to the array. *)
Definition subarray_to {A} (arr : list A) (e : Z) : list A :=
  if e <? 0 then firstn (Z.to_nat (Z.max (Z.of_nat (List.length arr) + e) 0)) arr
  else firstn (Z.to_nat e) arr.

(** *** Rounding to a binary floating-point format *)

(** The binade of a number: [floor(log2 |x|)]. *)
Definition binade (x : R) : Z := floor (log2 (Rabs x)).

(** The nearest integer, a tie going to the even one. *)
Definition round_half_even (y : R) : Z :=
  let n := Zfloor y in
  if Rlt_dec (y - IZR n) (/ 2) then n
  else if Rlt_dec (/ 2) (y - IZR n) then n + 1
  else if Z.even n then n else n + 1.

(** Rounding to nearest, ties to even, in the format with [prec] bits of
    precision whose last subnormal bit is [2 ^ emin].  A number beyond
    the largest finite value of the format, which the platform turns into
    an infinity, is outside the embedding. *)
Definition round_to (prec emin : Z) (x : R) : R :=
  let e := Z.max (binade x - (prec - 1)) emin in
  (IZR (round_half_even (x * powerRZ 2 (- e))) * powerRZ 2 e)%R.

(** The result of an arithmetic operation on numbers: binary64. *)
Definition binary64 : R -> R := round_to 53 (-1074).

(** A number stored in a [Float32Array]: binary32. *)
Definition fround : R -> R := round_to 24 (-149).

End Js.

(* ================================================================== *)
(** ** src/music.js *)
(* ================================================================== *)

Module Music.

Definition NOTE_NAMES : list string :=
  ["C"; "C#"; "D"; "D#"; "E"; "F"; "F#"; "G"; "G#"; "A"; "A#"; "B"]%string.

Definition MAJOR_TEMPLATE : list R :=
  [1; 0; 1; 0; 1; 1; 0; 1; 0; 1; 0; 1]%R.

Definition MINOR_TEMPLATE : list R :=
  [1; 0; 1; 1; 0; 1; 0; 1; 1; 0; 1; 0]%R.

(** *** hzToNote *)

Record NoteAnnotation := mkNote {
  noteName : option string;
  centsOff : option R;
  targetFreq : option R
}.

(** The index expression [((nearestMidi % 12) + 12) % 12]. *)
Definition note_index (nearestMidi : Z) : Z :=
  Z.rem (Z.rem nearestMidi 12 + 12) 12.

Definition hzToNote (freq : R) : NoteAnnotation :=
  if Js.leb freq 0 then mkNote None None None
  else
    let midiNum := (69 + 12 * Js.log2 (freq / 440))%R in
    let nearestMidi := Js.round midiNum in
    let centsOff := ((midiNum - IZR nearestMidi) * 100)%R in
    let noteName :=
      (Js.str_at NOTE_NAMES (note_index nearestMidi)
       ++ Js.string_of_Z (Js.floor (IZR nearestMidi / 12) - 1))%string in
    let targetFreq := (440 * Js.pow2 ((IZR nearestMidi - 69) / 12))%R in
    mkNote (Some noteName) (Some centsOff) (Some targetFreq).

(** *** suggestChords *)

Definition major_intervals : list Z := [0; 2; 4; 5; 7; 9; 11].
Definition major_suffixes : list string :=
  [""; "m"; "m"; ""; ""; "m"; "dim"]%string.
Definition minor_intervals : list Z := [0; 2; 3; 5; 7; 8; 10].
Definition minor_suffixes : list string :=
  ["m"; "dim"; ""; "m"; "m"; ""; ""]%string.

(** The body shared by the two [intervals.map(...)] calls. *)
Definition chords_of (baseIdx : Z) (intervals : list Z)
           (suffixes : list string) : list string :=
  Js.mapi (fun interval index =>
             (Js.str_at NOTE_NAMES (Z.rem (baseIdx + interval) 12)
              ++ Js.str_at suffixes index)%string)
          intervals.

(** [keyName] is a string or [null]; the empty string is falsy too. *)
Definition suggestChords (keyName : option string) : list string :=
  match keyName with
  | None => []
  | Some EmptyString => []
  | Some k =>
      let parts := Js.split_space k in
      let baseNote := nth 0 parts EmptyString in
      let scaleType := nth_error parts 1 in
      let baseIdx := Js.indexOf NOTE_NAMES baseNote in
      if baseIdx <? 0 then []
      else
        if Js.opt_eqb scaleType "Major"
        then chords_of baseIdx major_intervals major_suffixes
        else chords_of baseIdx minor_intervals minor_suffixes
  end.


(** *** detectPitch *)

(** The first loop of [normalize]: the largest absolute sample. *)
Definition peak (samples : list R) : R :=
  fold_left (fun max x => let v := Rabs x in if Js.ltb max v then v else max)
            samples 0%R.

Definition normalize (samples : list R) : list R :=
  let max := peak samples in
  if Js.leb max 0 then samples
  else map (fun x => x / max)%R samples.

Definition rms (samples : list R) : R :=
  match samples with
  | [] => 0%R
  | _ =>
      let sum := fold_left (fun sum x => sum + x * x)%R samples 0%R in
      sqrt (sum / INR (List.length samples))
  end.

Definition minFreq : R := (6541 / 100)%R.
Definition maxFreq : R := 2093%R.

(** The three sums of one lag: [corr], [energy1], [energy2]. *)
Definition lag_sums (y : list R) (lag : Z) : R * R * R :=
  let limit := Z.of_nat (List.length y) - lag in
  fold_left
    (fun '(corr, energy1, energy2) i =>
       let a := Js.num_at y i in
       let b := Js.num_at y (i + lag) in
       (corr + a * b, energy1 + a * a, energy2 + b * b)%R)
    (Js.range 0 (limit - 1))
    (0, 0, 0)%R.

(** One turn of the loop over lags, on the pair [(bestLag, bestCorr)].
    The scores are compared as exact reals; the source compares their
    double-precision values, in which a score can exceed 1 by a rounding
    error, so no theorem rests on a tie between scores. *)
Definition lag_step (y : list R) (best : Z * R) (lag : Z) : Z * R :=
  let '(corr, energy1, energy2) := lag_sums y lag in
  let denom := sqrt (energy1 * energy2) in
  if Js.eqb denom 0 then best
  else
    let score := (corr / denom)%R in
    if Js.ltb (snd best) score then (lag, score) else best.

Definition detectPitch (samples : list R) (sampleRate : R) : option R :=
  if (Nat.eqb (List.length samples) 0) || Js.leb sampleRate 0 then None
  else
    let y := normalize samples in
    if Js.ltb (rms y) (1 / 100) then None
    else
      let minLag := Js.floor (sampleRate / maxFreq) in
      let maxLag := Js.floor (sampleRate / minFreq) in
      let '(bestLag, bestCorr) :=
        fold_left (lag_step y) (Js.range minLag maxLag) (-1, 0%R) in
      if (bestLag <=? 0) || Js.ltb bestCorr (35 / 100) then None
      else Some (sampleRate / IZR bestLag)%R.

(** *** estimateChroma *)

Definition pitchClassEnergy (samples : list R) (sampleRate freq : R) : R :=
  let omega := (2 * PI * freq / sampleRate)%R in
  let coeff := (2 * cos omega)%R in
  let '(sPrev, sPrev2) :=
    fold_left (fun '(sPrev, sPrev2) x =>
                 let s := (x + coeff * sPrev - sPrev2)%R in (s, sPrev))
              samples (0, 0)%R in
  (sPrev2 * sPrev2 + sPrev * sPrev - coeff * sPrev * sPrev2)%R.

(** The inner loop over octaves 2..6 for one pitch class of one frame. *)
Definition octave_acc (frame : list R) (sampleRate : R) (pitchClass : Z) : R :=
  fold_left
    (fun acc octave =>
       let midi := 12 * (octave + 1) + pitchClass in
       let freq := (440 * Js.pow2 ((IZR midi - 69) / 12))%R in
       if Js.ltb freq 40 || Js.ltb (sampleRate / 2 - 100) freq then acc
       else (acc + pitchClassEnergy frame sampleRate freq)%R)
    (Js.range 2 6) 0%R.

(** [chroma[pitchClass] += acc] for the twelve pitch classes of a frame. *)
Definition add_frame (sampleRate : R) (chroma : list R) (frame : list R)
  : list R :=
  Js.mapi (fun c pitchClass => (c + octave_acc frame sampleRate pitchClass)%R)
          chroma.

Definition estimateChroma (samples : list R) (sampleRate : R) : list R :=
  let chroma := repeat 0%R 12 in
  let len := Z.of_nat (List.length samples) in
  let frameSize := Z.min 4096 len in
  let hop := Z.max 1024 (Js.floor (IZR frameSize / 2)) in
  if frameSize <? 1024 then chroma
  else
    let chroma :=
      fold_left
        (fun chroma start =>
           add_frame sampleRate chroma
                     (Js.subarray samples start (start + frameSize)))
        (Js.range_by 0 (len - frameSize) hop) chroma in
    let norm := Js.hypot chroma in
    if Js.ltb 0 norm then map (fun c => c / norm)%R chroma else chroma.

(** *** detectKey *)

Record KeyEstimate := mkKey {
  keyName : option string;
  confidence : R
}.

(** [bestScore] starts at [-Infinity]. *)
Inductive score_t := NegInfinity | Score (s : R).

(** [score > bestScore]. *)
Definition score_gt (score : R) (bestScore : score_t) : bool :=
  match bestScore with
  | NegInfinity => true
  | Score b => Js.ltb b score
  end.

(** [Math.max(0, Math.min(1, bestScore))]. *)
Definition clamp01 (bestScore : score_t) : R :=
  match bestScore with
  | NegInfinity => 0%R
  | Score b => Rmax 0 (Rmin 1 b)
  end.

Definition templates : list (list R * string) :=
  [(MAJOR_TEMPLATE, "Major"%string); (MINOR_TEMPLATE, "Minor"%string)].

(** The score of one candidate: the rotated, normalised template against
    the chroma vector. *)
Definition key_score (chroma : list R) (i : Z) (template : list R) : R :=
  let rolled :=
    map (fun j => Js.num_at template (Z.rem (j - i + 12) 12)) (Js.range 0 11) in
  let norm := Js.hypot rolled in
  let normalized := map (fun value => value / norm)%R rolled in
  fold_left (fun score j => (score + Js.num_at chroma j * Js.num_at normalized j)%R)
            (Js.range 0 11) 0%R.

(** One candidate [(i, template, suffix)] against [(bestScore, bestKey)]. *)
Definition key_step (chroma : list R) (i : Z)
           (best : score_t * option string) (ts : list R * string)
  : score_t * option string :=
  let '(template, suffix) := ts in
  let score := key_score chroma i template in
  if score_gt score (fst best)
  then (Score score, Some (Js.str_at NOTE_NAMES i ++ " " ++ suffix)%string)
  else best.

(** The two nested loops over the 24 candidates, from
    [(bestScore, bestKey) = (-Infinity, null)]. *)
Definition key_search (chroma : list R) : score_t * option string :=
  fold_left
    (fun best i => fold_left (key_step chroma i) templates best)
    (Js.range 0 (Z.of_nat (List.length NOTE_NAMES) - 1))
    (NegInfinity, None).

(** [samples.subarray(0, Math.min(samples.length, sampleRate * 30))]. *)
Definition durationLimited (samples : list R) (sampleRate : R) : list R :=
  Js.subarray samples 0
    (Js.to_integer (Rmin (INR (List.length samples)) (sampleRate * 30))).

Definition detectKey (samples : list R) (sampleRate : R) : KeyEstimate :=
  if (Nat.eqb (List.length samples) 0) || Js.leb sampleRate 0 then mkKey None 0%R
  else
    let chroma := estimateChroma (durationLimited samples sampleRate) sampleRate in
    let '(bestScore, bestKey) := key_search chroma in
    mkKey bestKey (clamp01 bestScore).

(** *** buildWaveformSvg: the points of the polyline

    The loop that fills [points], with each point as its pair of numbers;
    the [toFixed(2)] text of a point and the SVG text around the points are
    not modelled. *)

(** [Math.min(samples.length, Math.floor(sampleRate * maxSeconds))], with
    [maxSeconds = 5]. *)
Definition waveform_count (samples : list R) (sampleRate : R) : Z :=
  Z.min (Z.of_nat (List.length samples)) (Js.floor (sampleRate * 5)).

(** [Math.max(1, Math.floor(count / width))], with [width = 1000]. *)
Definition waveform_step (count : Z) : Z :=
  Z.max 1 (Js.floor (IZR count / 1000)).

(** The values of [i] in [for (i = 0; i < count; i += step)]. *)
Definition waveform_indices (samples : list R) (sampleRate : R) : list Z :=
  let count := waveform_count samples sampleRate in
  if 0 <? count then Js.range_by 0 (count - 1) (waveform_step count) else [].

(** [x = (i / count) * width] and [y = midY - samples[i] * (height * 0.42)],
    with [height = 320] and [midY = height / 2]. *)
Definition waveform_points (samples : list R) (sampleRate : R) : list (R * R) :=
  let count := waveform_count samples sampleRate in
  map (fun i => (IZR i / IZR count * 1000,
                 320 / 2 - Js.num_at samples i * (320 * (42 / 100)))%R)
      (waveform_indices samples sampleRate).

End Music.

(* ================================================================== *)
(** ** src/audio.js: WAV decoding, channel mixing, resampling *)
(* ================================================================== *)

Module Audio.

(** What a call can do besides returning: throw, or loop for ever. *)
Inductive exception :=
| Error (message : string)   (* [new Error(message)] *)
| RangeError.                (* raised by [DataView] reads and by
                                [new Float32Array(Infinity)] *)

Inductive outcome (A : Type) :=
| Return (a : A)
| Throw (e : exception)
| Diverge.

Arguments Return {A} a.
Arguments Throw {A} e.
Arguments Diverge {A}.

Definition bind {A B} (m : outcome A) (k : A -> outcome B) : outcome B :=
  match m with
  | Return a => k a
  | Throw e => Throw e
  | Diverge => Diverge
  end.

Notation "x <- m ;; k" := (bind m (fun x => k))
  (at level 61, m at next level, right associativity).

(** The calls of a loop body, in order, stopping at the first throw. *)
Fixpoint traverse {A B} (f : A -> outcome B) (l : list A) : outcome (list B) :=
  match l with
  | [] => Return []
  | x :: xs => y <- f x ;; ys <- traverse f xs ;; Return (y :: ys)
  end.

(** *** DataView over an ArrayBuffer *)

Definition buffer := list Byte.byte.

Definition byteLength (view : buffer) : Z := Z.of_nat (List.length view).

Definition byte_at (view : buffer) (off : Z) : Z :=
  Z.of_N (Byte.to_N (nth (Z.to_nat off) view Byte.x00)).

Definition in_bounds (view : buffer) (off n : Z) : bool :=
  (0 <=? off) && (off + n <=? byteLength view).

Definition getUint8 (view : buffer) (off : Z) : outcome Z :=
  if in_bounds view off 1 then Return (byte_at view off) else Throw RangeError.

(** Little-endian values ([littleEndian = true] at every call site). *)
Definition le_uint16 (view : buffer) (off : Z) : Z :=
  byte_at view off + 256 * byte_at view (off + 1).

Definition le_uint32 (view : buffer) (off : Z) : Z :=
  byte_at view off + 256 * byte_at view (off + 1)
  + 65536 * byte_at view (off + 2) + 16777216 * byte_at view (off + 3).

Definition getUint16 (view : buffer) (off : Z) : outcome Z :=
  if in_bounds view off 2 then Return (le_uint16 view off)
  else Throw RangeError.

Definition getUint32 (view : buffer) (off : Z) : outcome Z :=
  if in_bounds view off 4 then Return (le_uint32 view off)
  else Throw RangeError.

(** Two's complement reading of a [w]-bit pattern. *)
Definition to_signed (w : Z) (x : Z) : Z :=
  if x <? 2 ^ (w - 1) then x else x - 2 ^ w.

Definition getInt16 (view : buffer) (off : Z) : outcome Z :=
  x <- getUint16 view off ;; Return (to_signed 16 x).

Definition getInt32 (view : buffer) (off : Z) : outcome Z :=
  x <- getUint32 view off ;; Return (to_signed 32 x).

(** The value of a binary32 pattern: sign, 8 exponent bits, 23 fraction
    bits.  A pattern with exponent 255 stands for an infinity or NaN,
    which is no number of the embedding; the formula of the normal numbers
    is kept there, and no theorem depends on the value of such a
    pattern.  Every other value is stored into a [Float32Array] as it is
    ([fround_float32_value]). *)
Definition float32_value (bits : Z) : R :=
  let sign := if Z.testbit bits 31 then (-1)%R else 1%R in
  let e := Z.land (Z.shiftr bits 23) 255 in
  let m := Z.land bits 8388607 in
  if e =? 0 then (sign * IZR m * powerRZ 2 (-149))%R
  else (sign * IZR (8388608 + m) * powerRZ 2 (e - 150))%R.

Definition getFloat32 (view : buffer) (off : Z) : outcome R :=
  x <- getUint32 view off ;; Return (float32_value x).

(** [String.fromCharCode(c0, c1, ...)]. *)
Definition fromCharCode (codes : list Z) : string :=
  string_of_list_ascii (map (fun c => ascii_of_N (Z.to_N c)) codes).

(** The four-character tag read byte by byte at [off]. *)
Definition tag_at (view : buffer) (off : Z) : outcome string :=
  c0 <- getUint8 view off ;;
  c1 <- getUint8 view (off + 1) ;;
  c2 <- getUint8 view (off + 2) ;;
  c3 <- getUint8 view (off + 3) ;;
  Return (fromCharCode [c0; c1; c2; c3]).

(** The result of a 32-bit bitwise operator (ToInt32). *)
Definition to_int32 (x : Z) : Z := (x + 2147483648) mod 4294967296 - 2147483648.

(** *** mergeChannels *)

Definition mergeChannels (channelData : list (list R)) : list R :=
  match channelData with
  | [] => []
  | [only] => only
  | first :: _ =>
      map (fun i =>
             let sum :=
               fold_left (fun sum channel => sum + nth i channel 0)%R
                         channelData 0%R in
             (sum / INR (List.length channelData))%R)
          (seq 0 (List.length first))
  end.

(** *** decodeWav *)

Record Pcm := mkPcm {
  samples : list R;
  sampleRate : R
}.

Record WavFormat := mkFormat {
  audioFormat : Z;
  numChannels : Z;
  fmtSampleRate : Z;
  bitsPerSample : Z
}.

Definition default_format : WavFormat := mkFormat 1 1 44100 16.

(** The four reads made on a format chunk whose header is at [offset]. *)
Definition read_format (view : buffer) (offset : Z) : outcome WavFormat :=
  af <- getUint16 view (offset + 8) ;;
  nc <- getUint16 view (offset + 10) ;;
  sr <- getUint32 view (offset + 12) ;;
  bits <- getUint16 view (offset + 22) ;;
  Return (mkFormat af nc sr bits).

(** [offset += 8 + chunkSize + (chunkSize % 2)]. *)
Definition next_chunk (offset chunkSize : Z) : Z :=
  offset + (8 + chunkSize + Z.rem chunkSize 2).

(** The [while] loop over chunks.  It returns the format fields and
    [(dataOffset, dataSize)], which stay [(-1, 0)] when the loop ends by
    its condition.  Every turn moves [offset] forward by 8 or more, so the
    loop ends; [fuel] bounds the turns and [chunk_walk_fuel] shows that the
    bound used by [decodeWav] is never reached. *)
Fixpoint chunk_walk (fuel : nat) (view : buffer) (offset : Z) (fmt : WavFormat)
  : outcome (WavFormat * Z * Z) :=
  match fuel with
  | O => Diverge
  | S fuel' =>
      if offset + 8 <=? byteLength view then
        chunkId <- tag_at view offset ;;
        chunkSize <- getUint32 view (offset + 4) ;;
        if String.eqb chunkId "fmt " then
          fmt' <- read_format view offset ;;
          chunk_walk fuel' view (next_chunk offset chunkSize) fmt'
        else if String.eqb chunkId "data" then
          Return (fmt, offset + 8, chunkSize)
        else
          chunk_walk fuel' view (next_chunk offset chunkSize) fmt
      else Return (fmt, -1, 0)
  end.

(** [Math.floor(availableDataSize / bytesPerSample / numChannels)] is a
    number, which a zero divisor makes [Infinity] or [NaN].  [bytesPerSample]
    is [bitsPerSample / 8], a fraction when the bit depth is not a multiple
    of 8; the quotients are taken exactly, as rationals. *)
Inductive count := Finite (n : Z) | Infinite | NotANumber.

Definition total_samples (availableDataSize bits nc : Z) : count :=
  if (bits =? 0) || (nc =? 0) then
    if availableDataSize =? 0 then NotANumber else Infinite
  else
    Finite (Qfloor (inject_Z availableDataSize / (inject_Z bits / 8)
                    / inject_Z nc)).

Definition unsupported_message (bits : Z) : string :=
  ("Unsupported WAV bits per sample: " ++ Js.string_of_Z bits)%string.

(** The body of the inner loop: the value of sample [i] of [channel].
    [bytesPerSample] is [bitsPerSample / 8]; the division is exact for
    every bit depth that reaches a read. *)
Definition decode_sample (view : buffer) (fmt : WavFormat) (dataOffset : Z)
           (i channel : Z) : outcome R :=
  let bits := bitsPerSample fmt in
  let bytesPerSample := bits / 8 in
  let sampleIndex := dataOffset + (i * numChannels fmt + channel) * bytesPerSample in
  if (audioFormat fmt =? 3) && (bits =? 32) then
    getFloat32 view sampleIndex
  else if bits =? 16 then
    v <- getInt16 view sampleIndex ;; Return (IZR v / 32768)%R
  else if bits =? 24 then
    b0 <- getUint8 view sampleIndex ;;
    b1 <- getUint8 view (sampleIndex + 1) ;;
    b2 <- getUint8 view (sampleIndex + 2) ;;
    let int := Z.lor (Z.lor (Z.shiftl b2 16) (Z.shiftl b1 8)) b0 in
    let int := if Z.land int 8388608 =? 0 then int
               else to_int32 (Z.lor int 4278190080) in
    Return (IZR int / 8388608)%R
  else if bits =? 32 then
    v <- getInt32 view sampleIndex ;; Return (IZR v / 2147483648)%R
  else if bits =? 8 then
    v <- getUint8 view sampleIndex ;; Return ((IZR v - 128) / 128)%R
  else Throw (Error (unsupported_message bits)).

(** [channels[channel][i] = value]: the channel arrays are
    [Float32Array]s, so the value is rounded to binary32 when it is
    stored. *)
Definition stored_sample (view : buffer) (fmt : WavFormat) (dataOffset : Z)
           (i channel : Z) : outcome R :=
  value <- decode_sample view fmt dataOffset i channel ;;
  Return (Js.fround value).

(** The two nested loops, in the order of the source: frame [i] outside,
    [channel] inside.  [channels[channel][i]] is entry [channel] of frame
    [i]. *)
Definition decode_frames (view : buffer) (fmt : WavFormat)
           (dataOffset totalSamples : Z) : outcome (list (list R)) :=
  traverse (fun i =>
              traverse (stored_sample view fmt dataOffset i)
                       (Js.range 0 (numChannels fmt - 1)))
           (Js.range 0 (totalSamples - 1)).

Definition channels_of_frames (nc : Z) (frames : list (list R))
  : list (list R) :=
  map (fun channel => map (fun frame => nth (Z.to_nat channel) frame 0%R) frames)
      (Js.range 0 (nc - 1)).

(** [decodeWav] after the chunk loop. *)
Definition decode_data (view : buffer) (walked : WavFormat * Z * Z)
  : outcome Pcm :=
  let '(fmt, dataOffset, dataSize) := walked in
  if dataOffset =? -1 then Throw (Error "WAV data chunk not found")
  else
    let availableDataSize :=
      Z.max 0 (Z.min dataSize (byteLength view - dataOffset)) in
    let nc := numChannels fmt in
    match total_samples availableDataSize (bitsPerSample fmt) nc with
    | Infinite =>
        (* no channel array to allocate: the outer loop runs for ever;
           otherwise the first [new Float32Array(Infinity)] throws *)
        if nc =? 0 then Diverge else Throw RangeError
    | NotANumber =>
        Return (mkPcm (mergeChannels (channels_of_frames nc []))
                      (IZR (fmtSampleRate fmt)))
    | Finite totalSamples =>
        frames <- decode_frames view fmt dataOffset totalSamples ;;
        Return (mkPcm (mergeChannels (channels_of_frames nc frames))
                      (IZR (fmtSampleRate fmt)))
    end.

Definition decodeWav (view : buffer) : outcome Pcm :=
  riff <- tag_at view 0 ;;
  wave <- tag_at view 8 ;;
  if negb (String.eqb riff "RIFF") || negb (String.eqb wave "WAVE") then
    Throw (Error "Invalid WAV header")
  else
    walked <- chunk_walk (S (List.length view)) view 12 default_format ;;
    decode_data view walked.

(** *** maybeResample

    The sample rates are positive numbers.  (With a [sampleRate] of 0 the
    ratio of the source is [Infinity] and the allocation of the output
    throws; with a [targetRate] of 0 the samples are [NaN].  Neither is a
    number of the embedding, and every theorem about a resampled signal
    assumes positive rates.)  Two embeddings follow: [maybeResample] takes
    all arithmetic exactly, and [Binary64.maybeResample] rounds every
    operation as the source does, to double precision, and the stored
    sample to single precision. *)

(** [out[i]] of the resampling loop. *)
Definition resample_at (samples : list R) (ratio : R) (i : Z) : R :=
  let srcPos := (IZR i / ratio)%R in
  let left := Js.floor srcPos in
  let right := Z.min (Z.of_nat (List.length samples) - 1) (left + 1) in
  let frac := (srcPos - IZR left)%R in
  (Js.num_at samples left * (1 - frac) + Js.num_at samples right * frac)%R.

(** [Math.max(1, Math.floor(samples.length * ratio))]. *)
Definition outLength_of (len : nat) (ratio : R) : Z :=
  Z.max 1 (Js.floor (INR len * ratio)).

Definition maybeResample (samples : list R) (sampleRate targetRate : R) : Pcm :=
  if (Nat.eqb (List.length samples) 0) || Js.eqb sampleRate targetRate then
    mkPcm samples sampleRate
  else
    let ratio := (targetRate / sampleRate)%R in
    let outLength := outLength_of (List.length samples) ratio in
    mkPcm (map (resample_at samples ratio) (Js.range 0 (outLength - 1)))
          targetRate.

(** The same function in floating-point arithmetic.  Every operation of
    the source on numbers is one rounding to double precision:
    [targetRate / sampleRate], [samples.length * ratio] before
    [Math.floor], [i / ratio], [srcPos - left], [1 - frac], the two
    products and their sum; the store into the [Float32Array] rounds to
    single precision. *)
Module Binary64.

(** [out[i]] of the resampling loop. *)
Definition resample_at (samples : list R) (ratio : R) (i : Z) : R :=
  let srcPos := Js.binary64 (IZR i / ratio) in
  let left := Js.floor srcPos in
  let right := Z.min (Z.of_nat (List.length samples) - 1) (left + 1) in
  let frac := Js.binary64 (srcPos - IZR left) in
  Js.fround
    (Js.binary64 (Js.binary64 (Js.num_at samples left * Js.binary64 (1 - frac))
                  + Js.binary64 (Js.num_at samples right * frac))).

(** [Math.max(1, Math.floor(samples.length * ratio))]. *)
Definition outLength_of (len : nat) (ratio : R) : Z :=
  Z.max 1 (Js.floor (Js.binary64 (INR len * ratio))).

Definition maybeResample (samples : list R) (sampleRate targetRate : R) : Pcm :=
  if (Nat.eqb (List.length samples) 0) || Js.eqb sampleRate targetRate then
    mkPcm samples sampleRate
  else
    let ratio := Js.binary64 (targetRate / sampleRate) in
    let outLength := outLength_of (List.length samples) ratio in
    mkPcm (map (resample_at samples ratio) (Js.range 0 (outLength - 1)))
          targetRate.

End Binary64.

(** *** clipDuration *)

Definition clipDuration (samples : list R) (sampleRate maxSeconds : R) : list R :=
  let maxSamples := Js.floor (sampleRate * maxSeconds) in
  if Z.of_nat (List.length samples) <=? maxSamples then samples
  else Js.subarray_to samples maxSamples.

(** *** decodeAudioFile, after the decoder has returned

    The last statements of [decodeAudioFile]: resampling to 22050 Hz and
    clipping to [maxSeconds].  ([mono] is the decoded signal itself: the
    conversion to a [Float32Array] changes no sample here.) *)
Definition finish_decode (decoded : Pcm) (maxSeconds : R) : Pcm :=
  let mono := samples decoded in
  let resampled := maybeResample mono (sampleRate decoded) 22050 in
  let clipped := clipDuration (samples resampled) (sampleRate resampled) maxSeconds in
  mkPcm clipped (sampleRate resampled).

End Audio.

(* ================================================================== *)
(** ** Vocabulary of the statements *)
(* ================================================================== *)

Module Spec.

(** A key name that JavaScript takes as false: [null] or the empty string. *)
Definition falsy (keyName : option string) : bool :=
  match keyName with
  | None => true
  | Some EmptyString => true
  | Some _ => false
  end.

(** Whether a string holds a space, the separator of [split]. *)
Fixpoint has_space (s : string) : bool :=
  match s with
  | EmptyString => false
  | String c rest => Ascii.eqb c " "%char || has_space rest
  end.

(** The root of a key name: its text before the first space. *)
Definition root_of (k : string) : string :=
  nth 0 (Js.split_space k) EmptyString.

(** A silent signal: every sample is zero. *)
Definition silent (samples : list R) : Prop :=
  Forall (fun x => x = 0%R) samples.

(** The all-zero chroma vector. *)
Definition zero_chroma : list R := repeat 0%R 12.

(** *** Building WAV files *)

Definition byte_of_Z (z : Z) : Byte.byte :=
  match Byte.of_N (Z.to_N (z mod 256)) with
  | Some b => b
  | None => Byte.x00
  end.

(** Little-endian fields of 16 and 32 bits. *)
Definition le16 (n : Z) : Audio.buffer :=
  [byte_of_Z n; byte_of_Z (n / 256)].

Definition le32 (n : Z) : Audio.buffer :=
  [byte_of_Z n; byte_of_Z (n / 256); byte_of_Z (n / 65536);
   byte_of_Z (n / 16777216)].

Definition tag (s : string) : Audio.buffer := list_byte_of_string s.

(** The pad byte that follows a payload of odd length. *)
Definition padding (payload : Audio.buffer) : Audio.buffer :=
  if Z.odd (Audio.byteLength payload) then [Byte.x00] else [].

(** A chunk: tag, length, payload, pad. *)
Definition chunk (id : string) (payload : Audio.buffer) : Audio.buffer :=
  tag id ++ le32 (Audio.byteLength payload) ++ payload ++ padding payload.

(** The 16-byte payload of a format chunk. *)
Definition fmt_payload (audioFormat numChannels sampleRate bits : Z)
  : Audio.buffer :=
  le16 audioFormat ++ le16 numChannels ++ le32 sampleRate
  ++ le32 (sampleRate * numChannels * bits / 8)
  ++ le16 (numChannels * bits / 8) ++ le16 bits.

(** The 12-byte header: container tag, a size field, format tag. *)
Definition header (riffSize : Z) : Audio.buffer :=
  tag "RIFF" ++ le32 riffSize ++ tag "WAVE".

Definition wav (chunks : Audio.buffer) : Audio.buffer :=
  header (4 + Audio.byteLength chunks) ++ chunks.

(** Fuel for a chunk loop that starts at [offset]: one turn for every 8
    bytes left, and one for the last test. *)
Definition enough_fuel (fuel : nat) (view : Audio.buffer) (offset : Z) : Prop :=
  Audio.byteLength view - offset < 8 * Z.of_nat fuel /\ (0 < fuel)%nat.

(** Two buffers that hold the same bytes from [o1] on in the first and
    from [o2] on in the second, up to their ends. *)
Definition aligned (v1 : Audio.buffer) (o1 : Z) (v2 : Audio.buffer) (o2 : Z)
  : Prop :=
  0 <= o1 /\ 0 <= o2
  /\ Audio.byteLength v1 - o1 = Audio.byteLength v2 - o2
  /\ forall k, 0 <= k -> Audio.byte_at v1 (o1 + k) = Audio.byte_at v2 (o2 + k).

(** The result of a chunk loop, with its data offset moved by [delta]. *)
Definition shift_data (delta : Z) (walked : Audio.WavFormat * Z * Z)
  : Audio.WavFormat * Z * Z :=
  let '(fmt, dataOffset, dataSize) := walked in
  (fmt, if dataOffset =? -1 then -1 else dataOffset + delta, dataSize).

(** Format fields as unsigned reads give them. *)
Definition format_ok (fmt : Audio.WavFormat) : Prop :=
  0 <= Audio.numChannels fmt /\ 0 <= Audio.bitsPerSample fmt.

(** A chunk that the loop steps over: a four-letter tag other than [data],
    a payload whose length fits the 32-bit size field, and for a format
    chunk the 16 bytes that hold its fields. *)
Definition passed_chunk (c : string * Audio.buffer) : Prop :=
  String.length (fst c) = 4%nat
  /\ fst c <> "data"%string
  /\ Audio.byteLength (snd c) < 4294967296
  /\ (fst c = "fmt "%string -> 16 <= Audio.byteLength (snd c)).

(** A chunk that the decoder does not know. *)
Definition unknown_chunk (c : string * Audio.buffer) : Prop :=
  String.length (fst c) = 4%nat
  /\ fst c <> "data"%string /\ fst c <> "fmt "%string
  /\ Audio.byteLength (snd c) < 4294967296.

(** The format fields after the loop has passed chunk [c]: those of its
    payload for a format chunk, the ones before otherwise. *)
Definition format_after (c : string * Audio.buffer) (fmt : Audio.WavFormat)
  : Audio.WavFormat :=
  if String.eqb (fst c) "fmt " then
    let bytes := chunk (fst c) (snd c) in
    Audio.mkFormat (Audio.le_uint16 bytes 8) (Audio.le_uint16 bytes 10)
                   (Audio.le_uint32 bytes 12) (Audio.le_uint16 bytes 22)
  else fmt.

Definition encode_chunks (cs : list (string * Audio.buffer)) : Audio.buffer :=
  List.concat (map (fun c => chunk (fst c) (snd c)) cs).

(** The four bytes of a buffer at [off], as a list. *)
Definition four_at (view : Audio.buffer) (off : Z) : Audio.buffer :=
  firstn 4 (skipn (Z.to_nat off) view).

(** The bit depths that [decodeWav] decodes. *)
Definition supported_bits (bits : Z) : bool :=
  (bits =? 8) || (bits =? 16) || (bits =? 24) || (bits =? 32).

(** A 12-bit mono file at 44100 Hz whose data chunk is empty. *)
Definition wav_12bit_no_data : Audio.buffer :=
  wav (chunk "fmt " (fmt_payload 1 1 44100 12) ++ chunk "data" []).

(** The same format with three bytes of data: two 12-bit samples. *)
Definition wav_12bit_two_samples : Audio.buffer :=
  wav (chunk "fmt " (fmt_payload 1 1 44100 12)
       ++ chunk "data" [Byte.x01; Byte.x02; Byte.x03]).

(** A 12-bit file that declares no channel, with three bytes of data. *)
Definition wav_12bit_no_channel : Audio.buffer :=
  wav (chunk "fmt " (fmt_payload 1 0 44100 12)
       ++ chunk "data" [Byte.x01; Byte.x02; Byte.x03]).

(** Eight bytes that do not start with the container tag. *)
Definition eight_bytes : Audio.buffer := tag "JUNK" ++ le32 0.

(** A 16-bit mono file of two samples, 1 and -2, and the same file with a
    [LIST] chunk of three bytes (and its pad byte) before the data. *)
Definition wav_16bit : Audio.buffer :=
  wav (chunk "fmt " (fmt_payload 1 1 22050 16)
       ++ chunk "data" (le16 1 ++ le16 (-2))).

Definition wav_16bit_with_list : Audio.buffer :=
  wav (chunk "fmt " (fmt_payload 1 1 22050 16)
       ++ chunk "LIST" [Byte.x61; Byte.x62; Byte.x63]
       ++ chunk "data" (le16 1 ++ le16 (-2))).

(** The first ten bytes of a format payload: PCM, mono, 22050 Hz and half
    of the byte rate.  [decodeWav] reads the bit depth 14 bytes into the
    payload, which is 4 bytes into the chunk that follows this one: the
    low half of its size field. *)
Definition short_fmt_payload : Audio.buffer :=
  le16 1 ++ le16 1 ++ le32 22050 ++ le16 44100.

(** A file with that format chunk and 16 bytes of data, and the same file
    with a [LIST] chunk of 8 bytes before the data. *)
Definition wav_short_fmt : Audio.buffer :=
  wav (chunk "fmt " short_fmt_payload ++ chunk "data" (repeat Byte.x00 16)).

Definition wav_short_fmt_with_list : Audio.buffer :=
  wav (chunk "fmt " short_fmt_payload
       ++ chunk "LIST" (repeat Byte.x61 8)
       ++ chunk "data" (repeat Byte.x00 16)).

(** The 24 key names the key search can produce: each note name with
    ["Major"] and with ["Minor"]. *)
Definition key_names : list string :=
  flat_map (fun note => [note ++ " " ++ "Major"; note ++ " " ++ "Minor"]%string)
           Music.NOTE_NAMES.

(** *** The meaning of integer PCM samples *)

(** The unsigned value of three bytes, least significant first. *)
Definition le_uint24 (view : Audio.buffer) (off : Z) : Z :=
  Audio.byte_at view off + 256 * Audio.byte_at view (off + 1)
  + 65536 * Audio.byte_at view (off + 2).

(** The integer that an integer PCM sample of [bits] bits at [off] stands
    for: offset binary for 8 bits, little-endian two's complement for 16,
    24 and 32 bits. *)
Definition pcm_int (view : Audio.buffer) (bits off : Z) : Z :=
  if bits =? 8 then Audio.byte_at view off - 128
  else if bits =? 16 then Audio.to_signed 16 (Audio.le_uint16 view off)
  else if bits =? 24 then Audio.to_signed 24 (le_uint24 view off)
  else Audio.to_signed 32 (Audio.le_uint32 view off).

(** A mono 16-bit PCM file: the samples as little-endian 16-bit fields in
    the data chunk, after a 16-byte format chunk. *)
Definition pcm16 (values : list Z) : Audio.buffer :=
  List.concat (map le16 values).

Definition wav_pcm16 (sampleRate : Z) (values : list Z) : Audio.buffer :=
  wav (chunk "fmt " (fmt_payload 1 1 sampleRate 16)
       ++ chunk "data" (pcm16 values)).

End Spec.

(* ================================================================== *)
(** ** Properties of src/music.js *)
(* ================================================================== *)

Section ChordSuggester.
Import Music.
Local Open Scope string_scope.

(** C5. [suggestChords("C Major")] is C Dm Em F G Am Bdim and
    [suggestChords("A Minor")] is Am Bdim C Dm Em F G, in scale-degree
    order. *)
Theorem suggestChords_C_major_A_minor :
  suggestChords (Some "C Major") = ["C"; "Dm"; "Em"; "F"; "G"; "Am"; "Bdim"]
  /\ suggestChords (Some "A Minor") = ["Am"; "Bdim"; "C"; "Dm"; "Em"; "F"; "G"].
Proof. split; vm_compute; reflexivity. Qed.

End ChordSuggester.

Section NoteIndex.
Import Music.

Lemma note_index_range (n : Z) : 0 <= note_index n <= 11.
Proof.
  unfold note_index.
  assert (Hr : -12 < Z.rem n 12 < 12).
  { pose proof (Z.rem_bound_abs n 12 ltac:(lia)). lia. }
  pose proof (Z.rem_bound_pos (Z.rem n 12 + 12) 12 ltac:(lia) ltac:(lia)).
  lia.
Qed.

Lemma NOTE_NAMES_defined (i : Z) :
  0 <= i <= 11 ->
  exists name, nth_error NOTE_NAMES (Z.to_nat i) = Some name
               /\ Js.str_at NOTE_NAMES i = name.
Proof.
  intros Hi.
  assert (Hc : i = 0 \/ i = 1 \/ i = 2 \/ i = 3 \/ i = 4 \/ i = 5 \/ i = 6
               \/ i = 7 \/ i = 8 \/ i = 9 \/ i = 10 \/ i = 11) by lia.
  repeat (destruct Hc as [-> | Hc]; [eexists; split; reflexivity | ]).
  subst i. eexists; split; reflexivity.
Qed.

(** C9. For every integer [nearestMidi], negative ones included, the index
    [((nearestMidi % 12) + 12) % 12] lies in 0..11, so the lookup in the
    twelve-entry [NOTE_NAMES] table made by [hzToNote] finds a name. *)
Theorem note_index_in_table (nearestMidi : Z) :
  0 <= note_index nearestMidi <= 11
  /\ (Z.to_nat (note_index nearestMidi) < List.length NOTE_NAMES)%nat
  /\ exists name,
       nth_error NOTE_NAMES (Z.to_nat (note_index nearestMidi)) = Some name
       /\ Js.str_at NOTE_NAMES (note_index nearestMidi) = name.
Proof.
  pose proof (note_index_range nearestMidi) as Hr.
  split; [exact Hr | split].
  - simpl. lia.
  - apply NOTE_NAMES_defined; exact Hr.
Qed.

End NoteIndex.

Section ChordModes.
Import Music.
Local Open Scope string_scope.

Lemma split_space_no_space (s : string) :
  Spec.has_space s = false -> Js.split_space s = [s].
Proof.
  induction s as [| c s IH]; simpl; intros H; [reflexivity | ].
  apply orb_false_iff in H as [Hc Hs].
  rewrite Hc, (IH Hs). reflexivity.
Qed.

Lemma split_space_cons (s : string) :
  exists w ws, Js.split_space s = w :: ws.
Proof.
  destruct s as [| c s]; simpl; [eauto | ].
  destruct (Ascii.eqb c " "); [eauto | ].
  destruct (Js.split_space s); eauto.
Qed.

Lemma split_space_app (root rest : string) :
  Spec.has_space root = false ->
  Js.split_space (root ++ " " ++ rest) = root :: Js.split_space rest.
Proof.
  induction root as [| c root IH]; simpl in *; intros H; [reflexivity | ].
  apply orb_false_iff in H as [Hc Hs].
  rewrite Hc, (IH Hs). reflexivity.
Qed.

Lemma indexOf_from_spec (x : string) (arr : list string) (i : Z) :
  0 <= i ->
  (In x arr -> i <= Js.indexOf_from x arr i)
  /\ (~ In x arr -> Js.indexOf_from x arr i = -1).
Proof.
  revert i; induction arr as [| y ys IH]; simpl; intros i Hi.
  - split; [tauto | reflexivity].
  - destruct (String.eqb_spec y x) as [-> | Hne].
    + split; [intros _; lia | intros H; exfalso; apply H; now left].
    + destruct (IH (i + 1) ltac:(lia)) as [Hin Hout].
      split.
      * intros [Heq | H]; [congruence | ]. specialize (Hin H). lia.
      * intros H. apply Hout. tauto.
Qed.

Lemma indexOf_negative (arr : list string) (x : string) :
  (Js.indexOf arr x <? 0)%Z = true <-> ~ In x arr.
Proof.
  unfold Js.indexOf.
  destruct (indexOf_from_spec x arr 0 ltac:(lia)) as [Hin Hout].
  rewrite Z.ltb_lt. split.
  - intros Hneg Hx. specialize (Hin Hx). lia.
  - intros Hx. rewrite (Hout Hx). lia.
Qed.

Lemma NOTE_NAMES_no_space (root : string) :
  In root NOTE_NAMES -> Spec.has_space root = false.
Proof.
  intros H. unfold NOTE_NAMES in H. simpl in H.
  repeat (destruct H as [<- | H]; [reflexivity | ]).
  contradiction.
Qed.

Lemma chords_of_not_nil (baseIdx : Z) :
  chords_of baseIdx major_intervals major_suffixes <> []
  /\ chords_of baseIdx minor_intervals minor_suffixes <> [].
Proof. split; discriminate. Qed.

(** The result of [suggestChords] on a non-empty key name, by its fields. *)
Lemma suggestChords_fields (k : string) :
  k <> "" ->
  suggestChords (Some k) =
    let baseIdx := Js.indexOf NOTE_NAMES (Spec.root_of k) in
    if (baseIdx <? 0)%Z then []
    else if Js.opt_eqb (nth_error (Js.split_space k) 1) "Major"
         then chords_of baseIdx major_intervals major_suffixes
         else chords_of baseIdx minor_intervals minor_suffixes.
Proof.
  intros Hk. destruct k as [| c k]; [congruence | reflexivity].
Qed.

(** C10. For a key name [Root ++ " " ++ Mode] whose root is in the
    pitch-class table and whose mode is one field (no space inside),
    [suggestChords] applies the minor pattern whenever the mode is not
    exactly [Major]; and for every key name the result is the empty list
    exactly when the key name is falsy or its root is not in the table. *)
Theorem suggestChords_mode_default_and_empty :
  (forall root mode : string,
      In root NOTE_NAMES ->
      Spec.has_space mode = false ->
      mode <> "Major" ->
      suggestChords (Some (root ++ " " ++ mode))
      = chords_of (Js.indexOf NOTE_NAMES root) minor_intervals minor_suffixes)
  /\ (forall keyName : option string,
         suggestChords keyName = []
         <-> (Spec.falsy keyName = true
              \/ exists k, keyName = Some k
                           /\ ~ In (Spec.root_of k) NOTE_NAMES)).
Proof.
  split.
  - intros root mode Hroot Hmode Hneq.
    assert (Hk : root ++ " " ++ mode <> "").
    { destruct root; discriminate. }
    rewrite (suggestChords_fields _ Hk). unfold Spec.root_of.
    rewrite (split_space_app root mode (NOTE_NAMES_no_space root Hroot)).
    rewrite (split_space_no_space mode Hmode). simpl nth. simpl nth_error.
    cbv zeta.
    destruct (Js.indexOf NOTE_NAMES root <? 0)%Z eqn:Hidx.
    + apply indexOf_negative in Hidx. contradiction.
    + unfold Js.opt_eqb.
      destruct (String.eqb_spec mode "Major") as [Heq | _]; [contradiction | ].
      reflexivity.
  - intros keyName. split.
    + intros Hnil. destruct keyName as [k | ]; [ | now left].
      destruct k as [| c k]; [now left | ]. right.
      exists (String c k). split; [reflexivity | ].
      rewrite suggestChords_fields in Hnil by discriminate.
      cbv zeta in Hnil.
      destruct (Js.indexOf NOTE_NAMES (Spec.root_of (String c k)) <? 0)%Z eqn:Hidx.
      * now apply indexOf_negative.
      * exfalso.
        destruct (chords_of_not_nil
                    (Js.indexOf NOTE_NAMES (Spec.root_of (String c k)))) as [H1 H2].
        destruct (Js.opt_eqb _ _); contradiction.
    + intros [Hf | [k [-> Hk]]].
      * destruct keyName as [[| c k] | ]; try reflexivity. discriminate.
      * destruct k as [| c k]; [reflexivity | ].
        rewrite suggestChords_fields by discriminate. cbv zeta.
        apply indexOf_negative in Hk. rewrite Hk. reflexivity.
Qed.

(** The theorem at the key names [A Dorian] and [H Major]. *)
Lemma suggestChords_mode_default_and_empty_witness :
  suggestChords (Some "A Dorian")
  = ["Am"; "Bdim"; "C"; "Dm"; "Em"; "F"; "G"]
  /\ suggestChords (Some "H Major") = [].
Proof.
  destruct suggestChords_mode_default_and_empty as [Hmode Hempty].
  split.
  - refine (eq_trans (Hmode "A" "Dorian" _ _ _) _).
    + simpl. tauto.
    + reflexivity.
    + discriminate.
    + vm_compute. reflexivity.
  - apply (Hempty (Some "H Major")). right. exists "H Major".
    split; [reflexivity | ].
    vm_compute. intuition discriminate.
Defined.

(** What decides the pattern when the text after the root holds spaces:
    its first field, the second field of the key name. *)
Lemma suggestChords_second_field (root rest : string) :
  In root NOTE_NAMES ->
  suggestChords (Some (root ++ " " ++ rest))
  = if String.eqb (nth 0 (Js.split_space rest) "") "Major"
    then chords_of (Js.indexOf NOTE_NAMES root) major_intervals major_suffixes
    else chords_of (Js.indexOf NOTE_NAMES root) minor_intervals minor_suffixes.
Proof.
  intros Hroot.
  assert (Hk : root ++ " " ++ rest <> "") by (destruct root; discriminate).
  rewrite (suggestChords_fields _ Hk). unfold Spec.root_of.
  rewrite (split_space_app root rest (NOTE_NAMES_no_space root Hroot)).
  destruct (split_space_cons rest) as (w & ws & ->).
  simpl nth. simpl nth_error. cbv zeta.
  destruct (Js.indexOf NOTE_NAMES root <? 0)%Z eqn:Hidx; [ | reflexivity].
  apply indexOf_negative in Hidx. contradiction.
Qed.

Lemma suggestChords_C_Major_7 :
  suggestChords (Some "C Major 7") = ["C"; "Dm"; "Em"; "F"; "G"; "Am"; "Bdim"].
Proof. vm_compute. reflexivity. Qed.

End ChordModes.

Section NoteMapper.
Import Music.
Local Open Scope R_scope.

Lemma leb_false_of_lt (x y : R) : y < x -> Js.leb x y = false.
Proof.
  intros H. unfold Js.leb. destruct (Rle_dec x y) as [Hle | _]; [lra | reflexivity].
Qed.

Lemma leb_true_of_le (x y : R) : x <= y -> Js.leb x y = true.
Proof.
  intros H. unfold Js.leb. destruct (Rle_dec x y) as [_ | Hn]; [reflexivity | lra].
Qed.

Lemma ltb_true_of_lt (x y : R) : x < y -> Js.ltb x y = true.
Proof.
  intros H. unfold Js.ltb. destruct (Rlt_dec x y) as [_ | Hn]; [reflexivity | lra].
Qed.

Lemma ltb_false_of_le (x y : R) : y <= x -> Js.ltb x y = false.
Proof.
  intros H. unfold Js.ltb. destruct (Rlt_dec x y) as [Hlt | _]; [lra | reflexivity].
Qed.

Lemma ln_2_pos : 0 < ln 2.
Proof. rewrite <- ln_1. apply ln_increasing; lra. Qed.

Lemma pow2_pos (y : R) : 0 < Js.pow2 y.
Proof. unfold Js.pow2, Rpower. apply exp_pos. Qed.

(** [Math.log2] undoes [2 ** y]. *)
Lemma log2_pow2 (y : R) : Js.log2 (Js.pow2 y) = y.
Proof.
  unfold Js.log2, Js.pow2, Rpower. rewrite ln_exp.
  pose proof ln_2_pos. field. lra.
Qed.

(** [Math.round] leaves an integer where it is. *)
Lemma round_IZR (n : Z) : Js.round (IZR n) = n.
Proof. unfold Js.round. apply Zfloor_eq. lra. Qed.

(** The target frequency of MIDI number [n]. *)
Lemma midi_of_target (n : Z) :
  69 + 12 * Js.log2 (440 * Js.pow2 ((IZR n - 69) / 12) / 440) = IZR n.
Proof.
  replace (440 * Js.pow2 ((IZR n - 69) / 12) / 440)
    with (Js.pow2 ((IZR n - 69) / 12)) by (field; lra).
  rewrite log2_pow2. field.
Qed.

(** C7. The note mapper is idempotent on its own target frequency: for
    every [f > 0], mapping the target frequency of [hzToNote f] again
    gives the same note name and the same target frequency, with a
    deviation of 0 cents (numbers taken as reals). *)
Theorem hzToNote_idempotent_on_target (f : R) :
  0 < f ->
  exists (name : string) (cents target : R),
    hzToNote f = mkNote (Some name) (Some cents) (Some target)
    /\ 0 < target
    /\ hzToNote target = mkNote (Some name) (Some 0) (Some target).
Proof.
  intros Hf. unfold hzToNote at 1. rewrite (leb_false_of_lt _ _ Hf). cbv zeta.
  set (n := Js.round (69 + 12 * Js.log2 (f / 440))).
  do 3 eexists. split; [reflexivity | ].
  assert (Ht : 0 < 440 * Js.pow2 ((IZR n - 69) / 12)).
  { pose proof (pow2_pos ((IZR n - 69) / 12)). lra. }
  split; [exact Ht | ].
  unfold hzToNote. rewrite (leb_false_of_lt _ _ Ht). cbv zeta.
  rewrite midi_of_target, round_IZR.
  f_equal. f_equal. ring.
Qed.

(** The theorem at concert pitch, [f = 440]. *)
Lemma hzToNote_idempotent_on_target_witness :
  0 < 440
  /\ exists (name : string) (cents target : R),
       hzToNote 440 = mkNote (Some name) (Some cents) (Some target)
       /\ 0 < target
       /\ hzToNote target = mkNote (Some name) (Some 0) (Some target).
Proof.
  assert (H : 0 < 440) by lra.
  split; [exact H | exact (hzToNote_idempotent_on_target 440 H)].
Defined.

(** Concert pitch maps to A4 with no deviation. *)
Lemma hzToNote_concert_pitch :
  hzToNote 440 = mkNote (Some "A4"%string) (Some 0) (Some 440).
Proof.
  assert (Hmidi : 69 + 12 * Js.log2 (440 / 440) = IZR 69).
  { unfold Js.log2. replace (440 / 440) with 1 by (field; lra).
    rewrite ln_1. unfold Rdiv. ring. }
  assert (Hoct : Js.floor (IZR 69 / 12) = 5%Z).
  { unfold Js.floor. apply Zfloor_eq. lra. }
  assert (Hpow : Js.pow2 ((IZR 69 - 69) / 12) = 1).
  { unfold Js.pow2. replace ((IZR 69 - 69) / 12) with 0 by (field; lra).
    apply Rpower_O. lra. }
  unfold hzToNote. rewrite leb_false_of_lt by lra. cbv zeta.
  rewrite Hmidi, round_IZR, Hoct, Hpow.
  f_equal; f_equal; ring.
Qed.

End NoteMapper.

(* ================================================================== *)
(** ** Rounding to binary64 and to binary32 *)
(* ================================================================== *)

Section Rounding.
Local Open Scope R_scope.

Lemma Rabs_bounds (x M : R) : Rabs x <= M <-> - M <= x <= M.
Proof. unfold Rabs. destruct (Rcase_abs x); lra. Qed.

Lemma pow2Z_pos (k : Z) : 0 < powerRZ 2 k.
Proof. apply powerRZ_lt. lra. Qed.

Lemma pow2Z_add (a b : Z) : powerRZ 2 (a + b) = powerRZ 2 a * powerRZ 2 b.
Proof. apply powerRZ_add. lra. Qed.

Lemma pow2Z_cancel (e : Z) : powerRZ 2 (- e) * powerRZ 2 e = 1.
Proof. rewrite <- pow2Z_add. replace (- e + e)%Z with 0%Z by lia. reflexivity. Qed.

Lemma pow2Z_exp (k : Z) : powerRZ 2 k = exp (IZR k * ln 2).
Proof. rewrite powerRZ_Rpower by lra. reflexivity. Qed.

Lemma pow2Z_le (a b : Z) : (a <= b)%Z -> powerRZ 2 a <= powerRZ 2 b.
Proof.
  intros H. rewrite !pow2Z_exp. pose proof ln_2_pos.
  destruct (Z.eq_dec a b) as [-> | Hne]; [lra | ].
  left. apply exp_increasing. apply Rmult_lt_compat_r; [lra | ].
  apply IZR_lt. lia.
Qed.

Lemma pow2Z_lt_inv (a b : Z) : powerRZ 2 a < powerRZ 2 b -> (a < b)%Z.
Proof.
  intros H. destruct (Z_lt_le_dec a b) as [Hlt | Hge]; [exact Hlt | ].
  pose proof (pow2Z_le b a Hge). lra.
Qed.

Lemma pow2Z_nat (n : Z) : (0 <= n)%Z -> powerRZ 2 n = IZR (2 ^ n).
Proof.
  intros Hn. rewrite <- (Z2Nat.id n Hn) at 1. rewrite <- pow_powerRZ.
  rewrite <- (Z2Nat.id n Hn) at 2. now rewrite <- pow_IZR.
Qed.

(** A number that is not zero lies in its Js.binade. *)
Lemma binade_spec (x : R) :
  x <> 0 -> powerRZ 2 (Js.binade x) <= Rabs x < powerRZ 2 (Js.binade x + 1).
Proof.
  intros Hx. pose proof (Rabs_pos_lt x Hx) as Ha. pose proof ln_2_pos as H2.
  unfold Js.binade, Js.floor, Js.log2. pose proof (Zfloor_bound (ln (Rabs x) / ln 2)) as [Hlo Hhi].
  set (k := Zfloor (ln (Rabs x) / ln 2)) in *.
  assert (Ea : Rabs x = exp (ln (Rabs x) / ln 2 * ln 2)).
  { replace (ln (Rabs x) / ln 2 * ln 2) with (ln (Rabs x)) by (field; lra).
    symmetry. now apply exp_ln. }
  set (l := ln (Rabs x) / ln 2) in *.
  rewrite !pow2Z_exp, plus_IZR, Ea. split.
  - destruct Hlo as [Hlt | Heq]; [ | rewrite Heq; lra].
    left. apply exp_increasing. now apply Rmult_lt_compat_r.
  - apply exp_increasing. apply Rmult_lt_compat_r; lra.
Qed.

Lemma binade_unique (x : R) (k : Z) :
  powerRZ 2 k <= Rabs x < powerRZ 2 (k + 1) -> Js.binade x = k.
Proof.
  intros [Hlo Hhi]. pose proof (pow2Z_pos k) as Hk. pose proof ln_2_pos as H2.
  assert (Ha : 0 < Rabs x) by lra.
  unfold Js.binade, Js.floor, Js.log2. apply Zfloor_eq.
  assert (Hk1 : ln (powerRZ 2 k) = IZR k * ln 2) by (rewrite pow2Z_exp; apply ln_exp).
  assert (Hk2 : ln (powerRZ 2 (k + 1)) = (IZR k + 1) * ln 2)
    by (rewrite pow2Z_exp, plus_IZR; apply ln_exp).
  assert (H1 : IZR k * ln 2 <= ln (Rabs x)).
  { rewrite <- Hk1. destruct Hlo as [Hlt | Heq]; [ | rewrite Heq; lra].
    left. now apply ln_increasing. }
  assert (H3 : ln (Rabs x) < (IZR k + 1) * ln 2).
  { rewrite <- Hk2. now apply ln_increasing. }
  unfold Rdiv. split.
  - apply (Rmult_le_reg_r (ln 2)); [lra | ].
    rewrite Rmult_assoc, Rinv_l by lra. lra.
  - apply (Rmult_lt_reg_r (ln 2)); [lra | ].
    rewrite Rmult_assoc, Rinv_l by lra. lra.
Qed.

Lemma binade_le (x : R) (j : Z) :
  x <> 0 -> Rabs x < powerRZ 2 (j + 1) -> (Js.binade x <= j)%Z.
Proof.
  intros Hx Hj. pose proof (binade_spec x Hx) as [Hlo _].
  assert (H : (Js.binade x < j + 1)%Z) by (apply pow2Z_lt_inv; lra). lia.
Qed.

Lemma binade_zero : Js.binade 0 = 0%Z.
Proof.
  unfold Js.binade, Js.floor, Js.log2. rewrite Rabs_R0.
  assert (E : ln 0 = 0).
  { unfold ln. destruct (Rlt_dec 0 0) as [H | _]; [exfalso; lra | reflexivity]. }
  rewrite E. unfold Rdiv. rewrite Rmult_0_l. apply (ZfloorZ 0).
Qed.

(** *** The nearest integer *)

Lemma round_half_even_cases (y : R) :
  Js.round_half_even y = Zfloor y /\ y - IZR (Zfloor y) <= / 2
  \/ Js.round_half_even y = (Zfloor y + 1)%Z /\ / 2 <= y - IZR (Zfloor y).
Proof.
  unfold Js.round_half_even. cbv zeta.
  destruct (Rlt_dec (y - IZR (Zfloor y)) (/ 2)) as [H | H]; [left; split; [reflexivity | lra] | ].
  destruct (Rlt_dec (/ 2) (y - IZR (Zfloor y))) as [H' | H']; [right; split; [reflexivity | lra] | ].
  destruct (Z.even (Zfloor y)); [left | right]; split; (reflexivity || lra).
Qed.

Lemma round_half_even_error (y : R) : Rabs (IZR (Js.round_half_even y) - y) <= / 2.
Proof.
  pose proof (Zfloor_bound y) as [Hlo Hhi].
  destruct (round_half_even_cases y) as [[-> H] | [-> H]];
    [ | rewrite plus_IZR]; apply Rabs_le; lra.
Qed.

Lemma round_half_even_IZR (n : Z) : Js.round_half_even (IZR n) = n.
Proof.
  unfold Js.round_half_even. cbv zeta. rewrite ZfloorZ.
  destruct (Rlt_dec (IZR n - IZR n) (/ 2)) as [_ | H]; [reflexivity | lra].
Qed.

Lemma round_half_even_near (y : R) (n : Z) :
  IZR n - / 2 < y < IZR n + / 2 -> Js.round_half_even y = n.
Proof.
  intros [Hlo Hhi]. pose proof (Zfloor_bound y) as [Fl Fh].
  destruct (round_half_even_cases y) as [[-> H] | [-> H]].
  - assert (H1 : IZR (Zfloor y) < IZR n + 1) by lra.
    assert (H2 : IZR n - 1 < IZR (Zfloor y)) by lra.
    rewrite <- plus_IZR in H1. rewrite <- minus_IZR in H2.
    apply lt_IZR in H1, H2. lia.
  - assert (H1 : IZR (Zfloor y) < IZR n) by lra.
    assert (H2 : IZR n - 2 < IZR (Zfloor y)) by lra.
    rewrite <- minus_IZR in H2.
    apply lt_IZR in H1, H2. lia.
Qed.

Lemma round_half_even_le (y : R) (n : Z) : y <= IZR n -> (Js.round_half_even y <= n)%Z.
Proof.
  intros Hy. pose proof (Zfloor_bound y) as [Fl Fh].
  destruct (round_half_even_cases y) as [[-> H] | [-> H]].
  - apply le_IZR. lra.
  - assert (H1 : IZR (Zfloor y) < IZR n) by lra. apply lt_IZR in H1. lia.
Qed.

Lemma round_half_even_ge (y : R) (n : Z) : IZR n <= y -> (n <= Js.round_half_even y)%Z.
Proof.
  intros Hy. pose proof (Zfloor_lub n y Hy) as Hf.
  destruct (round_half_even_cases y) as [[-> H] | [-> H]]; lia.
Qed.

(** *** Rounding to a format *)

Lemma round_to_error (prec emin : Z) (x : R) :
  Rabs (Js.round_to prec emin x - x)
  <= / 2 * powerRZ 2 (Z.max (Js.binade x - (prec - 1)) emin).
Proof.
  unfold Js.round_to. cbv zeta. set (e := Z.max (Js.binade x - (prec - 1)) emin).
  pose proof (pow2Z_pos e) as He. pose proof (pow2Z_cancel e) as Hc.
  pose proof (round_half_even_error (x * powerRZ 2 (- e))) as Hr.
  set (n := IZR (Js.round_half_even (x * powerRZ 2 (- e)))) in *.
  replace (n * powerRZ 2 e - x) with ((n - x * powerRZ 2 (- e)) * powerRZ 2 e)
    by (rewrite Rmult_minus_distr_r, Rmult_assoc, Hc; ring).
  rewrite Rabs_mult, (Rabs_pos_eq (powerRZ 2 e)) by lra.
  apply Rmult_le_compat_r; lra.
Qed.

(** A number [m * 2 ^ e] with fewer than [prec] bits in [m] is kept. *)
Lemma round_to_zero (prec emin : Z) : Js.round_to prec emin 0 = 0.
Proof.
  unfold Js.round_to. cbv zeta. rewrite Rmult_0_l.
  rewrite (round_half_even_IZR 0). apply Rmult_0_l.
Qed.

Lemma round_to_exact (prec emin m e : Z) :
  (Z.abs m < 2 ^ prec)%Z -> (0 < prec)%Z -> (emin <= e)%Z ->
  Js.round_to prec emin (IZR m * powerRZ 2 e) = IZR m * powerRZ 2 e.
Proof.
  intros Hm Hp He.
  destruct (Z.eq_dec m 0) as [-> | Hm0].
  { rewrite Rmult_0_l. apply round_to_zero. }
  set (x := IZR m * powerRZ 2 e).
  assert (Hex : (Z.max (Js.binade x - (prec - 1)) emin <= e)%Z).
  { assert (Hx : x <> 0).
    { subst x. apply Rmult_integral_contrapositive_currified;
        [now apply not_0_IZR | pose proof (pow2Z_pos e); lra]. }
    assert (Hb : (Js.binade x <= e + prec - 1)%Z).
    { apply binade_le; [exact Hx | ].
      subst x. rewrite Rabs_mult, (Rabs_pos_eq (powerRZ 2 e))
        by (left; apply pow2Z_pos).
      replace (e + prec - 1 + 1)%Z with (prec + e)%Z by lia.
      rewrite pow2Z_add, (pow2Z_nat prec) by lia.
      apply Rmult_lt_compat_r; [apply pow2Z_pos | ].
      rewrite <- abs_IZR. now apply IZR_lt. }
    lia. }
  unfold Js.round_to. cbv zeta. set (e' := Z.max (Js.binade x - (prec - 1)) emin) in *.
  assert (Hy : x * powerRZ 2 (- e') = IZR (m * 2 ^ (e - e'))).
  { subst x. rewrite mult_IZR, <- pow2Z_nat by lia.
    rewrite Rmult_assoc, <- pow2Z_add.
    replace (e + - e')%Z with (e - e')%Z by lia. reflexivity. }
  rewrite Hy, round_half_even_IZR, <- Hy.
  rewrite Rmult_assoc, pow2Z_cancel. ring.
Qed.

(** Rounding does not leave a power of two that bounds the number. *)
Lemma round_to_bound (prec emin j : Z) (x : R) :
  (0 < prec)%Z -> (emin <= j)%Z ->
  Rabs x <= powerRZ 2 j -> Rabs (Js.round_to prec emin x) <= powerRZ 2 j.
Proof.
  intros Hp He Hx.
  destruct (Req_dec x 0) as [-> | Hx0].
  { rewrite round_to_zero, Rabs_R0. left. apply pow2Z_pos. }
  assert (Hex : (Z.max (Js.binade x - (prec - 1)) emin <= j)%Z).
  { assert (Hb : (Js.binade x <= j)%Z).
      { apply binade_le; [exact Hx0 | ].
        assert (powerRZ 2 j < powerRZ 2 (j + 1)).
        { rewrite pow2Z_add. pose proof (pow2Z_pos j).
          change (powerRZ 2 1) with (2 * 1). lra. }
        lra. }
      lia. }
  unfold Js.round_to. cbv zeta. set (e := Z.max (Js.binade x - (prec - 1)) emin) in *.
  pose proof (pow2Z_pos e) as Hpe. pose proof (pow2Z_pos (- e)) as Hpn.
  pose proof (pow2Z_cancel e) as Hc.
  assert (Hj : powerRZ 2 j = IZR (2 ^ (j - e)) * powerRZ 2 e).
  { rewrite <- pow2Z_nat, <- pow2Z_add by lia. f_equal. lia. }
  assert (Hjy : powerRZ 2 j * powerRZ 2 (- e) = IZR (2 ^ (j - e))).
  { rewrite Hj, Rmult_assoc, (Rmult_comm (powerRZ 2 e)), Hc. ring. }
  assert (Hx' : - powerRZ 2 j <= x <= powerRZ 2 j)
    by (unfold Rabs in Hx; destruct (Rcase_abs x); lra).
  rewrite Rabs_mult, (Rabs_pos_eq (powerRZ 2 e)) by lra.
  rewrite Hj. apply Rmult_le_compat_r; [lra | ].
  rewrite <- abs_IZR. apply IZR_le.
  assert (Hup : x * powerRZ 2 (- e) <= IZR (2 ^ (j - e))).
  { rewrite <- Hjy. apply Rmult_le_compat_r; lra. }
  assert (Hdn : IZR (- 2 ^ (j - e)) <= x * powerRZ 2 (- e)).
  { rewrite opp_IZR, <- Hjy.
    replace (- (powerRZ 2 j * powerRZ 2 (- e))) with (- powerRZ 2 j * powerRZ 2 (- e)) by ring.
    apply Rmult_le_compat_r; lra. }
  apply round_half_even_le in Hup. apply round_half_even_ge in Hdn. lia.
Qed.

(** A number at or above a power of two of the normal range stays there. *)
Lemma round_to_lower (prec emin j : Z) (x : R) :
  (0 < prec)%Z -> (emin <= j)%Z ->
  powerRZ 2 j <= x -> powerRZ 2 j <= Js.round_to prec emin x.
Proof.
  intros Hp He Hx. pose proof (pow2Z_pos j) as Hj.
  assert (Hx0 : x <> 0) by lra.
  pose proof (binade_spec x Hx0) as [Hlo Hhi].
  rewrite Rabs_pos_eq in Hlo, Hhi by lra.
  assert (Hk : (j <= Js.binade x)%Z).
  { assert (H : (j < Js.binade x + 1)%Z) by (apply pow2Z_lt_inv; lra). lia. }
  unfold Js.round_to. cbv zeta.
  set (k := Js.binade x) in *. set (e := Z.max (k - (prec - 1)) emin).
  assert (Hek : (e <= k)%Z) by lia.
  pose proof (pow2Z_pos e) as Hpe. pose proof (pow2Z_pos (- e)) as Hpn.
  assert (Hy : IZR (2 ^ (k - e)) <= x * powerRZ 2 (- e)).
  { rewrite <- pow2Z_nat by lia.
    replace (k - e)%Z with (k + - e)%Z by lia. rewrite pow2Z_add.
    apply Rmult_le_compat_r; lra. }
  apply round_half_even_ge in Hy. apply IZR_le in Hy.
  rewrite <- pow2Z_nat in Hy by lia.
  apply Rle_trans with (powerRZ 2 k); [now apply pow2Z_le | ].
  replace k with ((k - e) + e)%Z at 1 by lia. rewrite pow2Z_add.
  apply Rmult_le_compat_r; lra.
Qed.

(** Below [2 ^ prec] the rounding error is at most one half. *)
Lemma round_to_half (prec emin : Z) (x : R) :
  (0 < prec)%Z -> (emin <= 0)%Z ->
  Rabs x < powerRZ 2 prec -> Rabs (Js.round_to prec emin x - x) <= / 2.
Proof.
  intros Hp He Hx.
  destruct (Req_dec x 0) as [-> | Hx0].
  { rewrite round_to_zero, Rminus_0_r, Rabs_R0. lra. }
  assert (Hk : (Js.binade x <= prec - 1)%Z).
  { apply binade_le; [exact Hx0 | ].
    replace (prec - 1 + 1)%Z with prec by lia. exact Hx. }
  eapply Rle_trans; [apply round_to_error | ].
  assert (H1 : powerRZ 2 (Z.max (Js.binade x - (prec - 1)) emin) <= powerRZ 2 0)
    by (apply pow2Z_le; lia).
  change (powerRZ 2 0) with 1 in H1. lra.
Qed.

(** The rounded value of a number whose Js.binade and nearest scaled integer
    are known. *)
Lemma round_to_eval (prec emin k n : Z) (x : R) :
  powerRZ 2 k <= Rabs x < powerRZ 2 (k + 1) ->
  IZR n - / 2 < x * powerRZ 2 (- Z.max (k - (prec - 1)) emin) < IZR n + / 2 ->
  Js.round_to prec emin x = IZR n * powerRZ 2 (Z.max (k - (prec - 1)) emin).
Proof.
  intros Hk Hn. unfold Js.round_to. cbv zeta.
  rewrite (binade_unique x k Hk). now rewrite (round_half_even_near _ n Hn).
Qed.

Lemma binary64_ratio_22050_22000 :
  Js.binary64 (22050 / 22000) = 4513835081069065 / 4503599627370496.
Proof.
  unfold Js.binary64.
  rewrite (round_to_eval 53 (-1074) 0 4513835081069065).
  - change (Z.max (0 - (53 - 1)) (-1074)) with (-52)%Z.
    replace (powerRZ 2 (-52)) with (/ 4503599627370496); [reflexivity | ].
    change (-52)%Z with (- (52))%Z. rewrite powerRZ_neg' by lra.
    rewrite (pow2Z_nat 52) by lia. reflexivity.
  - change (powerRZ 2 0) with 1. change (powerRZ 2 (0 + 1)) with (2 * 1).
    rewrite Rabs_pos_eq by lra. lra.
  - change (Z.max (0 - (53 - 1)) (-1074)) with (-52)%Z.
    change (- -52)%Z with 52%Z. rewrite (pow2Z_nat 52) by lia.
    change (2 ^ 52)%Z with 4503599627370496%Z. lra.
Qed.

Lemma binary64_product_440 :
  Js.binary64 (440 * (4513835081069065 / 4503599627370496))
  = 7758154045587455 / 17592186044416.
Proof.
  unfold Js.binary64.
  rewrite (round_to_eval 53 (-1074) 8 7758154045587455).
  - change (Z.max (8 - (53 - 1)) (-1074)) with (-44)%Z.
    replace (powerRZ 2 (-44)) with (/ 17592186044416); [reflexivity | ].
    change (-44)%Z with (- (44))%Z. rewrite powerRZ_neg' by lra.
    rewrite (pow2Z_nat 44) by lia. reflexivity.
  - rewrite (pow2Z_nat 8), (pow2Z_nat (8 + 1)) by lia.
    change (2 ^ 8)%Z with 256%Z. change (2 ^ (8 + 1))%Z with 512%Z.
    rewrite Rabs_pos_eq by lra. lra.
  - change (Z.max (8 - (53 - 1)) (-1074)) with (-44)%Z.
    change (- -44)%Z with 44%Z. rewrite (pow2Z_nat 44) by lia.
    change (2 ^ 44)%Z with 17592186044416%Z. lra.
Qed.

Lemma pow2Z_inv (k : Z) : (0 <= k)%Z -> powerRZ 2 (- k) = / IZR (2 ^ k).
Proof.
  intros Hk. rewrite <- pow2Z_nat by exact Hk.
  apply (Rmult_eq_reg_r (powerRZ 2 k)); [ | pose proof (pow2Z_pos k); lra].
  rewrite pow2Z_cancel, Rinv_l; [reflexivity | pose proof (pow2Z_pos k); lra].
Qed.

(** A store into a [Float32Array] keeps [m / 2 ^ k] when [m] has fewer than
    24 bits. *)
Lemma fround_dyadic (m k : Z) :
  (Z.abs m < 16777216)%Z -> (0 <= k <= 149)%Z ->
  Js.fround (IZR m / IZR (2 ^ k)) = IZR m / IZR (2 ^ k).
Proof.
  intros Hm Hk. unfold Rdiv. rewrite <- pow2Z_inv by lia.
  apply round_to_exact; [exact Hm | lia | lia].
Qed.

(** A store into a [Float32Array] keeps a value within [-1, 1] there. *)
Lemma fround_unit (v : R) : Rabs v <= 1 -> Rabs (Js.fround v) <= 1.
Proof.
  intros Hv. change 1 with (powerRZ 2 0).
  apply round_to_bound; [lia | lia | exact Hv].
Qed.

(** The largest 32-bit sample is stored as 1. *)
Lemma fround_largest_int32 : Js.fround (2147483647 / 2147483648) = 1.
Proof.
  unfold Js.fround.
  rewrite (round_to_eval 24 (-149) (-1) 16777216).
  - change (Z.max (-1 - (24 - 1)) (-149)) with (- (24))%Z.
    rewrite pow2Z_inv by lia. change (2 ^ 24)%Z with 16777216%Z.
    field.
  - change (-1)%Z with (- (1))%Z at 1. rewrite pow2Z_inv by lia.
    change (powerRZ 2 (-1 + 1)) with 1. change (2 ^ 1)%Z with 2%Z.
    rewrite Rabs_pos_eq by lra. lra.
  - change (Z.max (-1 - (24 - 1)) (-149)) with (-24)%Z.
    change (- -24)%Z with 24%Z. rewrite (pow2Z_nat 24) by lia.
    change (2 ^ 24)%Z with 16777216%Z. lra.
Qed.

Lemma round_to_nonneg (prec emin : Z) (x : R) :
  0 <= x -> 0 <= Js.round_to prec emin x.
Proof.
  intros Hx. unfold Js.round_to. cbv zeta.
  set (e := Z.max (Js.binade x - (prec - 1)) emin).
  pose proof (pow2Z_pos e) as He. pose proof (pow2Z_pos (- e)) as He'.
  apply Rmult_le_pos; [ | lra].
  apply (IZR_le 0). apply round_half_even_ge.
  apply Rmult_le_pos; lra.
Qed.

(** A rounded number that is not negative is a whole number of units
    [2 ^ e], at most [2 ^ prec] of them. *)
Lemma round_to_repr (prec emin : Z) (x : R) :
  (0 < prec)%Z -> 0 <= x ->
  exists m e : Z,
    (0 <= m <= 2 ^ prec)%Z /\ (emin <= e)%Z
    /\ Js.round_to prec emin x = IZR m * powerRZ 2 e.
Proof.
  intros Hp Hx.
  destruct (Req_dec x 0) as [-> | Hx0].
  { exists 0%Z, emin. rewrite round_to_zero, Rmult_0_l.
    split; [ | split; [lia | reflexivity]].
    split; [lia | apply Z.pow_nonneg; lia]. }
  pose proof (binade_spec x Hx0) as [Hlo Hhi].
  rewrite Rabs_pos_eq in Hlo, Hhi by exact Hx.
  unfold Js.round_to. cbv zeta.
  set (e := Z.max (Js.binade x - (prec - 1)) emin).
  exists (Js.round_half_even (x * powerRZ 2 (- e))), e.
  pose proof (pow2Z_pos (- e)) as He'.
  split; [split | split; [subst e; lia | reflexivity]].
  - apply round_half_even_ge. apply Rmult_le_pos; lra.
  - apply round_half_even_le. rewrite <- pow2Z_nat by lia.
    assert (Hsplit : powerRZ 2 prec
                     = powerRZ 2 (Js.binade x + 1)
                       * powerRZ 2 (prec - 1 - Js.binade x))
      by (rewrite <- pow2Z_add; f_equal; lia).
    rewrite Hsplit.
    pose proof (pow2Z_pos (Js.binade x + 1)) as Hb.
    pose proof (pow2Z_le (- e) (prec - 1 - Js.binade x) ltac:(subst e; lia)) as Hle.
    apply Rmult_le_compat; lra.
Qed.

Lemma round_to_exact_le (prec emin m e : Z) :
  (0 <= m <= 2 ^ prec)%Z -> (0 < prec)%Z -> (emin <= e)%Z ->
  Js.round_to prec emin (IZR m * powerRZ 2 e) = IZR m * powerRZ 2 e.
Proof.
  intros Hm Hp He.
  destruct (Z.eq_dec m (2 ^ prec)) as [-> | Hne].
  - rewrite <- pow2Z_nat, <- pow2Z_add by lia.
    rewrite <- (Rmult_1_l (powerRZ 2 (prec + e))).
    apply (round_to_exact prec emin 1 (prec + e)); [ | lia | lia].
    pose proof (proj1 (Z.pow_gt_1 2 prec ltac:(lia)) Hp). lia.
  - apply round_to_exact; [lia | lia | lia].
Qed.

(** The fractional part of a rounded number is a number of the format:
    [x - Math.floor(x)] is exact. *)
Lemma round_to_fraction (prec emin : Z) (x : R) :
  (0 < prec)%Z -> 0 <= x ->
  let y := Js.round_to prec emin x in
  Js.round_to prec emin (y - IZR (Zfloor y)) = y - IZR (Zfloor y).
Proof.
  intros Hp Hx y.
  destruct (round_to_repr prec emin x Hp Hx) as (m & e & Hm & He & Hy).
  fold y in Hy.
  assert (Hy0 : 0 <= y) by (subst y; now apply round_to_nonneg).
  pose proof (Zfloor_bound y) as [Hfl Hfh].
  pose proof (Zfloor_lub 0 y Hy0) as HL.
  destruct (Z_le_gt_dec 0 e) as [Hpos | Hneg].
  - (* a whole number *)
    assert (Hwhole : y = IZR (m * 2 ^ e)).
    { rewrite Hy, mult_IZR, <- pow2Z_nat by lia. reflexivity. }
    rewrite Hwhole, ZfloorZ, Rminus_diag. apply round_to_zero.
  - pose proof (pow2Z_pos e) as Pe.
    assert (Hunit : IZR (2 ^ (- e)) * powerRZ 2 e = 1).
    { rewrite <- pow2Z_nat by lia. apply pow2Z_cancel. }
    assert (Hfrac : y - IZR (Zfloor y)
                    = IZR (m - Zfloor y * 2 ^ (- e)) * powerRZ 2 e).
    { rewrite minus_IZR, mult_IZR, Rmult_minus_distr_r, Rmult_assoc, Hunit, Hy.
      ring. }
    rewrite Hfrac. apply round_to_exact_le; [ | lia | lia].
    assert (Hunits : (0 <= Zfloor y * 2 ^ (- e))%Z)
      by (apply Z.mul_nonneg_nonneg; [lia | apply Z.pow_nonneg; lia]).
    split; [ | lia].
    apply le_IZR. apply (Rmult_le_reg_r (powerRZ 2 e)); [exact Pe | ].
    rewrite <- Hfrac. lra.
Qed.

(** A number that stays half an output sample below [n], on the scale of
    the ratio [r], is not rounded up to [n]. *)
Lemma binary64_below (n : Z) (r x : R) :
  (1 <= n < 9007199254740992)%Z -> 0 < r <= 9007199254740992 ->
  IZR n * r < 4503599627370496 ->
  0 <= x -> x * r <= IZR n * r - / 2 ->
  Js.binary64 x < IZR n.
Proof.
  intros Hn Hr Hout Hx Hgap.
  assert (Hn1 : 1 <= IZR n) by (apply IZR_le; lia).
  assert (Hn53 : IZR n < 9007199254740992) by (apply IZR_lt; lia).
  destruct (Req_dec x 0) as [-> | Hx0].
  { unfold Js.binary64. rewrite round_to_zero. lra. }
  assert (Hxn : x < IZR n) by nra.
  pose proof (binade_spec x Hx0) as [Hlo Hhi].
  rewrite Rabs_pos_eq in Hlo, Hhi by exact Hx.
  assert (Hb : (Js.binade x <= 52)%Z).
  { apply binade_le; [exact Hx0 | ]. rewrite Rabs_pos_eq by exact Hx.
    rewrite (pow2Z_nat (52 + 1)) by lia.
    change (2 ^ (52 + 1))%Z with 9007199254740992%Z. lra. }
  unfold Js.binary64, Js.round_to. cbv zeta.
  set (e := Z.max (Js.binade x - (53 - 1)) (-1074)).
  assert (He : (e <= 0)%Z) by (subst e; lia).
  pose proof (pow2Z_pos e) as Pe. pose proof (pow2Z_pos (- e)) as Pe'.
  pose proof (pow2Z_cancel e) as Hc.
  (* one unit of the result is less than one output sample *)
  assert (Hunit : r * powerRZ 2 e < 1).
  { destruct (Z.max_spec (Js.binade x - (53 - 1)) (-1074)) as [[_ E] | [_ E]];
      fold e in E; rewrite E.
    - pose proof (pow2Z_le (-1074) (-54) ltac:(lia)) as Hs.
      assert (H54 : powerRZ 2 (-54) * 18014398509481984 = 1).
      { rewrite <- (pow2Z_cancel 54). rewrite (pow2Z_nat 54) by lia.
        reflexivity. }
      pose proof (pow2Z_pos (-1074)). pose proof (pow2Z_pos (-54)). nra.
    - replace (Js.binade x - (53 - 1))%Z with (Js.binade x + - (52))%Z by lia.
      rewrite pow2Z_add.
      assert (H52 : powerRZ 2 (- (52)) * 4503599627370496 = 1).
      { rewrite <- (pow2Z_cancel 52). rewrite (pow2Z_nat 52) by lia.
        reflexivity. }
      pose proof (pow2Z_pos (- (52))) as P52.
      pose proof (pow2Z_pos (Js.binade x)) as Pb.
      assert (Hrx : r * powerRZ 2 (Js.binade x) < 4503599627370496) by nra.
      nra. }
  set (N := (n * 2 ^ (- e))%Z).
  assert (HN : IZR N = IZR n * powerRZ 2 (- e)).
  { subst N. rewrite mult_IZR, <- pow2Z_nat by lia. reflexivity. }
  pose proof (round_half_even_error (x * powerRZ 2 (- e))) as Herr.
  apply Rabs_bounds in Herr.
  set (q := Js.round_half_even (x * powerRZ 2 (- e))) in *.
  assert (Hscale : r < powerRZ 2 (- e)) by nra.
  assert (Hq : (q < N)%Z).
  { apply lt_IZR. rewrite HN.
    assert (Hdiff : / 2 < (IZR n - x) * powerRZ 2 (- e)) by nra.
    nra. }
  assert (Hq1 : IZR q <= IZR N - 1).
  { rewrite <- minus_IZR. apply IZR_le. lia. }
  rewrite HN in Hq1.
  assert (Hres : IZR q * powerRZ 2 e <= (IZR n * powerRZ 2 (- e) - 1) * powerRZ 2 e)
    by (apply Rmult_le_compat_r; lra).
  rewrite Rmult_minus_distr_r, Rmult_assoc, Hc in Hres. lra.
Qed.

(** Below [2 ^ 53] a double-precision result is within one half of the
    exact one. *)
Lemma binary64_half (x : R) :
  Rabs x < 9007199254740992 -> Rabs (Js.binary64 x - x) <= / 2.
Proof.
  intros Hx. apply round_to_half; [lia | lia | ].
  rewrite (pow2Z_nat 53) by lia. exact Hx.
Qed.

(** A double-precision result of the normal range is at or above the
    power of two below the exact one. *)
Lemma binary64_lower (j : Z) (x : R) :
  (-1074 <= j)%Z -> powerRZ 2 j <= x -> powerRZ 2 j <= Js.binary64 x.
Proof. intros Hj Hx. apply round_to_lower; [lia | exact Hj | exact Hx]. Qed.

End Rounding.

(* ================================================================== *)
(** ** Properties of src/audio.js: the resampler *)
(* ================================================================== *)

Section Ranges.

Lemma range_length (lo hi : Z) :
  List.length (Js.range lo hi) = Z.to_nat (hi - lo + 1).
Proof. unfold Js.range. now rewrite length_map, length_seq. Qed.

Lemma range_In (lo hi i : Z) : In i (Js.range lo hi) <-> lo <= i <= hi.
Proof.
  unfold Js.range. rewrite in_map_iff. split.
  - intros [k [<- Hk]]. apply in_seq in Hk. lia.
  - intros Hi. exists (Z.to_nat (i - lo)). split; [lia | ].
    apply in_seq. lia.
Qed.

Lemma range_nth (lo hi : Z) (k : nat) (d : Z) :
  (k < Z.to_nat (hi - lo + 1))%nat ->
  nth k (Js.range lo hi) d = lo + Z.of_nat k.
Proof.
  intros Hk. unfold Js.range.
  rewrite (nth_indep _ d (lo + Z.of_nat 0)) by now rewrite length_map, length_seq.
  rewrite (map_nth (fun k => lo + Z.of_nat k)), seq_nth by exact Hk.
  reflexivity.
Qed.

Lemma fold_left_cons {A B} (f : A -> B -> A) (x : B) (l : list B) (a : A) :
  fold_left f (x :: l) a = fold_left f l (f a x).
Proof. reflexivity. Qed.

Lemma Forall_firstn {A} (P : A -> Prop) (n : nat) (l : list A) :
  Forall P l -> Forall P (firstn n l).
Proof.
  intros H. revert n. induction H as [| x l Hx _ IH]; intros [| n]; simpl;
    constructor; auto.
Qed.

Lemma Forall_skipn {A} (P : A -> Prop) (n : nat) (l : list A) :
  Forall P l -> Forall P (skipn n l).
Proof.
  intros H. revert n. induction H as [| x l Hx Hl IH]; intros [| n]; simpl;
    auto.
Qed.

Lemma range_empty (lo hi : Z) : hi < lo -> Js.range lo hi = [].
Proof.
  intros H. unfold Js.range. replace (Z.to_nat (hi - lo + 1)) with 0%nat by lia.
  reflexivity.
Qed.

Lemma range_cons (lo hi : Z) :
  lo <= hi -> Js.range lo hi = lo :: Js.range (lo + 1) hi.
Proof.
  intros H. unfold Js.range.
  replace (Z.to_nat (hi - lo + 1)) with (S (Z.to_nat (hi - (lo + 1) + 1))) by lia.
  simpl. f_equal; [lia | ].
  rewrite <- seq_shift, map_map. apply map_ext. intros k. lia.
Qed.

(** Reading entry [i] of an array built by [map] over a counting loop. *)
Lemma num_at_map_range (f : Z -> R) (n i : Z) :
  0 <= i < n -> Js.num_at (map f (Js.range 0 (n - 1))) i = f i.
Proof.
  intros Hi. unfold Js.num_at.
  destruct (Z.ltb_spec i 0) as [Hneg | _]; [lia | ].
  rewrite (nth_indep _ 0%R (f 0)) by (rewrite length_map, range_length; lia).
  rewrite map_nth, range_nth by lia. f_equal. lia.
Qed.

End Ranges.

Section Resampler.
Import Audio.
Local Open Scope R_scope.

Lemma eqb_refl (x : R) : Js.eqb x x = true.
Proof. unfold Js.eqb. destruct (Req_dec_T x x); [reflexivity | contradiction]. Qed.

Lemma eqb_false_of_neq (x y : R) : x <> y -> Js.eqb x y = false.
Proof.
  intros H. unfold Js.eqb. destruct (Req_dec_T x y); [contradiction | reflexivity].
Qed.



End Resampler.

Section ResamplerRounding.
Import Audio.
Local Open Scope R_scope.

Lemma binary64_maybeResample_unfold (samples : list R) (S T : R) :
  samples <> [] -> T <> S ->
  Binary64.maybeResample samples S T
  = mkPcm (map (Binary64.resample_at samples (Js.binary64 (T / S)))
               (Js.range 0 (Binary64.outLength_of (List.length samples)
                                                  (Js.binary64 (T / S)) - 1)))
          T.
Proof.
  intros Hne Hrate. unfold Binary64.maybeResample.
  destruct samples as [| x xs]; [congruence | ].
  rewrite eqb_false_of_neq by congruence. reflexivity.
Qed.

(** The rounded ratio of two rates between 1 and [2 ^ 53] is a positive
    number, at most [2 ^ 53]. *)
Lemma binary64_ratio_range (S T : R) :
  1 <= S <= 9007199254740992 -> 1 <= T <= 9007199254740992 ->
  0 < Js.binary64 (T / S) <= 9007199254740992.
Proof.
  intros HS HT.
  assert (Hinv : / 9007199254740992 <= / S <= 1).
  { split.
    - apply Rinv_le_contravar; lra.
    - rewrite <- Rinv_1. apply Rinv_le_contravar; lra. }
  assert (Hq : / 9007199254740992 <= T / S <= 9007199254740992)
    by (unfold Rdiv; nra).
  split.
  - pose proof (pow2Z_pos (-53)) as Hp.
    assert (E : powerRZ 2 (-53) = / 9007199254740992).
    { change (-53)%Z with (- (53))%Z. rewrite pow2Z_inv by lia. reflexivity. }
    pose proof (binary64_lower (-53) (T / S) ltac:(lia) ltac:(lra)). lra.
  - assert (E : powerRZ 2 53 = 9007199254740992)
      by (rewrite pow2Z_nat by lia; reflexivity).
    pose proof (round_to_bound 53 (-1074) 53 (T / S) ltac:(lia) ltac:(lia)) as Hb.
    rewrite E in Hb. fold Js.binary64 in Hb.
    assert (Ha : Rabs (T / S) <= 9007199254740992) by (apply Rabs_bounds; lra).
    apply Hb, Rabs_bounds in Ha. lra.
Qed.

(** Both source indices read by [Binary64.resample_at] are inside the
    input, for fewer than [2 ^ 52] samples in and out. *)
Lemma binary64_resample_indices (len : nat) (ratio : R) (i : Z) :
  (0 < len)%nat -> (Z.of_nat len < 4503599627370496)%Z ->
  0 < ratio <= 9007199254740992 ->
  INR len * ratio < 4503599627370496 ->
  (0 <= i < Binary64.outLength_of len ratio)%Z ->
  let left := Js.floor (Js.binary64 (IZR i / ratio)) in
  let right := Z.min (Z.of_nat len - 1) (left + 1) in
  (0 <= left <= Z.of_nat len - 1)%Z /\ (0 <= right <= Z.of_nat len - 1)%Z.
Proof.
  intros Hlen Hin Hratio Hout Hi left right.
  assert (Hinv : 0 < / ratio) by (apply Rinv_0_lt_compat; lra).
  assert (Hpos : 0 <= IZR i / ratio).
  { apply Rmult_le_pos; [apply IZR_le; lia | lra]. }
  assert (Hlo : (0 <= left)%Z).
  { subst left. unfold Js.floor. apply Zfloor_lub.
    now apply round_to_nonneg. }
  assert (Hhi : (left <= Z.of_nat len - 1)%Z).
  { subst left. unfold Js.floor, Binary64.outLength_of, Js.floor in *.
    rewrite INR_IZR_INZ in *.
    destruct (Z.max_spec 1 (Zfloor (Js.binary64 (IZR (Z.of_nat len) * ratio))))
      as [[Hc Hm] | [Hc Hm]]; rewrite Hm in Hi.
    - (* at least one whole output sample fits *)
      pose proof (Zfloor_bound (Js.binary64 (IZR (Z.of_nat len) * ratio)))
        as [Hfl _].
      assert (Hlen0 : 0 <= IZR (Z.of_nat len)) by (apply IZR_le; lia).
      assert (Hprod : 0 <= IZR (Z.of_nat len) * ratio)
        by (apply Rmult_le_pos; lra).
      pose proof (binary64_half (IZR (Z.of_nat len) * ratio)) as Hhalf.
      rewrite Rabs_pos_eq in Hhalf by exact Hprod.
      specialize (Hhalf ltac:(lra)). apply Rabs_bounds in Hhalf.
      assert (Hi1 : IZR i + 1 <= IZR (Zfloor (Js.binary64 (IZR (Z.of_nat len) * ratio)))).
      { rewrite <- plus_IZR. apply IZR_le. lia. }
      assert (Hxr : IZR i / ratio * ratio = IZR i) by (field; lra).
      pose proof (binary64_below (Z.of_nat len) ratio (IZR i / ratio)
                    ltac:(lia) Hratio Hout Hpos ltac:(lra)) as Hbelow.
      pose proof (Zfloor_bound (Js.binary64 (IZR i / ratio))) as [Hb _].
      assert (Hz : IZR (Zfloor (Js.binary64 (IZR i / ratio)))
                   < IZR (Z.of_nat len)) by lra.
      apply lt_IZR in Hz. lia.
    - (* the length was raised to 1: only [i = 0] *)
      assert (i = 0%Z) by lia. subst i.
      replace (0 / ratio) with 0 by (unfold Rdiv; ring).
      unfold Js.binary64. rewrite round_to_zero, (ZfloorZ 0). lia. }
  split; [lia | subst right; lia].
Qed.

(** 440 samples at 22000 Hz come out as 440 samples at 22050 Hz: the
    product of the length and the rounded ratio is rounded to the double
    below 441, where the exact product [440 * 22050 / 22000] is 441. *)
Lemma maybeResample_length_rounded :
  Z.of_nat (List.length (samples (Binary64.maybeResample (repeat 0 440) 22000 22050)))
  = 440%Z
  /\ Js.floor (INR 440 * (22050 / 22000)) = 441%Z.
Proof.
  split.
  - rewrite binary64_maybeResample_unfold
      by (try lra; change 440%nat with (S 439); discriminate).
    cbn [samples]. rewrite length_map, range_length, repeat_length.
    unfold Binary64.outLength_of. rewrite INR_IZR_INZ.
    change (Z.of_nat 440) with 440%Z.
    rewrite binary64_ratio_22050_22000, binary64_product_440.
    assert (Hfl : Js.floor (7758154045587455 / 17592186044416) = 440%Z).
    { unfold Js.floor. apply Zfloor_eq. lra. }
    rewrite Hfl. reflexivity.
  - rewrite INR_IZR_INZ. change (Z.of_nat 440) with 440%Z.
    replace (440 * (22050 / 22000)) with (IZR 441) by lra.
    unfold Js.floor. apply ZfloorZ.
Qed.

End ResamplerRounding.

Section ResamplerClaims.
Import Audio.
Local Open Scope R_scope.

(** C4, the claim as written, fails: one sample at 44100 Hz resampled to
    22050 Hz gives a buffer of length 1, where
    [floor(inputLength * R / S)] is 0. *)
Lemma maybeResample_length_not_floor :
  Z.of_nat (List.length (samples (Binary64.maybeResample [1] 44100 22050)))
  <> Js.floor (INR (List.length [1]) * (22050 / 44100)).
Proof.
  assert (Hfl : Js.floor (INR (List.length [1]) * (22050 / 44100)) = 0%Z).
  { unfold Js.floor. apply Zfloor_eq. simpl. lra. }
  rewrite Hfl.
  rewrite binary64_maybeResample_unfold by (try discriminate; lra).
  cbn [samples]. rewrite length_map, range_length.
  unfold Binary64.outLength_of.
  pose proof (Z.le_max_l 1 (Js.floor (Js.binary64
                (INR (List.length [1]) * Js.binary64 (22050 / 44100))))).
  lia.
Qed.

(** C4, amended.  The resampler in floating-point arithmetic, for a
    non-empty buffer, a source rate [S] and a target rate [T] between 1 Hz
    and [2 ^ 53] Hz.  With [T] other than [S], the rounded ratio
    [fl(T / S)] is positive and [maybeResample] returns at rate [T] a
    buffer of length [max(1, floor(fl(inputLength * fl(T / S))))], which is
    not always [max(1, floor(inputLength * T / S))]
    ([maybeResample_length_rounded]).  With fewer than [2 ^ 52] samples in
    and out, each in the range of single precision (as the elements of a
    [Float32Array] are, so that no blend overflows), output sample [i] is
    the blend of the source samples at [left = floor(fl(i / fl(T / S)))]
    and at [min(inputLength - 1, left + 1)], both inside the input,
    weighted by the fractional part of [fl(i / fl(T / S))], which is exact;
    the blend is computed in double precision and stored in single
    precision.  With equal rates the input passes through unchanged. *)
Theorem maybeResample_linear_interpolation (xs : list R) (S T : R) :
  xs <> [] ->
  1 <= S <= 9007199254740992 -> 1 <= T <= 9007199254740992 ->
  (T <> S ->
   let out := Binary64.maybeResample xs S T in
   let len := Z.of_nat (List.length xs) in
   let ratio := Js.binary64 (T / S) in
   0 < ratio
   /\ sampleRate out = T
   /\ Z.of_nat (List.length (samples out))
      = Z.max 1 (Js.floor (Js.binary64 (INR (List.length xs) * ratio)))
   /\ ((len < 4503599627370496)%Z ->
       INR (List.length xs) * ratio < 4503599627370496 ->
       Forall (fun x => Rabs x <= 340282346638528859811704183484516925440) xs ->
       forall i : Z,
         (0 <= i < Z.of_nat (List.length (samples out)))%Z ->
         let pos := Js.binary64 (IZR i / ratio) in
         let left := Js.floor pos in
         let right := Z.min (len - 1) (left + 1) in
         let frac := pos - IZR left in
         (0 <= left <= len - 1)%Z /\ (0 <= right <= len - 1)%Z
         /\ 0 <= frac < 1 /\ Js.binary64 frac = frac
         /\ Js.num_at (samples out) i
            = Js.fround
                (Js.binary64
                   (Js.binary64 (Js.num_at xs left * Js.binary64 (1 - frac))
                    + Js.binary64 (Js.num_at xs right * frac)))))
  /\ Binary64.maybeResample xs S S = mkPcm xs S.
Proof.
  intros Hne HS HT. split.
  - intros Hrate out len ratio. subst out.
    pose proof (binary64_ratio_range S T HS HT) as Hratio. fold ratio in Hratio.
    rewrite binary64_maybeResample_unfold by assumption.
    fold ratio. cbn [samples sampleRate].
    assert (Hlen : Z.of_nat (List.length
               (map (Binary64.resample_at xs ratio)
                    (Js.range 0 (Binary64.outLength_of (List.length xs) ratio - 1))))
                   = Binary64.outLength_of (List.length xs) ratio).
    { rewrite length_map, range_length. unfold Binary64.outLength_of. lia. }
    split; [lra | split; [reflexivity | split; [exact Hlen | ]]].
    rewrite Hlen. intros Hin Hout _ i Hi. cbv zeta.
    assert (Hx : (0 < List.length xs)%nat)
      by (destruct xs; [congruence | simpl; lia]).
    pose proof (binary64_resample_indices (List.length xs) ratio i
                  Hx Hin Hratio Hout Hi) as Hb.
    cbv zeta in Hb. destruct Hb as [Hl Hr].
    assert (Hpos : 0 <= IZR i / ratio).
    { apply Rmult_le_pos; [apply IZR_le; lia | ].
      left. apply Rinv_0_lt_compat. lra. }
    assert (Hexact :
              Js.binary64 (Js.binary64 (IZR i / ratio)
                           - IZR (Js.floor (Js.binary64 (IZR i / ratio))))
              = Js.binary64 (IZR i / ratio)
                - IZR (Js.floor (Js.binary64 (IZR i / ratio))))
      by exact (round_to_fraction 53 (-1074) (IZR i / ratio) ltac:(lia) Hpos).
    split; [exact Hl | split; [exact Hr | split; [ | split; [exact Hexact | ]]]].
    + unfold Js.floor. pose proof (Zfloor_bound (Js.binary64 (IZR i / ratio))). lra.
    + rewrite num_at_map_range by exact Hi.
      unfold Binary64.resample_at. cbv zeta. rewrite Hexact. reflexivity.
  - unfold Binary64.maybeResample. rewrite eqb_refl, orb_true_r. reflexivity.
Qed.

(** The theorem on three samples taken from 3 Hz to 6 Hz. *)
Lemma maybeResample_linear_interpolation_witness :
  (0 < Js.binary64 (6 / 3)
   /\ sampleRate (Binary64.maybeResample [0; 1; 0] 3 6) = 6
   /\ Z.of_nat (List.length (samples (Binary64.maybeResample [0; 1; 0] 3 6)))
      = Z.max 1 (Js.floor (Js.binary64 (INR 3 * Js.binary64 (6 / 3))))
   /\ forall i : Z,
       (0 <= i < Z.of_nat (List.length
                            (samples (Binary64.maybeResample [0; 1; 0]%R 3%R 6%R))))%Z ->
       (0 <= Js.floor (Js.binary64 (IZR i / Js.binary64 (6 / 3))%R) <= 3 - 1)%Z)
  /\ Binary64.maybeResample [0; 1; 0] 3 3 = mkPcm [0; 1; 0] 3.
Proof.
  assert (Hne : [0; 1; 0] <> @nil R) by discriminate.
  assert (HS : 1 <= 3 <= 9007199254740992) by lra.
  assert (HT : 1 <= 6 <= 9007199254740992) by lra.
  assert (Hrate : 6 <> 3) by lra.
  assert (Hratio : Js.binary64 (6 / 3) = 2).
  { replace (6 / 3) with (IZR 1 * powerRZ 2 1) by (simpl; lra).
    unfold Js.binary64. rewrite round_to_exact by (simpl; lia). simpl. lra. }
  destruct (maybeResample_linear_interpolation [0; 1; 0] 3 6 Hne HS HT)
    as [Hblend _].
  destruct (maybeResample_linear_interpolation [0; 1; 0] 3 3 Hne HS HS)
    as [_ Hsame].
  split; [ | exact Hsame].
  destruct (Hblend Hrate) as (Hpos & Hr & Hl & Hsamples).
  split; [exact Hpos | split; [exact Hr | split; [exact Hl | ]]].
  intros i Hi.
  assert (Hin : (Z.of_nat (List.length [0; 1; 0]) < 4503599627370496)%Z)
    by (simpl; lia).
  assert (Hout : INR (List.length [0; 1; 0]) * Js.binary64 (6 / 3)
                 < 4503599627370496)
    by (rewrite Hratio; simpl; lra).
  assert (Hrange : Forall (fun x => Rabs x <= 340282346638528859811704183484516925440)
                          [0; 1; 0]).
  { repeat (apply Forall_cons; [apply Rabs_bounds; lra | ]). apply Forall_nil. }
  exact (proj1 (Hsamples Hin Hout Hrange i Hi)).
Defined.



End ResamplerClaims.

(* ================================================================== *)
(** ** Properties of src/music.js: the pitch estimator *)
(* ================================================================== *)

Section PitchEstimator.
Import Music.
Local Open Scope R_scope.

(** *** Silence *)

Lemma peak_of_silent (xs : list R) : Spec.silent xs -> peak xs = 0.
Proof.
  unfold peak. induction 1 as [| x xs Hx _ IH]; simpl; [reflexivity | ].
  subst x. rewrite Rabs_R0, ltb_false_of_le by lra. exact IH.
Qed.

Lemma normalize_silent (xs : list R) : Spec.silent xs -> normalize xs = xs.
Proof.
  intros H. unfold normalize. rewrite (peak_of_silent xs H).
  rewrite leb_true_of_le by lra. reflexivity.
Qed.

Lemma sum_squares_silent (xs : list R) :
  Spec.silent xs -> fold_left (fun sum x => sum + x * x) xs 0 = 0.
Proof.
  induction 1 as [| x xs Hx _ IH]; simpl; [reflexivity | ].
  subst x. replace (0 + 0 * 0) with 0 by ring. exact IH.
Qed.

Lemma rms_silent (xs : list R) : Spec.silent xs -> rms xs = 0.
Proof.
  intros H. unfold rms. destruct xs as [| x xs]; [reflexivity | ].
  rewrite (sum_squares_silent _ H). unfold Rdiv. rewrite Rmult_0_l.
  apply sqrt_0.
Qed.

(** C2, amended.  A zero-amplitude signal is left as it is by the peak
    normalisation, has root-mean-square energy 0, and [detectPitch]
    returns [null] on it; more generally [detectPitch] returns [null]
    whenever the root-mean-square energy of the peak-normalised signal is
    below 0.01. *)
Theorem detectPitch_rejects_silence (xs : list R) (sampleRate : R) :
  (Spec.silent xs -> normalize xs = xs /\ rms (normalize xs) = 0)
  /\ (Spec.silent xs \/ rms (normalize xs) < 1 / 100 ->
      detectPitch xs sampleRate = None).
Proof.
  assert (Hs : Spec.silent xs -> normalize xs = xs /\ rms (normalize xs) = 0).
  { intros H. rewrite (normalize_silent xs H). split; [reflexivity | ].
    now apply rms_silent. }
  split; [exact Hs | ].
  intros H.
  assert (Hrms : rms (normalize xs) < 1 / 100).
  { destruct H as [H | H]; [ | exact H]. destruct (Hs H) as [_ ->]. lra. }
  unfold detectPitch.
  destruct (Nat.eqb (List.length xs) 0 || Js.leb sampleRate 0); [reflexivity | ].
  rewrite (ltb_true_of_lt _ _ Hrms). reflexivity.
Qed.

(** The theorem on four zero samples at the analysis rate. *)
Lemma detectPitch_rejects_silence_witness :
  detectPitch [0; 0; 0; 0] 22050 = None.
Proof.
  apply (detectPitch_rejects_silence [0; 0; 0; 0] 22050).
  left. repeat constructor.
Defined.

(** *** A faint signal is not rejected *)

Lemma peak_of_constant (e : R) (n : nat) :
  0 < e -> peak (repeat e (S n)) = e.
Proof.
  intros He. unfold peak. simpl. rewrite (Rabs_pos_eq e) by lra.
  rewrite ltb_true_of_lt by exact He.
  induction n as [| n IH]; simpl; [reflexivity | ].
  rewrite (Rabs_pos_eq e) by lra. rewrite ltb_false_of_le by lra. exact IH.
Qed.

Lemma normalize_constant (e : R) (n : nat) :
  0 < e -> normalize (repeat e (S n)) = repeat 1 (S n).
Proof.
  intros He. unfold normalize. rewrite (peak_of_constant e n He).
  rewrite leb_false_of_lt by exact He.
  rewrite map_repeat. f_equal. field. lra.
Qed.

Lemma sum_squares_ones (n : nat) (a : R) :
  fold_left (fun sum x => sum + x * x) (repeat 1 n) a = a + INR n.
Proof.
  revert a. induction n as [| n IH]; intros a.
  - simpl. ring.
  - cbn [repeat fold_left]. rewrite IH, S_INR. ring.
Qed.

Lemma rms_ones (n : nat) : rms (repeat 1 (S n)) = 1.
Proof.
  change (repeat 1 (S n)) with (1 :: repeat 1 n). unfold rms.
  cbn [fold_left List.length]. rewrite sum_squares_ones, repeat_length, S_INR.
  pose proof (pos_INR n) as Hn.
  replace ((0 + 1 * 1 + INR n) / (INR n + 1)) with 1 by (field; lra).
  apply sqrt_1.
Qed.

(** A lag as long as the signal has an empty overlap and is skipped. *)
Lemma lag_step_beyond (y : list R) (best : Z * R) (lag : Z) :
  (Z.of_nat (List.length y) <= lag)%Z -> lag_step y best lag = best.
Proof.
  intros H. unfold lag_step, lag_sums.
  rewrite range_empty by lia. cbn [fold_left].
  rewrite Rmult_0_l, sqrt_0, eqb_refl. reflexivity.
Qed.

Lemma lag_loop_beyond (y : list R) (lags : list Z) (best : Z * R) :
  (forall lag, In lag lags -> (Z.of_nat (List.length y) <= lag)%Z) ->
  fold_left (lag_step y) lags best = best.
Proof.
  revert best. induction lags as [| lag lags IH]; intros best H; [reflexivity | ].
  cbn [fold_left]. rewrite lag_step_beyond by (apply H; now left).
  apply IH. intros l Hl. apply H. now right.
Qed.

(** [detectPitch] past its two rejections. *)
Lemma detectPitch_search (xs : list R) (sampleRate : R) :
  xs <> [] -> 0 < sampleRate -> 1 / 100 <= rms (normalize xs) ->
  detectPitch xs sampleRate
  = let best :=
      fold_left (lag_step (normalize xs))
                (Js.range (Js.floor (sampleRate / maxFreq))
                          (Js.floor (sampleRate / minFreq)))
                ((-1)%Z, 0) in
    if (fst best <=? 0)%Z || Js.ltb (snd best) (35 / 100) then None
    else Some (sampleRate / IZR (fst best)).
Proof.
  intros Hne Hrate Hrms. unfold detectPitch.
  destruct xs as [| x xs]; [congruence | ].
  rewrite leb_false_of_lt by exact Hrate.
  rewrite ltb_false_of_le by exact Hrms.
  cbv zeta.
  destruct (fold_left _ _ _) as [bestLag bestCorr]. reflexivity.
Qed.

Lemma lag_sums_ones_last :
  lag_sums (repeat 1 11) 10 = (1, 1, 1).
Proof.
  unfold lag_sums. rewrite repeat_length.
  rewrite range_cons by lia. rewrite range_empty by lia.
  cbn [fold_left].
  assert (H0 : Js.num_at (repeat 1 11) 0 = 1) by reflexivity.
  assert (H10 : Js.num_at (repeat 1 11) (0 + 10) = 1) by reflexivity.
  rewrite H0, H10. f_equal; [f_equal | ]; ring.
Qed.

Lemma lag_step_ones_last :
  lag_step (repeat 1 11) ((-1)%Z, 0) 10 = (10%Z, 1).
Proof.
  unfold lag_step. rewrite lag_sums_ones_last.
  replace (1 * 1) with 1 by ring.
  rewrite sqrt_1, eqb_false_of_neq by lra.
  cbn [snd]. replace (1 / 1) with 1 by field.
  rewrite ltb_true_of_lt by lra. reflexivity.
Qed.

(** Eleven equal positive samples at 22050 Hz, whatever their amplitude:
    after normalisation the signal is at full scale, the lag 10 scores 1,
    and [detectPitch] returns 2205 Hz. *)
Lemma detectPitch_faint_constant (e : R) :
  0 < e -> detectPitch (repeat e 11) 22050 = Some (22050 / 10).
Proof.
  intros He.
  assert (Hnorm : normalize (repeat e 11) = repeat 1 11)
    by exact (normalize_constant e 10 He).
  assert (Hrms : rms (repeat 1 11) = 1) by exact (rms_ones 10).
  rewrite detectPitch_search; [ | discriminate | lra | rewrite Hnorm, Hrms; lra].
  rewrite Hnorm.
  assert (Hmin : Js.floor (22050 / maxFreq) = 10%Z).
  { unfold Js.floor, maxFreq. apply Zfloor_eq. lra. }
  assert (Hmax : Js.floor (22050 / minFreq) = 337%Z).
  { unfold Js.floor, minFreq. apply Zfloor_eq. lra. }
  rewrite Hmin, Hmax. rewrite range_cons by lia.
  rewrite fold_left_cons, lag_step_ones_last.
  rewrite (lag_loop_beyond (repeat 1 11) (Js.range (10 + 1) 337) (10%Z, 1)).
  - cbv zeta. cbn [fst snd].
    assert (Hle : (10 <=? 0)%Z = false) by reflexivity.
    rewrite Hle, ltb_false_of_le by lra. reflexivity.
  - intros lag Hlag. apply range_In in Hlag. rewrite repeat_length. lia.
Qed.

(** C2, the claim as written, fails: a non-silent signal of amplitude one
    millionth is not rejected; [detectPitch] returns a pitch. *)
Lemma detectPitch_faint_signal_has_pitch :
  ~ Spec.silent (repeat (1 / 1000000) 11)
  /\ detectPitch (repeat (1 / 1000000) 11) 22050 <> None.
Proof.
  split.
  - intros H. inversion H as [| x xs Hx _]. lra.
  - rewrite detectPitch_faint_constant by lra. discriminate.
Qed.

End PitchEstimator.

(* ================================================================== *)
(** ** Properties of src/music.js: chroma and key *)
(* ================================================================== *)

Section ZeroChroma.
Import Music.
Local Open Scope R_scope.

(** *** Signals whose chroma vector is all-zero *)

Lemma estimateChroma_short (xs : list R) (sampleRate : R) :
  (List.length xs < 1024)%nat -> estimateChroma xs sampleRate = Spec.zero_chroma.
Proof.
  intros H. unfold estimateChroma.
  destruct (Z.ltb_spec (Z.min 4096 (Z.of_nat (List.length xs))) 1024) as [_ | Hge];
    [reflexivity | lia].
Qed.

Lemma resonator_silent (frame : list R) (coeff : R) :
  Spec.silent frame ->
  fold_left (fun '(sPrev, sPrev2) x => (x + coeff * sPrev - sPrev2, sPrev))
            frame (0, 0) = (0, 0).
Proof.
  induction 1 as [| x xs Hx _ IH]; [reflexivity | ].
  rewrite fold_left_cons. subst x.
  replace (0 + coeff * 0 - 0) with 0 by ring. exact IH.
Qed.

Lemma pitchClassEnergy_silent (frame : list R) (sampleRate freq : R) :
  Spec.silent frame -> pitchClassEnergy frame sampleRate freq = 0.
Proof.
  intros H. unfold pitchClassEnergy.
  rewrite (resonator_silent frame _ H). ring.
Qed.

Lemma octave_acc_silent (frame : list R) (sampleRate : R) (pitchClass : Z) :
  Spec.silent frame -> octave_acc frame sampleRate pitchClass = 0.
Proof.
  intros H. unfold octave_acc.
  generalize (Js.range 2 6). intros octaves.
  induction octaves as [| o os IH]; [reflexivity | ].
  rewrite fold_left_cons.
  rewrite (pitchClassEnergy_silent frame _ _ H).
  replace (0 + 0) with 0 by ring.
  destruct (_ || _); exact IH.
Qed.

Lemma add_frame_silent (sampleRate : R) (chroma frame : list R) :
  Spec.silent frame -> add_frame sampleRate chroma frame = chroma.
Proof.
  intros H. unfold add_frame, Js.mapi. generalize 0%Z.
  induction chroma as [| c cs IH]; intros k; [reflexivity | ].
  cbn [Js.mapi_from]. rewrite (octave_acc_silent frame _ _ H), IH.
  f_equal. ring.
Qed.

Lemma subarray_silent (xs : list R) (a b : Z) :
  Spec.silent xs -> Spec.silent (Js.subarray xs a b).
Proof.
  intros H. unfold Spec.silent, Js.subarray.
  apply Forall_firstn, Forall_skipn. exact H.
Qed.

Lemma hypot_zero_chroma : Js.hypot Spec.zero_chroma = 0.
Proof.
  unfold Js.hypot, Spec.zero_chroma.
  rewrite (sum_squares_silent (repeat 0 12)).
  - apply sqrt_0.
  - apply Forall_forall. intros x Hx. exact (repeat_spec _ _ _ Hx).
Qed.

Lemma estimateChroma_silent (xs : list R) (sampleRate : R) :
  Spec.silent xs -> estimateChroma xs sampleRate = Spec.zero_chroma.
Proof.
  intros H. unfold estimateChroma.
  destruct (_ <? 1024)%Z; [reflexivity | ].
  set (frameSize := Z.min 4096 (Z.of_nat (List.length xs))).
  assert (Hloop : forall starts,
             fold_left
               (fun chroma start =>
                  add_frame sampleRate chroma
                            (Js.subarray xs start (start + frameSize)))
               starts Spec.zero_chroma = Spec.zero_chroma).
  { induction starts as [| st starts IH]; [reflexivity | ].
    rewrite fold_left_cons, add_frame_silent by now apply subarray_silent.
    exact IH. }
  fold Spec.zero_chroma. cbv zeta. rewrite Hloop, hypot_zero_chroma.
  rewrite ltb_false_of_le by lra. reflexivity.
Qed.

Lemma durationLimited_silent (xs : list R) (sampleRate : R) :
  Spec.silent xs -> Spec.silent (durationLimited xs sampleRate).
Proof. intros H. unfold durationLimited. now apply subarray_silent. Qed.

Lemma durationLimited_length (xs : list R) (sampleRate : R) :
  (List.length (durationLimited xs sampleRate) <= List.length xs)%nat.
Proof.
  unfold durationLimited, Js.subarray. rewrite length_firstn, length_skipn. lia.
Qed.

End ZeroChroma.

Section KeyDetector.
Import Music.
Local Open Scope R_scope.

Lemma num_at_zero_chroma (j : Z) : Js.num_at Spec.zero_chroma j = 0.
Proof.
  unfold Js.num_at, Spec.zero_chroma.
  destruct (j <? 0)%Z; [reflexivity | apply nth_repeat].
Qed.

(** Against the all-zero chroma vector every candidate scores 0. *)
Lemma key_score_zero_chroma (i : Z) (template : list R) :
  key_score Spec.zero_chroma i template = 0.
Proof.
  assert (Hsum : forall (g : Z -> R) (js : list Z),
             fold_left (fun score j => score + Js.num_at Spec.zero_chroma j * g j)
                       js 0 = 0).
  { intros g js. induction js as [| j js IH]; [reflexivity | ].
    rewrite fold_left_cons, num_at_zero_chroma.
    replace (0 + 0 * g j) with 0 by ring. exact IH. }
  unfold key_score. apply Hsum.
Qed.

(** Once the best score is 0, no later candidate replaces it. *)
Lemma key_step_zero_keeps (i : Z) (k : option string) (ts : list R * string) :
  key_step Spec.zero_chroma i (Score 0, k) ts = (Score 0, k).
Proof.
  destruct ts as [template suffix]. unfold key_step.
  rewrite key_score_zero_chroma. cbn [fst score_gt].
  rewrite ltb_false_of_le by lra. reflexivity.
Qed.

Lemma key_loop_zero_keeps (k : option string) (roots : list Z) :
  fold_left (fun best i => fold_left (key_step Spec.zero_chroma i) templates best)
            roots (Score 0, k)
  = (Score 0, k).
Proof.
  assert (Hinner : forall i,
             fold_left (key_step Spec.zero_chroma i) templates (Score 0, k)
             = (Score 0, k)).
  { intros i. unfold templates.
    rewrite !fold_left_cons, !key_step_zero_keeps. reflexivity. }
  induction roots as [| i roots IH]; [reflexivity | ].
  rewrite fold_left_cons, Hinner. exact IH.
Qed.

(** The first candidate, root C with the major template, is taken from
    [-Infinity] and kept to the end. *)
Lemma key_search_zero_chroma :
  key_search Spec.zero_chroma = (Score 0, Some "C Major"%string).
Proof.
  unfold key_search.
  assert (Hr : Js.range 0 (Z.of_nat (List.length NOTE_NAMES) - 1)
               = 0%Z :: Js.range 1 11) by reflexivity.
  rewrite Hr, fold_left_cons.
  assert (Ht : templates = [(MAJOR_TEMPLATE, "Major"%string);
                            (MINOR_TEMPLATE, "Minor"%string)]) by reflexivity.
  rewrite Ht at 1. rewrite !fold_left_cons.
  assert (Hfirst : key_step Spec.zero_chroma 0 (NegInfinity, None)
                            (MAJOR_TEMPLATE, "Major"%string)
                   = (Score 0, Some "C Major"%string)).
  { unfold key_step. rewrite key_score_zero_chroma. reflexivity. }
  rewrite Hfirst, key_step_zero_keeps.
  change (fold_left (key_step Spec.zero_chroma 0) []
                    (Score 0, Some "C Major"%string))
    with (Score 0, Some "C Major"%string).
  apply key_loop_zero_keeps.
Qed.

Lemma clamp01_zero : clamp01 (Score 0) = 0.
Proof.
  unfold clamp01. rewrite Rmin_right by lra. apply Rmax_left. lra.
Qed.

(** C1. For every non-empty signal at a positive sample rate whose chroma
    vector is all-zero, and so for every silent signal and every signal
    shorter than 1024 samples, [detectKey] returns a key name that is not
    absent, the first candidate in iteration order, [C Major], with
    confidence exactly 0. *)
Theorem detectKey_zero_chroma (xs : list R) (sampleRate : R) :
  xs <> [] -> 0 < sampleRate ->
  (estimateChroma (durationLimited xs sampleRate) sampleRate = Spec.zero_chroma
   \/ Spec.silent xs
   \/ (List.length xs < 1024)%nat) ->
  detectKey xs sampleRate = mkKey (Some "C Major"%string) 0.
Proof.
  intros Hne Hrate H.
  assert (Hchroma : estimateChroma (durationLimited xs sampleRate) sampleRate
                    = Spec.zero_chroma).
  { destruct H as [H | [H | H]].
    - exact H.
    - apply estimateChroma_silent, durationLimited_silent, H.
    - apply estimateChroma_short.
      pose proof (durationLimited_length xs sampleRate). lia. }
  unfold detectKey.
  destruct xs as [| x xs]; [congruence | ].
  rewrite leb_false_of_lt by exact Hrate.
  cbv zeta. rewrite Hchroma, key_search_zero_chroma, clamp01_zero.
  reflexivity.
Qed.

(** The theorem on two seconds of silence cut to four samples, and on a
    three-sample click, at the analysis rate. *)
Lemma detectKey_zero_chroma_witness :
  detectKey [0; 0; 0; 0] 22050 = mkKey (Some "C Major"%string) 0
  /\ detectKey [1; -1; / 2] 22050 = mkKey (Some "C Major"%string) 0.
Proof.
  split.
  - apply (detectKey_zero_chroma [0; 0; 0; 0] 22050).
    + discriminate.
    + lra.
    + right. left. repeat constructor.
  - apply (detectKey_zero_chroma [1; -1; / 2] 22050).
    + discriminate.
    + lra.
    + right. right. simpl. lia.
Defined.

End KeyDetector.

(* ================================================================== *)
(** ** Properties of src/audio.js: the WAV decoder *)
(* ================================================================== *)

Section DataViewReads.
Import Audio.

Lemma byteLength_app (a b : buffer) :
  byteLength (a ++ b) = byteLength a + byteLength b.
Proof. unfold byteLength. rewrite length_app. lia. Qed.

Lemma byteLength_nonneg (a : buffer) : 0 <= byteLength a.
Proof. unfold byteLength. lia. Qed.

Lemma byte_at_range (view : buffer) (off : Z) : 0 <= byte_at view off <= 255.
Proof.
  unfold byte_at. pose proof (Byte.to_N_bounded (nth (Z.to_nat off) view Byte.x00)).
  lia.
Qed.

Lemma le_uint16_range (view : buffer) (off : Z) :
  0 <= le_uint16 view off < 65536.
Proof.
  unfold le_uint16.
  pose proof (byte_at_range view off). pose proof (byte_at_range view (off + 1)).
  lia.
Qed.

Lemma le_uint32_range (view : buffer) (off : Z) :
  0 <= le_uint32 view off < 4294967296.
Proof.
  unfold le_uint32.
  pose proof (byte_at_range view off). pose proof (byte_at_range view (off + 1)).
  pose proof (byte_at_range view (off + 2)).
  pose proof (byte_at_range view (off + 3)). lia.
Qed.

(** A byte behind a prefix. *)
Lemma byte_at_app_r (pre l : buffer) (k : Z) :
  0 <= k -> byte_at (pre ++ l) (byteLength pre + k) = byte_at l k.
Proof.
  intros Hk. unfold byte_at, byteLength.
  rewrite app_nth2 by lia. do 3 f_equal. lia.
Qed.

(** A byte inside a prefix. *)
Lemma byte_at_app_l (pre l : buffer) (k : Z) :
  0 <= k < byteLength pre -> byte_at (pre ++ l) k = byte_at pre k.
Proof.
  intros Hk. unfold byte_at, byteLength in *.
  rewrite app_nth1 by lia. reflexivity.
Qed.

Lemma in_bounds_true (view : buffer) (off n : Z) :
  0 <= off -> off + n <= byteLength view -> in_bounds view off n = true.
Proof.
  intros H1 H2. unfold in_bounds.
  apply andb_true_intro. split; apply Z.leb_le; assumption.
Qed.

Lemma in_bounds_false (view : buffer) (off n : Z) :
  byteLength view < off + n -> in_bounds view off n = false.
Proof.
  intros H. unfold in_bounds. apply andb_false_intro2. apply Z.leb_gt. exact H.
Qed.

Lemma ascii_of_byte_value (b : Byte.byte) :
  ascii_of_N (Z.to_N (Z.of_N (Byte.to_N b))) = ascii_of_byte b.
Proof. rewrite N2Z.id. destruct b; reflexivity. Qed.

Lemma nth_after_skipn {A} (n k : nat) (l : list A) (d : A) :
  nth k (skipn n l) d = nth (n + k) l d.
Proof.
  revert l. induction n as [| n IH]; intros l; [reflexivity | ].
  destruct l as [| x l]; [now destruct k | apply IH].
Qed.

Lemma byte_at_skipn (view : buffer) (off k : Z) :
  0 <= off -> 0 <= k ->
  byte_at view (off + k) = byte_at (skipn (Z.to_nat off) view) k.
Proof.
  intros H0 Hk. unfold byte_at. rewrite nth_after_skipn.
  do 3 f_equal. lia.
Qed.

Lemma four_at_bytes (view : buffer) (off : Z) :
  0 <= off -> off + 4 <= byteLength view ->
  exists b0 b1 b2 b3,
    Spec.four_at view off = [b0; b1; b2; b3]
    /\ byte_at view off = Z.of_N (Byte.to_N b0)
    /\ byte_at view (off + 1) = Z.of_N (Byte.to_N b1)
    /\ byte_at view (off + 2) = Z.of_N (Byte.to_N b2)
    /\ byte_at view (off + 3) = Z.of_N (Byte.to_N b3).
Proof.
  intros H0 H4.
  pose proof (byte_at_skipn view off 0 H0 ltac:(lia)) as E0.
  rewrite Z.add_0_r in E0.
  rewrite E0, !byte_at_skipn by lia.
  unfold Spec.four_at, byteLength in *.
  assert (Hrest : (4 <= List.length (skipn (Z.to_nat off) view))%nat)
    by (rewrite length_skipn; lia).
  destruct (skipn (Z.to_nat off) view) as [| b0 [| b1 [| b2 [| b3 rest]]]];
    simpl in Hrest; try lia.
  exists b0, b1, b2, b3. repeat split; reflexivity.
Qed.

(** In bounds, the tag read at [off] is the text of the four bytes there. *)
Lemma tag_at_in_bounds (view : buffer) (off : Z) :
  0 <= off -> off + 4 <= byteLength view ->
  tag_at view off = Return (string_of_list_byte (Spec.four_at view off)).
Proof.
  intros H0 H4.
  destruct (four_at_bytes view off H0 H4) as (b0 & b1 & b2 & b3 & Hl & E0 & E1 & E2 & E3).
  unfold tag_at, getUint8.
  rewrite !in_bounds_true by lia. cbn [bind].
  rewrite Hl, E0, E1, E2, E3. unfold fromCharCode. cbn [map].
  rewrite !ascii_of_byte_value. reflexivity.
Qed.

Lemma tag_at_out_of_bounds (view : buffer) (off : Z) :
  0 <= off -> byteLength view < off + 4 -> tag_at view off = Throw RangeError.
Proof.
  intros H0 H. unfold tag_at, getUint8.
  destruct (in_bounds view off 1) eqn:B0; cbn [bind]; [ | reflexivity].
  destruct (in_bounds view (off + 1) 1) eqn:B1; cbn [bind]; [ | reflexivity].
  destruct (in_bounds view (off + 2) 1) eqn:B2; cbn [bind]; [ | reflexivity].
  rewrite in_bounds_false by lia. reflexivity.
Qed.

(** The tag read is a given four-letter word exactly when the bytes are
    those of the word. *)
Lemma tag_at_is (view : buffer) (off : Z) (word : string) :
  0 <= off -> off + 4 <= byteLength view ->
  (tag_at view off = Return word <-> Spec.four_at view off = Spec.tag word).
Proof.
  intros H0 H4. rewrite (tag_at_in_bounds view off H0 H4). unfold Spec.tag.
  split.
  - intros H. injection H as <-. now rewrite list_byte_of_string_of_list_byte.
  - intros ->. now rewrite string_of_list_byte_of_string.
Qed.

End DataViewReads.

Section ChunkWalk.
Import Audio.

Lemma getUint32_in_bounds (view : buffer) (off : Z) :
  0 <= off -> off + 4 <= byteLength view ->
  getUint32 view off = Return (le_uint32 view off).
Proof. intros. unfold getUint32. now rewrite in_bounds_true. Qed.

Lemma getUint16_in_bounds (view : buffer) (off : Z) :
  0 <= off -> off + 2 <= byteLength view ->
  getUint16 view off = Return (le_uint16 view off).
Proof. intros. unfold getUint16. now rewrite in_bounds_true. Qed.

Lemma getUint16_cases (view : buffer) (off : Z) :
  getUint16 view off = Return (le_uint16 view off)
  \/ getUint16 view off = Throw RangeError.
Proof. unfold getUint16. destruct (in_bounds view off 2); auto. Qed.

Lemma getUint32_cases (view : buffer) (off : Z) :
  getUint32 view off = Return (le_uint32 view off)
  \/ getUint32 view off = Throw RangeError.
Proof. unfold getUint32. destruct (in_bounds view off 4); auto. Qed.

(** Reading the format fields returns or throws; it does not loop. *)
Lemma read_format_cases (view : buffer) (offset : Z) :
  (exists fmt, read_format view offset = Return fmt)
  \/ read_format view offset = Throw RangeError.
Proof.
  unfold read_format.
  destruct (getUint16_cases view (offset + 8)) as [-> | ->]; cbn [bind]; auto.
  destruct (getUint16_cases view (offset + 10)) as [-> | ->]; cbn [bind]; auto.
  destruct (getUint32_cases view (offset + 12)) as [-> | ->]; cbn [bind]; auto.
  destruct (getUint16_cases view (offset + 22)) as [-> | ->]; cbn [bind]; auto.
  left. eauto.
Qed.

Lemma next_chunk_advances (view : buffer) (offset : Z) :
  offset + 8 <= next_chunk offset (le_uint32 view (offset + 4)).
Proof.
  unfold next_chunk. pose proof (le_uint32_range view (offset + 4)) as Hs.
  pose proof (Z.rem_nonneg (le_uint32 view (offset + 4)) 2 ltac:(lia) ltac:(lia)).
  lia.
Qed.

(** One turn of the loop, for a chunk header inside the buffer. *)
Lemma chunk_walk_turn (fuel : nat) (view : buffer) (offset : Z) (fmt : WavFormat) :
  0 <= offset -> offset + 8 <= byteLength view ->
  chunk_walk (S fuel) view offset fmt =
    let chunkId := string_of_list_byte (Spec.four_at view offset) in
    let chunkSize := le_uint32 view (offset + 4) in
    if String.eqb chunkId "fmt " then
      fmt' <- read_format view offset ;;
      chunk_walk fuel view (next_chunk offset chunkSize) fmt'
    else if String.eqb chunkId "data" then Return (fmt, offset + 8, chunkSize)
    else chunk_walk fuel view (next_chunk offset chunkSize) fmt.
Proof.
  intros H0 H8. cbn [chunk_walk].
  destruct (Z.leb_spec (offset + 8) (byteLength view)) as [_ | Hlt]; [ | lia].
  rewrite tag_at_in_bounds by lia. rewrite getUint32_in_bounds by lia.
  reflexivity.
Qed.

Lemma chunk_walk_end (fuel : nat) (view : buffer) (offset : Z) (fmt : WavFormat) :
  byteLength view < offset + 8 ->
  chunk_walk (S fuel) view offset fmt = Return (fmt, -1, 0).
Proof.
  intros H. cbn [chunk_walk].
  destruct (Z.leb_spec (offset + 8) (byteLength view)) as [Hle | _]; [lia | ].
  reflexivity.
Qed.

Lemma enough_fuel_next (fuel : nat) (view : buffer) (offset : Z) :
  offset + 8 <= byteLength view ->
  Spec.enough_fuel (S fuel) view offset ->
  Spec.enough_fuel fuel view (next_chunk offset (le_uint32 view (offset + 4))).
Proof.
  intros H8 [Hf _]. pose proof (next_chunk_advances view offset).
  unfold Spec.enough_fuel. lia.
Qed.

(** With enough fuel the loop does not run out of it, and more fuel does
    not change its result. *)
Lemma chunk_walk_fuel (f1 f2 : nat) (view : buffer) (offset : Z) (fmt : WavFormat) :
  0 <= offset ->
  Spec.enough_fuel f1 view offset -> Spec.enough_fuel f2 view offset ->
  chunk_walk f1 view offset fmt = chunk_walk f2 view offset fmt
  /\ chunk_walk f1 view offset fmt <> Diverge.
Proof.
  revert f2 offset fmt.
  induction f1 as [| f1 IH]; intros f2 offset fmt H0 E1 E2;
    [destruct E1; lia | ].
  destruct f2 as [| f2]; [destruct E2; lia | ].
  destruct (Z_le_gt_dec (offset + 8) (byteLength view)) as [H8 | H8].
  - rewrite !chunk_walk_turn by assumption. cbv zeta.
    pose proof (next_chunk_advances view offset) as Hadv.
    pose proof (enough_fuel_next f1 view offset H8 E1) as E1'.
    pose proof (enough_fuel_next f2 view offset H8 E2) as E2'.
    destruct (String.eqb _ "fmt ").
    + destruct (read_format_cases view offset) as [[fmt' ->] | ->]; cbn [bind].
      * apply IH; [lia | assumption | assumption].
      * split; [reflexivity | discriminate].
    + destruct (String.eqb _ "data").
      * split; [reflexivity | discriminate].
      * apply IH; [lia | assumption | assumption].
  - rewrite !chunk_walk_end by lia. split; [reflexivity | discriminate].
Qed.

Lemma enough_fuel_decodeWav (view : buffer) :
  Spec.enough_fuel (S (List.length view)) view 12.
Proof. unfold Spec.enough_fuel, byteLength. lia. Qed.

(** The chunk loop of [decodeWav] ends. *)
Lemma chunk_walk_total (view : buffer) :
  chunk_walk (S (List.length view)) view 12 default_format <> Diverge.
Proof.
  apply (chunk_walk_fuel _ (S (List.length view)));
    [lia | apply enough_fuel_decodeWav | apply enough_fuel_decodeWav].
Qed.

(** The loop hands back [dataOffset = -1] only when it ends by its
    condition; a data chunk gives an offset inside the buffer. *)
Lemma chunk_walk_data_offset (fuel : nat) (view : buffer) (offset : Z)
      (fmt fmt' : WavFormat) (dataOffset dataSize : Z) :
  0 <= offset ->
  chunk_walk fuel view offset fmt = Return (fmt', dataOffset, dataSize) ->
  (dataOffset = -1 /\ dataSize = 0)
  \/ (offset + 8 <= dataOffset <= byteLength view
      /\ Spec.four_at view (dataOffset - 8) = Spec.tag "data"
      /\ dataSize = le_uint32 view (dataOffset - 4)).
Proof.
  revert offset fmt.
  induction fuel as [| fuel IH]; intros offset fmt H0 Hw; [discriminate | ].
  destruct (Z_le_gt_dec (offset + 8) (byteLength view)) as [H8 | H8].
  - rewrite chunk_walk_turn in Hw by assumption. cbv zeta in Hw.
    pose proof (next_chunk_advances view offset) as Hadv.
    destruct (String.eqb (string_of_list_byte (Spec.four_at view offset)) "fmt ").
    + destruct (read_format_cases view offset) as [[f Hf] | Hf];
        rewrite Hf in Hw; cbn [bind] in Hw; [ | discriminate].
      apply IH in Hw; [ | lia]. intuition lia.
    + destruct (String.eqb_spec
                  (string_of_list_byte (Spec.four_at view offset)) "data")
        as [Hid | _].
      * injection Hw as <- <- <-. right.
        replace (offset + 8 - 8) with offset by lia.
        replace (offset + 8 - 4) with (offset + 4) by lia.
        split; [lia | split; [ | reflexivity]].
        unfold Spec.tag. rewrite <- Hid.
        now rewrite list_byte_of_string_of_list_byte.
      * apply IH in Hw; [ | lia]. intuition lia.
  - rewrite chunk_walk_end in Hw by lia. injection Hw as <- <- <-. now left.
Qed.

(** The format fields are read at fixed places, up to 24 bytes after the
    start of the chunk, whatever size the chunk declares. *)
Lemma read_format_truncated (view : buffer) (offset : Z) :
  byteLength view < offset + 24 -> read_format view offset = Throw RangeError.
Proof.
  intros H. unfold read_format.
  destruct (getUint16_cases view (offset + 8)) as [-> | ->]; cbn [bind]; auto.
  destruct (getUint16_cases view (offset + 10)) as [-> | ->]; cbn [bind]; auto.
  destruct (getUint32_cases view (offset + 12)) as [-> | ->]; cbn [bind]; auto.
  unfold getUint16. now rewrite in_bounds_false by lia.
Qed.

(** The loop throws nothing but the [RangeError] of a read. *)
Lemma chunk_walk_throws (fuel : nat) (view : buffer) (offset : Z)
      (fmt : WavFormat) (e : exception) :
  0 <= offset -> chunk_walk fuel view offset fmt = Throw e -> e = RangeError.
Proof.
  revert offset fmt.
  induction fuel as [| fuel IH]; intros offset fmt H0 Hw; [discriminate | ].
  destruct (Z_le_gt_dec (offset + 8) (byteLength view)) as [H8 | H8].
  - rewrite chunk_walk_turn in Hw by assumption. cbv zeta in Hw.
    pose proof (next_chunk_advances view offset) as Hadv.
    destruct (String.eqb (string_of_list_byte (Spec.four_at view offset)) "fmt ").
    + destruct (read_format_cases view offset) as [[f Hf] | Hf];
        rewrite Hf in Hw; cbn [bind] in Hw; [ | congruence].
      apply IH in Hw; [exact Hw | lia].
    + destruct (String.eqb (string_of_list_byte (Spec.four_at view offset)) "data");
        [discriminate | ].
      apply IH in Hw; [exact Hw | lia].
  - rewrite chunk_walk_end in Hw by lia. discriminate.
Qed.

(** The three ways in which the chunk loop of [decodeWav] ends. *)
Lemma chunk_walk_outcomes (view : buffer) :
  chunk_walk (S (List.length view)) view 12 default_format = Throw RangeError
  \/ (exists fmt,
         chunk_walk (S (List.length view)) view 12 default_format
         = Return (fmt, -1, 0))
  \/ (exists fmt dataOffset dataSize,
         chunk_walk (S (List.length view)) view 12 default_format
         = Return (fmt, dataOffset, dataSize)
         /\ 20 <= dataOffset <= byteLength view
         /\ Spec.four_at view (dataOffset - 8) = Spec.tag "data"
         /\ dataSize = le_uint32 view (dataOffset - 4)).
Proof.
  destruct (chunk_walk (S (List.length view)) view 12 default_format)
    as [[[fmt dataOffset] dataSize] | e | ] eqn:Hw.
  - right.
    destruct (chunk_walk_data_offset (S (List.length view)) view 12
                default_format fmt dataOffset dataSize ltac:(lia) Hw)
      as [[-> ->] | (Hoff & Htag & Hsize)].
    + left. now exists fmt.
    + right. exists fmt, dataOffset, dataSize.
      split; [reflexivity | split; [lia | split; assumption]].
  - left. apply chunk_walk_throws in Hw; [now subst e | lia].
  - exfalso. now apply (chunk_walk_total view).
Qed.

End ChunkWalk.

Section Header.
Import Audio.

Lemma decodeWav_short (view : buffer) :
  byteLength view < 12 -> decodeWav view = Throw RangeError.
Proof.
  intros H. unfold decodeWav.
  destruct (Z_le_gt_dec 4 (byteLength view)) as [H4 | H4].
  - rewrite (tag_at_in_bounds view 0) by lia. cbn [bind].
    rewrite (tag_at_out_of_bounds view 8) by lia. reflexivity.
  - rewrite (tag_at_out_of_bounds view 0) by lia. reflexivity.
Qed.

Lemma decodeWav_bad_header (view : buffer) :
  12 <= byteLength view ->
  Spec.four_at view 0 <> Spec.tag "RIFF" \/ Spec.four_at view 8 <> Spec.tag "WAVE" ->
  decodeWav view = Throw (Error "Invalid WAV header").
Proof.
  intros H12 Hbad. unfold decodeWav.
  rewrite (tag_at_in_bounds view 0), (tag_at_in_bounds view 8) by lia.
  cbn [bind].
  destruct (String.eqb_spec (string_of_list_byte (Spec.four_at view 0)) "RIFF")
    as [Hr | Hr]; [ | reflexivity].
  destruct (String.eqb_spec (string_of_list_byte (Spec.four_at view 8)) "WAVE")
    as [Hw | Hw]; [ | reflexivity].
  exfalso. unfold Spec.tag in Hbad. rewrite <- Hr, <- Hw in Hbad.
  rewrite !list_byte_of_string_of_list_byte in Hbad. tauto.
Qed.

Lemma decodeWav_good_header (view : buffer) :
  12 <= byteLength view ->
  Spec.four_at view 0 = Spec.tag "RIFF" -> Spec.four_at view 8 = Spec.tag "WAVE" ->
  decodeWav view
  = (walked <- chunk_walk (S (List.length view)) view 12 default_format ;;
     decode_data view walked).
Proof.
  intros H12 Hr Hw. unfold decodeWav.
  rewrite (proj2 (tag_at_is view 0 "RIFF" ltac:(lia) ltac:(lia)) Hr).
  rewrite (proj2 (tag_at_is view 8 "WAVE" ltac:(lia) ltac:(lia)) Hw).
  reflexivity.
Qed.

Lemma header_length (riffSize : Z) : byteLength (Spec.header riffSize) = 12.
Proof. reflexivity. Qed.

(** A buffer that starts with a well-formed header passes the header test,
    whatever its size field holds. *)
Lemma decodeWav_header (riffSize : Z) (body : buffer) :
  decodeWav (Spec.header riffSize ++ body)
  = (walked <- chunk_walk (S (List.length (Spec.header riffSize ++ body)))
                          (Spec.header riffSize ++ body) 12 default_format ;;
     decode_data (Spec.header riffSize ++ body) walked).
Proof.
  apply decodeWav_good_header.
  - rewrite byteLength_app, header_length. pose proof (byteLength_nonneg body). lia.
  - reflexivity.
  - reflexivity.
Qed.

End Header.

Section Alignment.
Import Audio.

Lemma aligned_suffix (pre1 pre2 rest : buffer) :
  Spec.aligned (pre1 ++ rest) (byteLength pre1) (pre2 ++ rest) (byteLength pre2).
Proof.
  unfold Spec.aligned. rewrite !byteLength_app.
  pose proof (byteLength_nonneg pre1). pose proof (byteLength_nonneg pre2).
  repeat split; try lia.
  intros k Hk. now rewrite !byte_at_app_r.
Qed.

Lemma aligned_shift (v1 v2 : buffer) (o1 o2 d : Z) :
  Spec.aligned v1 o1 v2 o2 -> 0 <= d -> Spec.aligned v1 (o1 + d) v2 (o2 + d).
Proof.
  intros (H1 & H2 & Hlen & Hk) Hd. unfold Spec.aligned.
  repeat split; try lia.
  intros k Hk0. rewrite <- !Z.add_assoc. apply Hk. lia.
Qed.

Lemma aligned_byte (v1 v2 : buffer) (o1 o2 : Z) :
  Spec.aligned v1 o1 v2 o2 -> byte_at v1 o1 = byte_at v2 o2.
Proof.
  intros (_ & _ & _ & Hk). specialize (Hk 0 ltac:(lia)).
  now rewrite !Z.add_0_r in Hk.
Qed.

Lemma aligned_bounds (v1 v2 : buffer) (o1 o2 n : Z) :
  Spec.aligned v1 o1 v2 o2 -> in_bounds v1 o1 n = in_bounds v2 o2 n.
Proof.
  intros (H1 & H2 & Hlen & _). unfold in_bounds.
  destruct (Z.leb_spec 0 o1), (Z.leb_spec 0 o2),
           (Z.leb_spec (o1 + n) (byteLength v1)),
           (Z.leb_spec (o2 + n) (byteLength v2)); (reflexivity || lia).
Qed.

Lemma aligned_getUint8 (v1 v2 : buffer) (o1 o2 : Z) :
  Spec.aligned v1 o1 v2 o2 -> getUint8 v1 o1 = getUint8 v2 o2.
Proof.
  intros H. unfold getUint8.
  now rewrite (aligned_bounds _ _ _ _ 1 H), (aligned_byte _ _ _ _ H).
Qed.

Lemma aligned_le_uint16 (v1 v2 : buffer) (o1 o2 : Z) :
  Spec.aligned v1 o1 v2 o2 -> le_uint16 v1 o1 = le_uint16 v2 o2.
Proof.
  intros H. unfold le_uint16.
  rewrite (aligned_byte _ _ _ _ H).
  now rewrite (aligned_byte _ _ _ _ (aligned_shift _ _ _ _ 1 H ltac:(lia))).
Qed.

Lemma aligned_le_uint32 (v1 v2 : buffer) (o1 o2 : Z) :
  Spec.aligned v1 o1 v2 o2 -> le_uint32 v1 o1 = le_uint32 v2 o2.
Proof.
  intros H. unfold le_uint32.
  rewrite (aligned_byte _ _ _ _ H).
  rewrite (aligned_byte _ _ _ _ (aligned_shift _ _ _ _ 1 H ltac:(lia))).
  rewrite (aligned_byte _ _ _ _ (aligned_shift _ _ _ _ 2 H ltac:(lia))).
  now rewrite (aligned_byte _ _ _ _ (aligned_shift _ _ _ _ 3 H ltac:(lia))).
Qed.

Lemma aligned_getUint16 (v1 v2 : buffer) (o1 o2 : Z) :
  Spec.aligned v1 o1 v2 o2 -> getUint16 v1 o1 = getUint16 v2 o2.
Proof.
  intros H. unfold getUint16.
  now rewrite (aligned_bounds _ _ _ _ 2 H), (aligned_le_uint16 _ _ _ _ H).
Qed.

Lemma aligned_getUint32 (v1 v2 : buffer) (o1 o2 : Z) :
  Spec.aligned v1 o1 v2 o2 -> getUint32 v1 o1 = getUint32 v2 o2.
Proof.
  intros H. unfold getUint32.
  now rewrite (aligned_bounds _ _ _ _ 4 H), (aligned_le_uint32 _ _ _ _ H).
Qed.

Lemma aligned_tag_at (v1 v2 : buffer) (o1 o2 : Z) :
  Spec.aligned v1 o1 v2 o2 -> tag_at v1 o1 = tag_at v2 o2.
Proof.
  intros H. unfold tag_at.
  rewrite (aligned_getUint8 _ _ _ _ H).
  rewrite (aligned_getUint8 _ _ _ _ (aligned_shift _ _ _ _ 1 H ltac:(lia))).
  rewrite (aligned_getUint8 _ _ _ _ (aligned_shift _ _ _ _ 2 H ltac:(lia))).
  now rewrite (aligned_getUint8 _ _ _ _ (aligned_shift _ _ _ _ 3 H ltac:(lia))).
Qed.

Lemma aligned_read_format (v1 v2 : buffer) (o1 o2 : Z) :
  Spec.aligned v1 o1 v2 o2 -> read_format v1 o1 = read_format v2 o2.
Proof.
  intros H. unfold read_format.
  rewrite (aligned_getUint16 _ _ _ _ (aligned_shift _ _ _ _ 8 H ltac:(lia))).
  rewrite (aligned_getUint16 _ _ _ _ (aligned_shift _ _ _ _ 10 H ltac:(lia))).
  rewrite (aligned_getUint32 _ _ _ _ (aligned_shift _ _ _ _ 12 H ltac:(lia))).
  now rewrite (aligned_getUint16 _ _ _ _ (aligned_shift _ _ _ _ 22 H ltac:(lia))).
Qed.

(** The chunk loop on two aligned buffers: the same format and data size,
    and data offsets that differ as the starting offsets do. *)
Lemma chunk_walk_aligned (fuel : nat) (v1 v2 : buffer) (o1 o2 : Z)
      (fmt : WavFormat) :
  Spec.aligned v1 o1 v2 o2 ->
  chunk_walk fuel v1 o1 fmt
  = (walked <- chunk_walk fuel v2 o2 fmt ;;
     Return (Spec.shift_data (o1 - o2) walked)).
Proof.
  revert o1 o2 fmt.
  induction fuel as [| fuel IH]; intros o1 o2 fmt H; [reflexivity | ].
  cbn [chunk_walk].
  pose proof H as (H1 & H2 & Hlen & _).
  destruct (Z.leb_spec (o1 + 8) (byteLength v1)) as [L1 | L1],
           (Z.leb_spec (o2 + 8) (byteLength v2)) as [L2 | L2]; try lia;
    [ | reflexivity].
  rewrite (aligned_tag_at _ _ _ _ H).
  rewrite (aligned_getUint32 _ _ _ _ (aligned_shift _ _ _ _ 4 H ltac:(lia))).
  rewrite (aligned_read_format _ _ _ _ H).
  destruct (tag_at v2 o2) as [chunkId | e | ]; cbn [bind]; try reflexivity.
  destruct (getUint32_cases v2 (o2 + 4)) as [Hs | Hs]; rewrite Hs; cbn [bind];
    [ | reflexivity].
  pose proof (next_chunk_advances v2 o2) as Hadv.
  assert (Hnext : forall fmt',
             chunk_walk fuel v1 (next_chunk o1 (le_uint32 v2 (o2 + 4))) fmt'
             = (walked <- chunk_walk fuel v2
                                     (next_chunk o2 (le_uint32 v2 (o2 + 4))) fmt' ;;
                Return (Spec.shift_data (o1 - o2) walked))).
  { intros fmt'.
    replace (o1 - o2)
      with (next_chunk o1 (le_uint32 v2 (o2 + 4))
            - next_chunk o2 (le_uint32 v2 (o2 + 4)))
      by (unfold next_chunk; lia).
    apply IH.
    replace (next_chunk o1 (le_uint32 v2 (o2 + 4)))
      with (o1 + (next_chunk o2 (le_uint32 v2 (o2 + 4)) - o2))
      by (unfold next_chunk; lia).
    replace (next_chunk o2 (le_uint32 v2 (o2 + 4)))
      with (o2 + (next_chunk o2 (le_uint32 v2 (o2 + 4)) - o2)) at 2
      by lia.
    apply aligned_shift; [exact H | lia]. }
  destruct (String.eqb chunkId "fmt ").
  - destruct (read_format_cases v2 o2) as [[fmt' Hf] | Hf]; rewrite Hf;
      cbn [bind]; [apply Hnext | reflexivity].
  - destruct (String.eqb chunkId "data"); [ | apply Hnext].
    cbn [bind Spec.shift_data].
    destruct (Z.eqb_spec (o2 + 8) (-1)) as [Heq | _]; [lia | ].
    do 3 f_equal. lia.
Qed.

End Alignment.

Section ChunkEncoding.
Import Audio.

Lemma byte_of_Z_value (z : Z) :
  Z.of_N (Byte.to_N (Spec.byte_of_Z z)) = z mod 256.
Proof.
  unfold Spec.byte_of_Z.
  pose proof (Z.mod_pos_bound z 256 ltac:(lia)) as Hm.
  destruct (Byte.of_N (Z.to_N (z mod 256))) as [b | ] eqn:E.
  - apply Byte.to_of_N in E. rewrite E. lia.
  - apply Byte.of_N_None_iff in E. lia.
Qed.

Lemma le32_value (n : Z) (tail : buffer) :
  0 <= n < 4294967296 -> le_uint32 (Spec.le32 n ++ tail) 0 = n.
Proof.
  intros Hn. unfold le_uint32, byte_at, Spec.le32.
  change (Z.to_nat 0) with 0%nat. change (Z.to_nat (0 + 1)) with 1%nat.
  change (Z.to_nat (0 + 2)) with 2%nat. change (Z.to_nat (0 + 3)) with 3%nat.
  cbn [app nth].
  rewrite !byte_of_Z_value.
  assert (H2 : n / 65536 = n / 256 / 256)
    by (rewrite Z.div_div by lia; reflexivity).
  assert (H3 : n / 16777216 = n / 256 / 256 / 256)
    by (rewrite !Z.div_div by lia; reflexivity).
  rewrite H2, H3.
  pose proof (Z.div_mod n 256 ltac:(lia)).
  pose proof (Z.div_mod (n / 256) 256 ltac:(lia)).
  pose proof (Z.div_mod (n / 256 / 256) 256 ltac:(lia)).
  assert (Hq : 0 <= n / 256 / 256 / 256 < 256).
  { split.
    - repeat (apply Z.div_pos; [ | lia]). lia.
    - rewrite <- H3. apply Z.div_lt_upper_bound; lia. }
  rewrite (Z.mod_small (n / 256 / 256 / 256) 256) by lia.
  lia.
Qed.

Lemma tag_length (s : string) :
  List.length (Spec.tag s) = String.length s.
Proof.
  unfold Spec.tag, list_byte_of_string. rewrite length_map.
  induction s as [| c s IH]; simpl; [reflexivity | now rewrite IH].
Qed.

Lemma padding_length (payload : buffer) :
  byteLength (Spec.padding payload) = Z.rem (byteLength payload) 2.
Proof.
  unfold Spec.padding. pose proof (byteLength_nonneg payload).
  rewrite Z.rem_mod_nonneg, Zmod_odd by lia.
  destruct (Z.odd (byteLength payload)); reflexivity.
Qed.

Lemma chunk_length (id : string) (payload : buffer) :
  String.length id = 4%nat ->
  byteLength (Spec.chunk id payload)
  = 8 + byteLength payload + Z.rem (byteLength payload) 2.
Proof.
  intros Hid. unfold Spec.chunk.
  rewrite !byteLength_app, padding_length.
  assert (Ht : byteLength (Spec.tag id) = 4)
    by (unfold byteLength; rewrite tag_length, Hid; reflexivity).
  assert (Hs : byteLength (Spec.le32 (byteLength payload)) = 4) by reflexivity.
  lia.
Qed.

Lemma chunk_tag (id : string) (payload tail : buffer) :
  String.length id = 4%nat ->
  Spec.four_at (Spec.chunk id payload ++ tail) 0 = Spec.tag id.
Proof.
  intros Hid. unfold Spec.four_at, Spec.chunk. cbn [Z.to_nat skipn].
  rewrite <- !app_assoc.
  replace 4%nat with (List.length (Spec.tag id) + 0)%nat
    by (rewrite tag_length, Hid; reflexivity).
  rewrite firstn_app_2. cbn [firstn]. apply app_nil_r.
Qed.

Lemma chunk_size_field (id : string) (payload tail : buffer) :
  String.length id = 4%nat -> byteLength payload < 4294967296 ->
  le_uint32 (Spec.chunk id payload ++ tail) 4 = byteLength payload.
Proof.
  intros Hid Hn. pose proof (byteLength_nonneg payload).
  assert (Ht : byteLength (Spec.tag id) = 4).
  { unfold byteLength. rewrite tag_length, Hid. reflexivity. }
  unfold Spec.chunk. rewrite <- !app_assoc.
  rewrite <- (le32_value (byteLength payload)
                (payload ++ Spec.padding payload ++ tail)) at 2 by lia.
  unfold le_uint32. rewrite <- Ht.
  replace (byteLength (Spec.tag id) + 1) with (byteLength (Spec.tag id) + (0 + 1)) by lia.
  replace (byteLength (Spec.tag id) + 2) with (byteLength (Spec.tag id) + (0 + 2)) by lia.
  replace (byteLength (Spec.tag id) + 3) with (byteLength (Spec.tag id) + (0 + 3)) by lia.
  replace (byteLength (Spec.tag id)) with (byteLength (Spec.tag id) + 0) at 1 by lia.
  rewrite !byte_at_app_r by lia. reflexivity.
Qed.

(** Bytes of a middle part [c] of a buffer, seen from the buffer. *)
Lemma byte_at_middle (pre c tail : buffer) (k : Z) :
  0 <= k < byteLength c ->
  byte_at (pre ++ c ++ tail) (byteLength pre + k) = byte_at c k.
Proof.
  intros Hk. rewrite byte_at_app_r by lia. apply byte_at_app_l. exact Hk.
Qed.

Lemma le_uint16_middle (pre c tail : buffer) (k : Z) :
  0 <= k -> k + 2 <= byteLength c ->
  le_uint16 (pre ++ c ++ tail) (byteLength pre + k) = le_uint16 c k.
Proof.
  intros H0 H2. unfold le_uint16.
  rewrite <- !Z.add_assoc, !byte_at_middle by lia. reflexivity.
Qed.

Lemma le_uint32_middle (pre c tail : buffer) (k : Z) :
  0 <= k -> k + 4 <= byteLength c ->
  le_uint32 (pre ++ c ++ tail) (byteLength pre + k) = le_uint32 c k.
Proof.
  intros H0 H4. unfold le_uint32.
  rewrite <- !Z.add_assoc, !byte_at_middle by lia. reflexivity.
Qed.

Lemma four_at_middle (pre c tail : buffer) :
  Spec.four_at (pre ++ c ++ tail) (byteLength pre) = Spec.four_at (c ++ tail) 0.
Proof.
  unfold Spec.four_at, byteLength. rewrite Nat2Z.id.
  rewrite skipn_app, skipn_all, Nat.sub_diag. reflexivity.
Qed.

End ChunkEncoding.

Section ChunkSkipping.
Import Audio.

(** The loop at a chunk that is not the data chunk: one turn takes it to
    the next chunk header, past the payload and its pad byte. *)
Lemma chunk_walk_passes (fuel : nat) (pre tail : buffer)
      (c : string * buffer) (fmt : WavFormat) :
  Spec.passed_chunk c ->
  chunk_walk (S fuel) (pre ++ Spec.chunk (fst c) (snd c) ++ tail)
             (byteLength pre) fmt
  = chunk_walk fuel (pre ++ Spec.chunk (fst c) (snd c) ++ tail)
               (byteLength pre + byteLength (Spec.chunk (fst c) (snd c)))
               (Spec.format_after c fmt).
Proof.
  destruct c as [id payload]. cbn [fst snd].
  intros (Hid & Hdata & Hsize & Hfmt). cbn [fst snd] in *.
  set (bytes := Spec.chunk id payload).
  set (view := pre ++ bytes ++ tail).
  pose proof (byteLength_nonneg pre) as Hpre.
  pose proof (byteLength_nonneg payload) as Hpay.
  pose proof (byteLength_nonneg tail) as Htail.
  pose proof (Z.rem_nonneg (byteLength payload) 2 ltac:(lia) ltac:(lia)) as Hrem.
  assert (Hlen : byteLength bytes = 8 + byteLength payload + Z.rem (byteLength payload) 2)
    by (apply chunk_length; exact Hid).
  assert (Hview : byteLength view = byteLength pre + byteLength bytes + byteLength tail)
    by (subst view; rewrite !byteLength_app; lia).
  rewrite chunk_walk_turn by lia. cbv zeta.
  assert (Htag : string_of_list_byte (Spec.four_at view (byteLength pre)) = id).
  { subst view bytes. rewrite four_at_middle, chunk_tag by exact Hid.
    apply string_of_list_byte_of_string. }
  assert (Hsz : le_uint32 view (byteLength pre + 4) = byteLength payload).
  { subst view. rewrite le_uint32_middle by lia.
    rewrite <- (app_nil_r bytes). subst bytes.
    apply chunk_size_field; assumption. }
  rewrite Htag, Hsz.
  assert (Hnext : next_chunk (byteLength pre) (byteLength payload)
                  = byteLength pre + byteLength bytes)
    by (unfold next_chunk; lia).
  rewrite Hnext. unfold Spec.format_after. cbn [fst snd]. fold bytes.
  destruct (String.eqb_spec id "fmt ") as [Heq | Hne].
  - specialize (Hfmt Heq).
    unfold read_format.
    rewrite !getUint16_in_bounds, getUint32_in_bounds by lia.
    cbn [bind]. subst view.
    rewrite !le_uint16_middle, le_uint32_middle by lia. reflexivity.
  - destruct (String.eqb_spec id "data") as [Heq | _]; [contradiction | ].
    reflexivity.
Qed.

Lemma format_after_ok (c : string * buffer) (fmt : WavFormat) :
  Spec.format_ok fmt -> Spec.format_ok (Spec.format_after c fmt).
Proof.
  intros H. unfold Spec.format_after.
  destruct (String.eqb (fst c) "fmt "); [ | exact H].
  unfold Spec.format_ok. cbn [numChannels bitsPerSample].
  pose proof (le_uint16_range (Spec.chunk (fst c) (snd c)) 10).
  pose proof (le_uint16_range (Spec.chunk (fst c) (snd c)) 22). lia.
Qed.

Lemma read_format_ok (view : buffer) (offset : Z) (fmt : WavFormat) :
  read_format view offset = Return fmt -> Spec.format_ok fmt.
Proof.
  unfold read_format. intros H.
  destruct (getUint16_cases view (offset + 8)) as [E | E]; rewrite E in H;
    cbn [bind] in H; [ | discriminate].
  destruct (getUint16_cases view (offset + 10)) as [E1 | E1]; rewrite E1 in H;
    cbn [bind] in H; [ | discriminate].
  destruct (getUint32_cases view (offset + 12)) as [E2 | E2]; rewrite E2 in H;
    cbn [bind] in H; [ | discriminate].
  destruct (getUint16_cases view (offset + 22)) as [E3 | E3]; rewrite E3 in H;
    cbn [bind] in H; [ | discriminate].
  injection H as <-. unfold Spec.format_ok. cbn [numChannels bitsPerSample].
  pose proof (le_uint16_range view (offset + 10)).
  pose proof (le_uint16_range view (offset + 22)). lia.
Qed.

(** The format fields that the loop returns are those of unsigned reads. *)
Lemma chunk_walk_format_ok (fuel : nat) (view : buffer) (offset : Z)
      (fmt fmt' : WavFormat) (dataOffset dataSize : Z) :
  0 <= offset -> Spec.format_ok fmt ->
  chunk_walk fuel view offset fmt = Return (fmt', dataOffset, dataSize) ->
  Spec.format_ok fmt'.
Proof.
  revert offset fmt.
  induction fuel as [| fuel IH]; intros offset fmt H0 Hok Hw; [discriminate | ].
  destruct (Z_le_gt_dec (offset + 8) (byteLength view)) as [H8 | H8].
  - rewrite chunk_walk_turn in Hw by assumption. cbv zeta in Hw.
    pose proof (next_chunk_advances view offset) as Hadv.
    destruct (String.eqb (string_of_list_byte (Spec.four_at view offset)) "fmt ").
    + destruct (read_format_cases view offset) as [[f Hf] | Hf];
        rewrite Hf in Hw; cbn [bind] in Hw; [ | discriminate].
      apply (IH _ f) in Hw; [exact Hw | lia | ].
      exact (read_format_ok _ _ _ Hf).
    + destruct (String.eqb (string_of_list_byte (Spec.four_at view offset)) "data").
      * injection Hw as <- _ _. exact Hok.
      * apply (IH _ fmt) in Hw; [exact Hw | lia | exact Hok].
  - rewrite chunk_walk_end in Hw by lia. injection Hw as <- _ _. exact Hok.
Qed.

End ChunkSkipping.

Section SampleDecoding.
Import Audio.

Lemma traverse_ext {A B} (f g : A -> outcome B) (l : list A) :
  (forall x, In x l -> f x = g x) -> traverse f l = traverse g l.
Proof.
  induction l as [| x l IH]; intros H; [reflexivity | ].
  cbn [traverse]. rewrite (H x) by now left.
  rewrite IH by (intros y Hy; apply H; now right). reflexivity.
Qed.

(** A sample read at aligned data offsets gives the same value. *)
Lemma decode_sample_aligned (v1 v2 : buffer) (d1 d2 : Z) (fmt : WavFormat)
      (i channel : Z) :
  Spec.aligned v1 d1 v2 d2 -> Spec.format_ok fmt ->
  0 <= i -> 0 <= channel ->
  decode_sample v1 fmt d1 i channel = decode_sample v2 fmt d2 i channel.
Proof.
  intros H [Hnc Hbits] Hi Hc. unfold decode_sample. cbv zeta.
  set (m := (i * numChannels fmt + channel) * (bitsPerSample fmt / 8)).
  assert (Hm : 0 <= m).
  { subst m. apply Z.mul_nonneg_nonneg.
    - apply Z.add_nonneg_nonneg; [apply Z.mul_nonneg_nonneg | ]; assumption.
    - apply Z.div_pos; lia. }
  pose proof (aligned_shift _ _ _ _ m H Hm) as Ha.
  unfold getFloat32, getInt16, getInt32.
  rewrite (aligned_getUint32 _ _ _ _ Ha), (aligned_getUint16 _ _ _ _ Ha).
  rewrite (aligned_getUint8 _ _ _ _ Ha).
  rewrite (aligned_getUint8 _ _ _ _ (aligned_shift _ _ _ _ 1 Ha ltac:(lia))).
  rewrite (aligned_getUint8 _ _ _ _ (aligned_shift _ _ _ _ 2 Ha ltac:(lia))).
  reflexivity.
Qed.

Lemma decode_frames_aligned (v1 v2 : buffer) (d1 d2 : Z) (fmt : WavFormat)
      (totalSamples : Z) :
  Spec.aligned v1 d1 v2 d2 -> Spec.format_ok fmt ->
  decode_frames v1 fmt d1 totalSamples = decode_frames v2 fmt d2 totalSamples.
Proof.
  intros H Hok. unfold decode_frames.
  apply traverse_ext. intros i Hi. apply range_In in Hi.
  apply traverse_ext. intros channel Hc. apply range_In in Hc.
  unfold stored_sample.
  rewrite (decode_sample_aligned v1 v2 d1 d2 fmt i channel) by (assumption || lia).
  reflexivity.
Qed.

(** Everything after the chunk loop depends on the bytes from the data
    offset on only. *)
Lemma decode_data_aligned (v1 v2 : buffer) (d1 d2 dataSize : Z)
      (fmt : WavFormat) :
  Spec.aligned v1 d1 v2 d2 -> Spec.format_ok fmt ->
  decode_data v1 (fmt, d1, dataSize) = decode_data v2 (fmt, d2, dataSize).
Proof.
  intros H Hok. pose proof H as (H1 & H2 & Hlen & _).
  unfold decode_data.
  destruct (Z.eqb_spec d1 (-1)) as [E | _]; [lia | ].
  destruct (Z.eqb_spec d2 (-1)) as [E | _]; [lia | ].
  cbv zeta. rewrite Hlen.
  destruct (total_samples _ _ _) as [n | | ]; try reflexivity.
  now rewrite (decode_frames_aligned v1 v2 d1 d2 fmt n H Hok).
Qed.

(** The same, for the results of the chunk loop on aligned buffers. *)
Lemma decode_data_shifted (v1 v2 : buffer) (o1 o2 : Z) (fuel : nat)
      (fmt : WavFormat) (walked : WavFormat * Z * Z) :
  Spec.aligned v1 o1 v2 o2 -> Spec.format_ok fmt ->
  chunk_walk fuel v2 o2 fmt = Return walked ->
  decode_data v1 (Spec.shift_data (o1 - o2) walked) = decode_data v2 walked.
Proof.
  intros H Hok Hw. destruct walked as [[fmt' d] sz].
  pose proof H as (H1 & H2 & _).
  pose proof (chunk_walk_format_ok _ _ _ _ _ _ _ H2 Hok Hw) as Hok'.
  destruct (chunk_walk_data_offset _ _ _ _ _ _ _ H2 Hw) as [[-> ->] | (Hd & _)].
  - reflexivity.
  - cbn [Spec.shift_data].
    destruct (Z.eqb_spec d (-1)) as [E | _]; [lia | ].
    apply decode_data_aligned; [ | exact Hok'].
    replace (d + (o1 - o2)) with (o1 + (d - o2)) by lia.
    replace d with (o2 + (d - o2)) at 2 by lia.
    apply aligned_shift; [exact H | lia].
Qed.

End SampleDecoding.

Section UnknownChunks.
Import Audio.

Lemma unknown_chunk_passed (c : string * buffer) :
  Spec.unknown_chunk c -> Spec.passed_chunk c.
Proof.
  intros (Hlen & Hdata & Hfmt & Hsize). unfold Spec.passed_chunk.
  repeat split; try assumption. intros Heq. contradiction.
Qed.

Lemma format_after_unknown (c : string * buffer) (fmt : WavFormat) :
  Spec.unknown_chunk c -> Spec.format_after c fmt = fmt.
Proof.
  intros (_ & _ & Hfmt & _). unfold Spec.format_after.
  destruct (String.eqb_spec (fst c) "fmt "); [contradiction | reflexivity].
Qed.

Lemma chunk_length_min (c : string * buffer) :
  Spec.passed_chunk c -> 8 <= byteLength (Spec.chunk (fst c) (snd c)).
Proof.
  intros (Hid & _). rewrite chunk_length by exact Hid.
  pose proof (byteLength_nonneg (snd c)).
  pose proof (Z.rem_nonneg (byteLength (snd c)) 2 ltac:(lia) ltac:(lia)). lia.
Qed.

(** One turn over a passed chunk, with the fuel that is left. *)
Lemma chunk_walk_passes_fuel (fuel : nat) (pre tail : buffer)
      (c : string * buffer) (fmt : WavFormat) :
  Spec.passed_chunk c ->
  Spec.enough_fuel fuel (pre ++ Spec.chunk (fst c) (snd c) ++ tail) (byteLength pre) ->
  exists fuel',
    chunk_walk fuel (pre ++ Spec.chunk (fst c) (snd c) ++ tail) (byteLength pre) fmt
    = chunk_walk fuel' (pre ++ Spec.chunk (fst c) (snd c) ++ tail)
                 (byteLength pre + byteLength (Spec.chunk (fst c) (snd c)))
                 (Spec.format_after c fmt)
    /\ Spec.enough_fuel fuel' (pre ++ Spec.chunk (fst c) (snd c) ++ tail)
                        (byteLength pre + byteLength (Spec.chunk (fst c) (snd c))).
Proof.
  intros Hc [Hf Hpos]. destruct fuel as [| fuel]; [lia | ].
  exists fuel. split; [now apply chunk_walk_passes | ].
  pose proof (chunk_length_min c Hc).
  pose proof (byteLength_nonneg tail).
  rewrite !byteLength_app in *. unfold Spec.enough_fuel.
  rewrite !byteLength_app. lia.
Qed.

(** The heart of the matter: from a chunk boundary on, decoding a buffer
    that holds an unknown chunk after some passed chunks gives what
    decoding the buffer without that chunk gives. *)
Lemma decode_with_unknown_chunk (cs : list (string * buffer))
      (unk : string * buffer) (rest : buffer) :
  Forall Spec.passed_chunk cs -> Spec.unknown_chunk unk ->
  forall (pre1 pre2 : buffer) (fmt : WavFormat) (f1 f2 : nat),
    byteLength pre1 = byteLength pre2 -> Spec.format_ok fmt ->
    Spec.enough_fuel f1
      (pre1 ++ Spec.encode_chunks cs ++ Spec.chunk (fst unk) (snd unk) ++ rest)
      (byteLength pre1) ->
    Spec.enough_fuel f2 (pre2 ++ Spec.encode_chunks cs ++ rest) (byteLength pre2) ->
    (walked <- chunk_walk f1
                 (pre1 ++ Spec.encode_chunks cs
                       ++ Spec.chunk (fst unk) (snd unk) ++ rest)
                 (byteLength pre1) fmt ;;
     decode_data (pre1 ++ Spec.encode_chunks cs
                       ++ Spec.chunk (fst unk) (snd unk) ++ rest) walked)
    = (walked <- chunk_walk f2 (pre2 ++ Spec.encode_chunks cs ++ rest)
                   (byteLength pre2) fmt ;;
       decode_data (pre2 ++ Spec.encode_chunks cs ++ rest) walked).
Proof.
  intros Hcs Hunk. induction Hcs as [| c cs Hc _ IH];
    intros pre1 pre2 fmt f1 f2 Hpre Hok E1 E2.
  - (* the unknown chunk is next *)
    change (Spec.encode_chunks []) with (@nil Byte.byte) in *.
    cbn [app] in *.
    set (bytes := Spec.chunk (fst unk) (snd unk)) in *.
    set (v1 := pre1 ++ bytes ++ rest) in *.
    set (v2 := pre2 ++ rest) in *.
    destruct (chunk_walk_passes_fuel f1 pre1 rest unk fmt
                (unknown_chunk_passed unk Hunk) E1) as (f1' & Hstep & E1').
    fold bytes in Hstep, E1'. fold v1 in Hstep, E1'.
    rewrite Hstep, (format_after_unknown unk fmt Hunk).
    assert (Hal : Spec.aligned v1 (byteLength pre1 + byteLength bytes)
                               v2 (byteLength pre2)).
    { subst v1 v2. rewrite app_assoc, <- byteLength_app. apply aligned_suffix. }
    rewrite (chunk_walk_aligned f1' v1 v2 _ _ fmt Hal).
    assert (E2' : Spec.enough_fuel f1' v2 (byteLength pre2)).
    { destruct Hal as (_ & _ & Hlen & _). destruct E1' as [Hf Hp].
      unfold Spec.enough_fuel. split; [lia | exact Hp]. }
    pose proof (byteLength_nonneg pre2) as Hp2.
    rewrite (proj1 (chunk_walk_fuel f1' f2 v2 (byteLength pre2) fmt Hp2 E2' E2)).
    destruct (chunk_walk f2 v2 (byteLength pre2) fmt) as [walked | e | ] eqn:Hw;
      cbn [bind]; try reflexivity.
    exact (decode_data_shifted v1 v2 _ _ f2 fmt walked Hal Hok Hw).
  - (* a passed chunk first: one turn in both buffers *)
    change (Spec.encode_chunks (c :: cs))
      with (Spec.chunk (fst c) (snd c) ++ Spec.encode_chunks cs) in *.
    rewrite <- !app_assoc in *.
    destruct (chunk_walk_passes_fuel f1 pre1 _ c fmt Hc E1) as (f1' & Hs1 & E1').
    destruct (chunk_walk_passes_fuel f2 pre2 _ c fmt Hc E2) as (f2' & Hs2 & E2').
    rewrite Hs1, Hs2.
    rewrite <- !byteLength_app.
    rewrite <- !byteLength_app in E1', E2'.
    rewrite !(app_assoc pre1), !(app_assoc pre2) in *.
    apply IH.
    + rewrite !byteLength_app. lia.
    + now apply format_after_ok.
    + exact E1'.
    + exact E2'.
Qed.

(** A buffer that ends after chunks that are all passed: the loop ends by
    its condition, with no data offset. *)
Lemma chunk_walk_without_data (cs : list (string * buffer)) :
  Forall Spec.passed_chunk cs ->
  forall (pre : buffer) (fmt : WavFormat) (fuel : nat),
    Spec.enough_fuel fuel (pre ++ Spec.encode_chunks cs) (byteLength pre) ->
    exists fmt',
      chunk_walk fuel (pre ++ Spec.encode_chunks cs) (byteLength pre) fmt
      = Return (fmt', -1, 0).
Proof.
  induction 1 as [| c cs Hc _ IH]; intros pre fmt fuel E.
  - change (Spec.encode_chunks []) with (@nil Byte.byte) in *.
    rewrite app_nil_r in *. destruct E as [_ Hpos].
    destruct fuel as [| fuel]; [lia | ].
    exists fmt. apply chunk_walk_end. lia.
  - change (Spec.encode_chunks (c :: cs))
      with (Spec.chunk (fst c) (snd c) ++ Spec.encode_chunks cs) in *.
    destruct (chunk_walk_passes_fuel fuel pre _ c fmt Hc E) as (fuel' & Hs & E').
    rewrite Hs. rewrite <- byteLength_app in *. rewrite app_assoc in *.
    apply IH. exact E'.
Qed.

End UnknownChunks.

Section DecoderClaims.
Import Audio.

(** *** Bit depths that are not decoded *)

Lemma total_samples_whole_frames (availableDataSize bits nc : Z) :
  0 < bits -> 0 < nc ->
  total_samples availableDataSize bits nc
  = Finite (8 * availableDataSize / (bits * nc)).
Proof.
  intros Hb Hn. unfold total_samples.
  destruct (Z.eqb_spec bits 0) as [E | _]; [lia | ].
  destruct (Z.eqb_spec nc 0) as [E | _]; [lia | ].
  cbn [orb]. f_equal.
  rewrite Zdiv_Qdiv. apply Qfloor_comp.
  rewrite !inject_Z_mult.
  assert (Hb' : ~ (inject_Z bits == 0)%Q).
  { change 0%Q with (inject_Z 0). rewrite inject_Z_injective. lia. }
  assert (Hn' : ~ (inject_Z nc == 0)%Q).
  { change 0%Q with (inject_Z 0). rewrite inject_Z_injective. lia. }
  change (inject_Z 8) with 8%Q. field. split; assumption.
Qed.

Lemma decode_sample_unsupported (view : buffer) (fmt : WavFormat)
      (dataOffset i channel : Z) :
  Spec.supported_bits (bitsPerSample fmt) = false ->
  decode_sample view fmt dataOffset i channel
  = Throw (Error (unsupported_message (bitsPerSample fmt))).
Proof.
  unfold Spec.supported_bits, decode_sample. intros H.
  apply orb_false_iff in H as [H H32]. apply orb_false_iff in H as [H H24].
  apply orb_false_iff in H as [H8 H16].
  cbv zeta. rewrite H8, H16, H24, H32, andb_false_r. reflexivity.
Qed.

(** With a bit depth outside 8, 16, 24 and 32, decoding the first sample of
    the first frame throws. *)
Lemma decode_frames_unsupported (view : buffer) (fmt : WavFormat)
      (dataOffset totalSamples : Z) :
  Spec.supported_bits (bitsPerSample fmt) = false ->
  1 <= totalSamples -> 1 <= numChannels fmt ->
  decode_frames view fmt dataOffset totalSamples
  = Throw (Error (unsupported_message (bitsPerSample fmt))).
Proof.
  intros Hbits Hn Hc. unfold decode_frames.
  rewrite (range_cons 0 (totalSamples - 1)) by lia. cbn [traverse].
  rewrite (range_cons 0 (numChannels fmt - 1)) by lia. cbn [traverse].
  unfold stored_sample.
  rewrite decode_sample_unsupported by exact Hbits. reflexivity.
Qed.

(** The part of C3 that the code keeps: when the data chunk holds at least
    one whole frame, a bit depth outside 8, 16, 24 and 32 makes
    [decodeWav] fail with [Unsupported WAV bits per sample]. *)
Lemma decodeWav_unsupported_bits_with_frame (view : buffer) (fmt : WavFormat)
      (dataOffset dataSize : Z) :
  12 <= byteLength view ->
  Spec.four_at view 0 = Spec.tag "RIFF" ->
  Spec.four_at view 8 = Spec.tag "WAVE" ->
  chunk_walk (S (List.length view)) view 12 default_format
  = Return (fmt, dataOffset, dataSize) ->
  dataOffset <> -1 ->
  Spec.supported_bits (bitsPerSample fmt) = false ->
  0 < bitsPerSample fmt -> 0 < numChannels fmt ->
  bitsPerSample fmt * numChannels fmt
  <= 8 * Z.max 0 (Z.min dataSize (byteLength view - dataOffset)) ->
  decodeWav view = Throw (Error (unsupported_message (bitsPerSample fmt))).
Proof.
  intros H12 Hr Hw Hwalk Hd Hbits Hb Hn Hframe.
  rewrite decodeWav_good_header, Hwalk by assumption. cbn [bind].
  unfold decode_data.
  destruct (Z.eqb_spec dataOffset (-1)) as [E | _]; [contradiction | ].
  cbv zeta. rewrite total_samples_whole_frames by assumption.
  rewrite decode_frames_unsupported; [reflexivity | exact Hbits | | lia].
  apply Z.div_le_lower_bound; lia.
Qed.

(** C3 fails on the code: a 12-bit file whose data chunk is empty is
    decoded, to an empty signal at the declared rate, instead of being
    refused.  The same file with two samples of data is refused, and with
    no channel declared the decoder does not return. *)
Theorem decodeWav_unsupported_bits_empty_data :
  Spec.supported_bits 12 = false
  /\ decodeWav Spec.wav_12bit_no_data = Return (mkPcm [] 44100%R)
  /\ decodeWav Spec.wav_12bit_two_samples
     = Throw (Error "Unsupported WAV bits per sample: 12")
  /\ decodeWav Spec.wav_12bit_no_channel = Diverge.
Proof.
  split; [reflexivity | ].
  split; [vm_compute; reflexivity | ].
  split; vm_compute; reflexivity.
Qed.

End DecoderClaims.

(* ================================================================== *)
(** ** Further properties of src/music.js: normalisation and energy *)
(* ================================================================== *)

Section PeakNormalisation.
Import Music.
Local Open Scope R_scope.

(** The loop of [peak], from any starting maximum. *)
Lemma peak_from (xs : list R) :
  peak xs
  = fold_left (fun max x => if Js.ltb max (Rabs x) then Rabs x else max) xs 0.
Proof. reflexivity. Qed.

Lemma peak_loop_ge (xs : list R) (m : R) :
  m <= fold_left (fun max x => if Js.ltb max (Rabs x) then Rabs x else max) xs m
  /\ forall x, In x xs ->
       Rabs x <= fold_left (fun max x => if Js.ltb max (Rabs x) then Rabs x else max)
                           xs m.
Proof.
  revert m. induction xs as [| y ys IH]; intros m.
  - split; [cbn; lra | intros x []].
  - rewrite fold_left_cons.
    destruct (IH (if Js.ltb m (Rabs y) then Rabs y else m)) as [Hm Hin].
    assert (Hstep : m <= (if Js.ltb m (Rabs y) then Rabs y else m)
                    /\ Rabs y <= (if Js.ltb m (Rabs y) then Rabs y else m)).
    { unfold Js.ltb. destruct (Rlt_dec m (Rabs y)); lra. }
    split; [lra | ].
    intros x [<- | Hx]; [lra | now apply Hin].
Qed.

Lemma peak_loop_attained (xs : list R) (m : R) :
  fold_left (fun max x => if Js.ltb max (Rabs x) then Rabs x else max) xs m = m
  \/ exists x, In x xs
       /\ Rabs x = fold_left (fun max x => if Js.ltb max (Rabs x) then Rabs x else max)
                             xs m.
Proof.
  revert m. induction xs as [| y ys IH]; intros m; [now left | ].
  rewrite fold_left_cons.
  destruct (IH (if Js.ltb m (Rabs y) then Rabs y else m)) as [Heq | (x & Hx & Hax)].
  - rewrite Heq. unfold Js.ltb. destruct (Rlt_dec m (Rabs y)).
    + right. exists y. split; [now left | reflexivity].
    + now left.
  - right. exists x. split; [now right | exact Hax].
Qed.

Lemma Rabs_div_pos (x p : R) : 0 < p -> Rabs (x / p) = Rabs x / p.
Proof.
  intros Hp. unfold Rdiv. rewrite Rabs_mult, (Rabs_pos_eq (/ p)); [reflexivity | ].
  left. now apply Rinv_0_lt_compat.
Qed.

Lemma ltb_div_pos (a b p : R) : 0 < p -> Js.ltb (a / p) (b / p) = Js.ltb a b.
Proof.
  intros Hp. pose proof (Rinv_0_lt_compat p Hp) as Hi.
  unfold Js.ltb, Rdiv.
  destruct (Rlt_dec (a * / p) (b * / p)) as [H | H], (Rlt_dec a b) as [H' | H'];
    try reflexivity; exfalso.
  - apply H'. apply (Rmult_lt_reg_r (/ p)); assumption.
  - apply H. apply Rmult_lt_compat_r; assumption.
Qed.

Lemma peak_loop_scale (xs : list R) (m p : R) :
  0 < p ->
  fold_left (fun max x => if Js.ltb max (Rabs x) then Rabs x else max)
            (map (fun x => x / p) xs) (m / p)
  = fold_left (fun max x => if Js.ltb max (Rabs x) then Rabs x else max) xs m / p.
Proof.
  intros Hp. revert m. induction xs as [| y ys IH]; intros m; [reflexivity | ].
  cbn [map]. rewrite !fold_left_cons, <- IH.
  rewrite Rabs_div_pos, ltb_div_pos by exact Hp.
  destruct (Js.ltb m (Rabs y)); reflexivity.
Qed.

Lemma peak_nonneg (xs : list R) : 0 <= peak xs.
Proof. rewrite peak_from. apply peak_loop_ge. Qed.

Lemma peak_bounds (xs : list R) (x : R) : In x xs -> Rabs x <= peak xs.
Proof. rewrite peak_from. apply peak_loop_ge. Qed.

Lemma peak_pos_of_sound (xs : list R) : ~ Spec.silent xs -> 0 < peak xs.
Proof.
  intros Hs. destruct (Rle_lt_dec (peak xs) 0) as [Hle | Hlt]; [ | exact Hlt].
  exfalso. apply Hs. apply Forall_forall. intros x Hx.
  pose proof (peak_bounds xs x Hx). pose proof (Rabs_pos x).
  destruct (Req_dec x 0) as [E | E]; [exact E | ].
  pose proof (Rabs_pos_lt x E). lra.
Qed.

Lemma normalize_of_sound (xs : list R) :
  0 < peak xs -> normalize xs = map (fun x => x / peak xs) xs.
Proof.
  intros Hp. unfold normalize. now rewrite leb_false_of_lt.
Qed.

Lemma peak_of_normalized (xs : list R) : 0 < peak xs -> peak (normalize xs) = 1.
Proof.
  intros Hp. rewrite normalize_of_sound by exact Hp. rewrite peak_from.
  replace 0 with (0 / peak xs) at 1 by (field; lra).
  rewrite peak_loop_scale by exact Hp. rewrite <- peak_from. field. lra.
Qed.

Lemma normalize_length (xs : list R) :
  List.length (normalize xs) = List.length xs.
Proof.
  unfold normalize. destruct (Js.leb (peak xs) 0); [reflexivity | apply length_map].
Qed.

(** X1. [normalize] keeps the length of the signal; on a signal that is not
    silent its output has peak 1 and no sample above 1 in absolute value; and
    normalising twice is normalising once. *)
Theorem normalize_unit_peak (xs : list R) :
  List.length (normalize xs) = List.length xs
  /\ (~ Spec.silent xs ->
      peak (normalize xs) = 1
      /\ Forall (fun y => Rabs y <= 1) (normalize xs))
  /\ normalize (normalize xs) = normalize xs.
Proof.
  split; [ | split].
  - apply normalize_length.
  - intros Hs. pose proof (peak_pos_of_sound xs Hs) as Hp.
    split; [now apply peak_of_normalized | ].
    apply Forall_forall. intros y Hy.
    pose proof (peak_bounds (normalize xs) y Hy) as Hb.
    rewrite peak_of_normalized in Hb by exact Hp. exact Hb.
  - destruct (Rle_lt_dec (peak xs) 0) as [Hle | Hp].
    + unfold normalize at 2 3. rewrite leb_true_of_le by exact Hle.
      unfold normalize. now rewrite leb_true_of_le.
    + unfold normalize at 1. rewrite peak_of_normalized by exact Hp.
      rewrite leb_false_of_lt by lra.
      rewrite <- (map_id (normalize xs)) at 2. apply map_ext.
      intros y. field.
Qed.

(** The theorem on a signal with peak 4. *)
Lemma normalize_unit_peak_witness :
  peak (normalize [1; -4; 2]) = 1
  /\ Forall (fun y => Rabs y <= 1) (normalize [1; -4; 2]).
Proof.
  apply (normalize_unit_peak [1; -4; 2]).
  intros H. inversion H as [| x l Hx _]. lra.
Defined.

Lemma sum_squares_ge (xs : list R) (a : R) :
  a <= fold_left (fun sum x => sum + x * x) xs a
  /\ forall y, In y xs -> a + y * y <= fold_left (fun sum x => sum + x * x) xs a.
Proof.
  revert a. induction xs as [| x xs IH]; intros a.
  - split; [cbn; lra | intros y []].
  - rewrite fold_left_cons. destruct (IH (a + x * x)) as [Ha Hin].
    pose proof (Rle_0_sqr x) as Hx. unfold Rsqr in Hx.
    split; [lra | ].
    intros y [<- | Hy]; [lra | ].
    specialize (Hin y Hy). lra.
Qed.

Lemma rms_unfold (xs : list R) :
  xs <> [] ->
  rms xs = sqrt (fold_left (fun sum x => sum + x * x) xs 0 / INR (List.length xs)).
Proof. destruct xs; [congruence | reflexivity]. Qed.

(** X2. The silence test of [detectPitch] compares the energy of the
    peak-normalised signal with 0.01.  A signal that is not silent and has at
    most 10000 samples always passes it: the test [rms(y) < 0.01] is false. *)
Theorem silence_test_passes_up_to_10000 (xs : list R) :
  ~ Spec.silent xs -> (Z.of_nat (List.length xs) <= 10000)%Z ->
  1 / 100 <= rms (normalize xs)
  /\ Js.ltb (rms (normalize xs)) (1 / 100) = false.
Proof.
  intros Hs Hlen.
  assert (Hrms : 1 / 100 <= rms (normalize xs)).
  { pose proof (peak_pos_of_sound xs Hs) as Hp.
    assert (Hne : xs <> []) by (intros ->; apply Hs; constructor).
    assert (Hne' : normalize xs <> []).
    { intros E. apply (f_equal (@List.length R)) in E.
      rewrite normalize_length in E.
      destruct xs; [congruence | discriminate]. }
    (* a sample of absolute value 1 *)
    assert (Hone : exists y, In y (normalize xs) /\ y * y = 1).
    { destruct (peak_loop_attained (normalize xs) 0) as [E | (y & Hy & Hay)];
        rewrite <- peak_from, peak_of_normalized in * by exact Hp; [lra | ].
      exists y. split; [exact Hy | ].
      replace (y * y) with (Rabs y * Rabs y); [rewrite Hay; ring | ].
      unfold Rabs. destruct (Rcase_abs y); ring. }
    destruct Hone as (y & Hy & Hyy).
    pose proof (proj2 (sum_squares_ge (normalize xs) 0) y Hy) as Hsum.
    rewrite Hyy in Hsum.
    rewrite rms_unfold by exact Hne'.
    rewrite normalize_length.
    assert (Hn : 0 < INR (List.length xs) <= 10000).
    { split.
      - apply lt_0_INR. destruct xs; [congruence | simpl; lia].
      - rewrite INR_IZR_INZ. now apply IZR_le. }
    replace (1 / 100) with (sqrt (1 / 100 * (1 / 100))) by (apply sqrt_square; lra).
    apply sqrt_le_1_alt.
    assert (Hinv : / 10000 <= / INR (List.length xs))
      by (apply Rinv_le_contravar; lra).
    assert (HiN : 0 < / INR (List.length xs)) by (apply Rinv_0_lt_compat; lra).
    unfold Rdiv. nra. }
  split; [exact Hrms | now apply ltb_false_of_le].
Qed.

(** The theorem on three samples of amplitude one thousandth. *)
Lemma silence_test_passes_up_to_10000_witness :
  Js.ltb (rms (normalize [1 / 1000; 0; -1 / 1000])) (1 / 100) = false.
Proof.
  apply (silence_test_passes_up_to_10000 [1 / 1000; 0; -1 / 1000]).
  - intros H. inversion H as [| x l Hx _]. lra.
  - simpl. lia.
Defined.

End PeakNormalisation.

(* ================================================================== *)
(** ** Further properties of src/music.js: the lag search *)
(* ================================================================== *)

Section LagSearch.
Import Music.
Local Open Scope R_scope.

Lemma ltb_true_inv (x y : R) : Js.ltb x y = true -> x < y.
Proof. unfold Js.ltb. destruct (Rlt_dec x y); [trivial | discriminate]. Qed.

Lemma ltb_false_inv (x y : R) : Js.ltb x y = false -> y <= x.
Proof. unfold Js.ltb. destruct (Rlt_dec x y); [discriminate | lra]. Qed.

Lemma leb_false_inv (x y : R) : Js.leb x y = false -> y < x.
Proof. unfold Js.leb. destruct (Rle_dec x y); [discriminate | lra]. Qed.

(** [detectPitch] with its loop result taken as a pair. *)
Lemma detectPitch_unfold (xs : list R) (sampleRate : R) :
  detectPitch xs sampleRate
  = if (Nat.eqb (List.length xs) 0) || Js.leb sampleRate 0 then None
    else if Js.ltb (rms (normalize xs)) (1 / 100) then None
    else
      let best :=
        fold_left (lag_step (normalize xs))
                  (Js.range (Js.floor (sampleRate / maxFreq))
                            (Js.floor (sampleRate / minFreq)))
                  ((-1)%Z, 0) in
      if (fst best <=? 0)%Z || Js.ltb (snd best) (35 / 100) then None
      else Some (sampleRate / IZR (fst best)).
Proof.
  unfold detectPitch.
  destruct (_ || _); [reflexivity | ].
  destruct (Js.ltb _ _); [reflexivity | ].
  cbv zeta. destruct (fold_left _ _ _) as [bestLag bestCorr]. reflexivity.
Qed.

(** One turn of the loop keeps the best pair or replaces it by the current
    lag, which then overlaps the signal and scores higher. *)
Lemma lag_step_cases (y : list R) (best : Z * R) (lag : Z) :
  lag_step y best lag = best
  \/ (fst (lag_step y best lag) = lag
      /\ (lag < Z.of_nat (List.length y))%Z
      /\ snd best < snd (lag_step y best lag)).
Proof.
  destruct (Z_le_gt_dec (Z.of_nat (List.length y)) lag) as [Hge | Hlt].
  - left. now apply lag_step_beyond.
  - unfold lag_step. destruct (lag_sums y lag) as [[corr e1] e2].
    destruct (Js.eqb _ 0); [now left | ].
    destruct (Js.ltb (snd best) (corr / sqrt (e1 * e2))) eqn:Hlt'; [ | now left].
    right. cbn [fst snd]. repeat split; [lia | now apply ltb_true_inv].
Qed.

Lemma lag_loop_cases (y : list R) (lags : list Z) (best : Z * R) :
  fold_left (lag_step y) lags best = best
  \/ (In (fst (fold_left (lag_step y) lags best)) lags
      /\ (fst (fold_left (lag_step y) lags best) < Z.of_nat (List.length y))%Z
      /\ snd best < snd (fold_left (lag_step y) lags best)).
Proof.
  revert best. induction lags as [| lag lags IH]; intros best; [now left | ].
  rewrite fold_left_cons.
  destruct (IH (lag_step y best lag)) as [Hkeep | (Hin & Hlen & Hsc)].
  - rewrite Hkeep.
    destruct (lag_step_cases y best lag) as [E | (Hf & Hl & Hs)]; [now left | ].
    right. repeat split; [left; now rewrite Hf | now rewrite Hf | exact Hs].
  - right. repeat split; [now right | exact Hlen | ].
    destruct (lag_step_cases y best lag) as [E | (_ & _ & Hs)].
    + rewrite E in Hsc |- *. exact Hsc.
    + lra.
Qed.

(** X3. A pitch returned by [detectPitch] is the sample rate divided by a
    whole lag of at least 1, between [floor(rate / 2093)] and
    [floor(rate / 65.41)] and shorter than the signal; it is therefore never
    below 65.41 Hz, and the signal was not empty and the rate positive. *)
Theorem detectPitch_result_range (xs : list R) (sampleRate f : R) :
  detectPitch xs sampleRate = Some f ->
  xs <> [] /\ 0 < sampleRate
  /\ (exists lag : Z,
         (1 <= lag)%Z
         /\ (Js.floor (sampleRate / maxFreq) <= lag <= Js.floor (sampleRate / minFreq))%Z
         /\ (lag < Z.of_nat (List.length xs))%Z
         /\ f = sampleRate / IZR lag)
  /\ minFreq <= f.
Proof.
  rewrite detectPitch_unfold. intros H.
  destruct (Nat.eqb (List.length xs) 0) eqn:Hlen; [discriminate | ].
  destruct (Js.leb sampleRate 0) eqn:Hrate; [discriminate | ].
  cbn [orb] in H. apply leb_false_inv in Hrate.
  destruct (Js.ltb (rms (normalize xs)) (1 / 100)); [discriminate | ].
  cbv zeta in H.
  set (lags := Js.range (Js.floor (sampleRate / maxFreq))
                        (Js.floor (sampleRate / minFreq))) in *.
  destruct (lag_loop_cases (normalize xs) lags ((-1)%Z, 0)) as [E | (Hin & Hl & _)].
  - rewrite E in H. discriminate.
  - set (best := fold_left (lag_step (normalize xs)) lags ((-1)%Z, 0)) in *.
    destruct (Z.leb_spec (fst best) 0) as [Hle | Hpos]; [discriminate | ].
    destruct (Js.ltb (snd best) (35 / 100)); [discriminate | ].
    cbn [orb] in H. injection H as <-.
    subst lags. apply range_In in Hin. rewrite normalize_length in Hl.
    assert (Hx : xs <> []) by (intros ->; discriminate).
    split; [exact Hx | split; [exact Hrate | split]].
    + exists (fst best). repeat split; (lia || reflexivity).
    + assert (Hlag : 0 < IZR (fst best)) by (apply IZR_lt; lia).
      assert (Hup : IZR (fst best) <= sampleRate / minFreq).
      { eapply Rle_trans; [apply IZR_le, (proj2 Hin) | ].
        unfold Js.floor. apply Zfloor_bound. }
      unfold minFreq in *.
      apply (Rmult_le_reg_r (IZR (fst best))); [exact Hlag | ].
      unfold Rdiv at 2. rewrite Rmult_assoc, Rinv_l by lra. lra.
Qed.

(** The theorem on the eleven equal samples whose pitch is 2205 Hz. *)
Lemma detectPitch_result_range_witness :
  minFreq <= 22050 / 10.
Proof.
  apply (detectPitch_result_range (repeat 1 11) 22050 (22050 / 10)).
  apply detectPitch_faint_constant. lra.
Defined.

(** X4. A signal with no more than [floor(rate / 2093)] samples has no
    pitch: every lag of the search is as long as the signal, so no lag has an
    overlap to score. *)
Theorem detectPitch_too_short (xs : list R) (sampleRate : R) :
  (Z.of_nat (List.length xs) <= Js.floor (sampleRate / maxFreq))%Z ->
  detectPitch xs sampleRate = None.
Proof.
  intros Hshort. rewrite detectPitch_unfold.
  destruct (_ || _); [reflexivity | ].
  destruct (Js.ltb _ _); [reflexivity | ].
  rewrite lag_loop_beyond; [reflexivity | ].
  intros lag Hlag. apply range_In in Hlag. rewrite normalize_length. lia.
Qed.

(** The theorem on ten samples at 22050 Hz, where the shortest lag is 10. *)
Lemma detectPitch_too_short_witness :
  detectPitch (repeat 1 10) 22050 = None.
Proof.
  apply detectPitch_too_short.
  rewrite repeat_length. change (Z.of_nat 10) with 10%Z.
  unfold Js.floor, maxFreq. apply Zfloor_lub. lra.
Defined.

End LagSearch.

(* ================================================================== *)
(** ** Further properties of src/music.js: the note mapper *)
(* ================================================================== *)

Section NoteMapperMore.
Import Music.
Local Open Scope R_scope.

(** [2 ** y] undoes [Math.log2] on positive numbers. *)
Lemma pow2_log2 (x : R) : 0 < x -> Js.pow2 (Js.log2 x) = x.
Proof.
  intros Hx. unfold Js.pow2, Js.log2, Rpower. pose proof ln_2_pos.
  replace (ln x / ln 2 * ln 2) with (ln x) by (field; lra).
  now apply exp_ln.
Qed.

Lemma pow2_plus (a b : R) : Js.pow2 (a + b) = Js.pow2 a * Js.pow2 b.
Proof. unfold Js.pow2. apply Rpower_plus. Qed.

Lemma pow2_one : Js.pow2 1 = 2.
Proof. unfold Js.pow2. apply Rpower_1. lra. Qed.

Lemma log2_double (x : R) : 0 < x -> Js.log2 (2 * x) = 1 + Js.log2 x.
Proof.
  intros Hx. unfold Js.log2. rewrite ln_mult by lra.
  pose proof ln_2_pos. field. lra.
Qed.

(** The index expression of [hzToNote] is the mathematical remainder. *)
Lemma note_index_mod (n : Z) : note_index n = (n mod 12)%Z.
Proof.
  unfold note_index.
  pose proof (Z.rem_bound_abs n 12 ltac:(lia)) as Hb.
  pose proof (Z.quot_rem' n 12) as Hq.
  rewrite (Z.rem_mod_nonneg (Z.rem n 12 + 12) 12) by lia.
  replace (Z.rem n 12 + 12)%Z with (n + (1 - Z.quot n 12) * 12)%Z by lia.
  apply Z.mod_add. lia.
Qed.

(** [Math.floor(nearestMidi / 12)] is the integer quotient. *)
Lemma floor_div_12 (n : Z) : Js.floor (IZR n / 12) = (n / 12)%Z.
Proof.
  unfold Js.floor. apply Zfloor_eq.
  pose proof (Z.div_mod n 12 ltac:(lia)) as Hd.
  pose proof (Z.mod_pos_bound n 12 ltac:(lia)) as Hm.
  assert (Hn : IZR n = 12 * IZR (n / 12) + IZR (n mod 12)).
  { rewrite Hd at 1. rewrite plus_IZR, mult_IZR. reflexivity. }
  assert (H0 : 0 <= IZR (n mod 12)) by (apply IZR_le; lia).
  assert (H12 : IZR (n mod 12) < 12) by (apply IZR_lt; lia).
  lra.
Qed.

(** The three fields of [hzToNote] on a positive frequency, by the nearest
    MIDI number. *)
Lemma hzToNote_fields (f : R) :
  0 < f ->
  let midiNum := 69 + 12 * Js.log2 (f / 440) in
  let n := Js.round midiNum in
  hzToNote f
  = mkNote (Some (Js.str_at NOTE_NAMES (n mod 12)
                  ++ Js.string_of_Z (n / 12 - 1))%string)
           (Some ((midiNum - IZR n) * 100))
           (Some (440 * Js.pow2 ((IZR n - 69) / 12))).
Proof.
  intros Hf midiNum n. unfold hzToNote.
  rewrite leb_false_of_lt by exact Hf. cbv zeta.
  fold midiNum. fold n. now rewrite note_index_mod, floor_div_12.
Qed.

(** X6. On a positive frequency the deviation reported by [hzToNote] lies in
    [-50, 50) cents, the target frequency is positive, and the frequency is
    the target moved by that deviation: [f = target * 2 ** (cents / 1200)]. *)
Theorem hzToNote_cents_range (f : R) :
  0 < f ->
  exists (name : string) (cents target : R),
    hzToNote f = mkNote (Some name) (Some cents) (Some target)
    /\ -50 <= cents < 50
    /\ 0 < target
    /\ f = target * Js.pow2 (cents / 1200).
Proof.
  intros Hf. rewrite (hzToNote_fields f Hf). cbv zeta.
  set (midiNum := 69 + 12 * Js.log2 (f / 440)).
  set (n := Js.round midiNum).
  do 3 eexists. split; [reflexivity | ].
  assert (Hb : IZR n <= midiNum + / 2 < IZR n + 1)
    by (subst n; unfold Js.round; apply Zfloor_bound).
  split; [lra | ].
  pose proof (pow2_pos ((IZR n - 69) / 12)) as Hp.
  split; [lra | ].
  rewrite Rmult_assoc, <- pow2_plus.
  replace ((IZR n - 69) / 12 + (midiNum - IZR n) * 100 / 1200)
    with (Js.log2 (f / 440)) by (subst midiNum; field).
  rewrite pow2_log2 by (apply Rdiv_lt_0_compat; lra). field.
Qed.

(** The theorem at 450 Hz. *)
Lemma hzToNote_cents_range_witness :
  exists (name : string) (cents target : R),
    hzToNote 450 = mkNote (Some name) (Some cents) (Some target)
    /\ -50 <= cents < 50
    /\ 0 < target
    /\ 450 = target * Js.pow2 (cents / 1200).
Proof. apply (hzToNote_cents_range 450). lra. Defined.

(** X7. Doubling a positive frequency moves [hzToNote] up one octave: the
    nearest MIDI number grows by 12, so the pitch-class name is the same, the
    octave number is one more, the deviation in cents is the same and the
    target frequency doubles. *)
Theorem hzToNote_octave (f : R) :
  0 < f ->
  exists (n : Z) (cents target : R),
    hzToNote f
    = mkNote (Some (Js.str_at NOTE_NAMES (n mod 12)
                    ++ Js.string_of_Z (n / 12 - 1))%string)
             (Some cents) (Some target)
    /\ hzToNote (2 * f)
       = mkNote (Some (Js.str_at NOTE_NAMES (n mod 12)
                       ++ Js.string_of_Z (n / 12 - 1 + 1))%string)
                (Some cents) (Some (2 * target)).
Proof.
  intros Hf.
  set (midiNum := 69 + 12 * Js.log2 (f / 440)).
  exists (Js.round midiNum), ((midiNum - IZR (Js.round midiNum)) * 100),
         (440 * Js.pow2 ((IZR (Js.round midiNum) - 69) / 12)).
  split; [exact (hzToNote_fields f Hf) | ].
  rewrite (hzToNote_fields (2 * f)) by lra. cbv zeta.
  assert (Hm : 69 + 12 * Js.log2 (2 * f / 440) = midiNum + IZR 12).
  { replace (2 * f / 440) with (2 * (f / 440)) by field.
    rewrite log2_double by (apply Rdiv_lt_0_compat; lra).
    subst midiNum. ring. }
  rewrite Hm.
  assert (Hr : Js.round (midiNum + IZR 12) = (Js.round midiNum + 12)%Z).
  { unfold Js.round.
    replace (midiNum + IZR 12 + / 2) with (midiNum + / 2 + IZR 12) by ring.
    apply Zfloor_addz. }
  rewrite Hr. set (n := Js.round midiNum).
  assert (Hmod : ((n + 12) mod 12 = n mod 12)%Z).
  { replace (n + 12)%Z with (n + 1 * 12)%Z by lia. apply Z.mod_add. lia. }
  assert (Hdiv : ((n + 12) / 12 - 1 = n / 12 - 1 + 1)%Z).
  { replace (n + 12)%Z with (n + 1 * 12)%Z by lia. rewrite Z.div_add by lia. lia. }
  rewrite Hmod, Hdiv. f_equal.
  - f_equal. rewrite plus_IZR. ring.
  - f_equal. rewrite plus_IZR.
    replace ((IZR n + 12 - 69) / 12) with (1 + (IZR n - 69) / 12) by field.
    rewrite pow2_plus, pow2_one. ring.
Qed.

(** The theorem at 220 Hz. *)
Lemma hzToNote_octave_witness :
  exists (n : Z) (cents target : R),
    hzToNote 220
    = mkNote (Some (Js.str_at NOTE_NAMES (n mod 12)
                    ++ Js.string_of_Z (n / 12 - 1))%string)
             (Some cents) (Some target)
    /\ hzToNote (2 * 220)
       = mkNote (Some (Js.str_at NOTE_NAMES (n mod 12)
                       ++ Js.string_of_Z (n / 12 - 1 + 1))%string)
                (Some cents) (Some (2 * target)).
Proof. apply (hzToNote_octave 220). lra. Defined.

End NoteMapperMore.

(* ================================================================== *)
(** ** Further properties of src/music.js: chroma, key and chords *)
(* ================================================================== *)

Section ChromaInvariants.
Import Music.
Local Open Scope R_scope.

(** The resonator output is a non-negative energy. *)
Lemma pitchClassEnergy_nonneg (frame : list R) (sampleRate freq : R) :
  0 <= pitchClassEnergy frame sampleRate freq.
Proof.
  unfold pitchClassEnergy.
  destruct (fold_left _ frame (0, 0)) as [s1 s2].
  pose proof (COS_bound (2 * PI * freq / sampleRate)) as [Hlo Hhi].
  set (c := cos (2 * PI * freq / sampleRate)) in *.
  pose proof (Rle_0_sqr (s1 - s2)) as Hm. pose proof (Rle_0_sqr (s1 + s2)) as Hp.
  unfold Rsqr in Hm, Hp.
  assert (H1 : 0 <= (1 + c) * ((s1 - s2) * (s1 - s2)))
    by (apply Rmult_le_pos; lra).
  assert (H2 : 0 <= (1 - c) * ((s1 + s2) * (s1 + s2)))
    by (apply Rmult_le_pos; lra).
  nra.
Qed.

Lemma octave_acc_nonneg (frame : list R) (sampleRate : R) (pitchClass : Z) :
  0 <= octave_acc frame sampleRate pitchClass.
Proof.
  unfold octave_acc. generalize (Js.range 2 6). intros octaves.
  assert (H : forall acc, 0 <= acc ->
            0 <= fold_left
                   (fun acc octave =>
                      if Js.ltb (440 * Js.pow2 ((IZR (12 * (octave + 1) + pitchClass) - 69) / 12)) 40
                         || Js.ltb (sampleRate / 2 - 100)
                              (440 * Js.pow2 ((IZR (12 * (octave + 1) + pitchClass) - 69) / 12))
                      then acc
                      else acc + pitchClassEnergy frame sampleRate
                             (440 * Js.pow2 ((IZR (12 * (octave + 1) + pitchClass) - 69) / 12)))
                   octaves acc); [ | apply H; lra].
  induction octaves as [| o os IH]; intros acc Hacc; [exact Hacc | ].
  rewrite fold_left_cons. apply IH.
  destruct (_ || _); [exact Hacc | ].
  pose proof (pitchClassEnergy_nonneg frame sampleRate
                (440 * Js.pow2 ((IZR (12 * (o + 1) + pitchClass) - 69) / 12))).
  lra.
Qed.

Lemma mapi_from_length {A B} (f : A -> Z -> B) (l : list A) (i : Z) :
  List.length (Js.mapi_from f l i) = List.length l.
Proof.
  revert i. induction l as [| x l IH]; intros i; [reflexivity | ].
  cbn [Js.mapi_from List.length]. now rewrite IH.
Qed.

Lemma add_frame_keeps (sampleRate : R) (chroma frame : list R) :
  Forall (fun c => 0 <= c) chroma ->
  List.length (add_frame sampleRate chroma frame) = List.length chroma
  /\ Forall (fun c => 0 <= c) (add_frame sampleRate chroma frame).
Proof.
  intros H. unfold add_frame, Js.mapi. split; [apply mapi_from_length | ].
  assert (G : forall k : Z,
            Forall (fun c => 0 <= c)
                   (Js.mapi_from
                      (fun c pitchClass => c + octave_acc frame sampleRate pitchClass)
                      chroma k)); [ | apply G].
  induction H as [| c cs Hc _ IH]; intros k; [constructor | ].
  cbn [Js.mapi_from]. constructor; [ | apply IH].
  pose proof (octave_acc_nonneg frame sampleRate k). lra.
Qed.

Lemma sum_squares_scale (xs : list R) (n a : R) :
  n <> 0 ->
  fold_left (fun acc x => acc + x * x) (map (fun c => c / n) xs) (a / (n * n))
  = fold_left (fun acc x => acc + x * x) xs a / (n * n).
Proof.
  intros Hn. revert a. induction xs as [| x xs IH]; intros a; [reflexivity | ].
  cbn [map]. rewrite !fold_left_cons, <- IH. f_equal. field. exact Hn.
Qed.

Lemma sum_squares_zero (xs : list R) :
  fold_left (fun acc x => acc + x * x) xs 0 = 0 -> Forall (fun x => x = 0) xs.
Proof.
  intros H. apply Forall_forall. intros y Hy.
  pose proof (proj2 (sum_squares_ge xs 0) y Hy) as Hs. rewrite H in Hs.
  pose proof (Rle_0_sqr y) as Hy2. unfold Rsqr in Hy2.
  destruct (Req_dec y 0) as [E | E]; [exact E | ].
  pose proof (Rsqr_pos_lt y E) as Hp. unfold Rsqr in Hp. lra.
Qed.

Lemma all_zero_is_repeat (xs : list R) :
  Forall (fun x => x = 0) xs -> xs = repeat 0 (List.length xs).
Proof.
  induction 1 as [| x xs Hx _ IH]; [reflexivity | ].
  subst x. cbn [List.length repeat]. now rewrite <- IH.
Qed.

(** X8. The chroma vector returned by [estimateChroma] always has twelve
    entries, none of them negative, and it is either of Euclidean length 1
    or the all-zero vector. *)
Theorem estimateChroma_unit_or_zero (xs : list R) (sampleRate : R) :
  List.length (estimateChroma xs sampleRate) = 12%nat
  /\ Forall (fun c => 0 <= c) (estimateChroma xs sampleRate)
  /\ (Js.hypot (estimateChroma xs sampleRate) = 1
      \/ estimateChroma xs sampleRate = Spec.zero_chroma).
Proof.
  assert (Hzero : List.length Spec.zero_chroma = 12%nat
                  /\ Forall (fun c => 0 <= c) Spec.zero_chroma).
  { split; [reflexivity | ]. apply Forall_forall. intros c Hc.
    apply repeat_spec in Hc. lra. }
  unfold estimateChroma. fold Spec.zero_chroma.
  destruct (_ <? 1024)%Z; [destruct Hzero; repeat split; auto | ].
  cbv zeta.
  set (frameSize := Z.min 4096 (Z.of_nat (List.length xs))).
  set (starts := Js.range_by 0 (Z.of_nat (List.length xs) - frameSize)
                             (Z.max 1024 (Js.floor (IZR frameSize / 2)))).
  assert (Hloop : forall (starts : list Z) (chroma : list R),
             List.length chroma = 12%nat /\ Forall (fun c => 0 <= c) chroma ->
             List.length
               (fold_left
                  (fun chroma start =>
                     add_frame sampleRate chroma
                               (Js.subarray xs start (start + frameSize)))
                  starts chroma) = 12%nat
             /\ Forall (fun c => 0 <= c)
                       (fold_left
                          (fun chroma start =>
                             add_frame sampleRate chroma
                                       (Js.subarray xs start (start + frameSize)))
                          starts chroma)).
  { induction starts0 as [| st sts IH]; intros chroma [Hl Hp]; [now split | ].
    rewrite fold_left_cons. apply IH.
    destruct (add_frame_keeps sampleRate chroma
                (Js.subarray xs st (st + frameSize)) Hp) as [Hl' Hp'].
    split; [now rewrite Hl' | exact Hp']. }
  destruct (Hloop starts Spec.zero_chroma Hzero) as [Hl Hp].
  set (chroma := fold_left _ starts Spec.zero_chroma) in *.
  pose proof (sqrt_pos (fold_left (fun acc x => acc + x * x) chroma 0)) as Hn.
  fold (Js.hypot chroma) in Hn.
  destruct (Rlt_dec 0 (Js.hypot chroma)) as [Hpos | Hnot].
  - rewrite ltb_true_of_lt by exact Hpos.
    split; [now rewrite length_map | split].
    + apply Forall_forall. intros y Hy. apply in_map_iff in Hy as (c & <- & Hc).
      rewrite Forall_forall in Hp. specialize (Hp c Hc).
      apply Rmult_le_pos; [exact Hp | ]. left. now apply Rinv_0_lt_compat.
    + left. unfold Js.hypot at 1.
      replace 0 with (0 / (Js.hypot chroma * Js.hypot chroma)) at 1 by (field; lra).
      rewrite sum_squares_scale by lra.
      assert (Hs : 0 <= fold_left (fun acc x => acc + x * x) chroma 0)
        by apply sum_squares_ge.
      unfold Js.hypot at 1 2. rewrite (sqrt_sqrt _ Hs).
      replace (_ / _) with 1; [apply sqrt_1 | ].
      field. intros E. unfold Js.hypot in Hpos. rewrite E, sqrt_0 in Hpos. lra.
  - rewrite ltb_false_of_le by lra.
    split; [exact Hl | split; [exact Hp | right]].
    assert (Hz : Js.hypot chroma = 0) by lra.
    unfold Js.hypot in Hz. apply sqrt_eq_0 in Hz; [ | apply sum_squares_ge].
    rewrite (all_zero_is_repeat chroma (sum_squares_zero chroma Hz)), Hl.
    reflexivity.
Qed.

End ChromaInvariants.

Section KeyInvariants.
Import Music.
Local Open Scope R_scope.

Lemma key_names_intro (i : Z) (suffix : string) :
  (0 <= i <= 11)%Z -> suffix = "Major"%string \/ suffix = "Minor"%string ->
  In (Js.str_at NOTE_NAMES i ++ " " ++ suffix)%string Spec.key_names.
Proof.
  intros Hi Hs.
  assert (Hc : (i = 0 \/ i = 1 \/ i = 2 \/ i = 3 \/ i = 4 \/ i = 5 \/ i = 6
                \/ i = 7 \/ i = 8 \/ i = 9 \/ i = 10 \/ i = 11)%Z) by lia.
  destruct Hs as [-> | ->];
    repeat (destruct Hc as [-> | Hc];
            [vm_compute; repeat first [left; reflexivity | right] | ]);
    subst i; vm_compute; repeat first [left; reflexivity | right].
Qed.

(** One candidate leaves a settled best pair: a finite score and one of the
    24 key names. *)
Lemma key_step_settles (chroma : list R) (i : Z) (best : score_t * option string)
      (template : list R) (suffix : string) :
  (0 <= i <= 11)%Z -> suffix = "Major"%string \/ suffix = "Minor"%string ->
  best = (NegInfinity, None)
  \/ (exists s k, best = (Score s, Some k) /\ In k Spec.key_names) ->
  exists s k, key_step chroma i best (template, suffix) = (Score s, Some k)
              /\ In k Spec.key_names.
Proof.
  intros Hi Hs Hbest. unfold key_step.
  assert (Hnew : exists s k,
             (Score (key_score chroma i template),
              Some (Js.str_at NOTE_NAMES i ++ " " ++ suffix)%string)
             = (Score s, Some k) /\ In k Spec.key_names).
  { eexists. eexists. split; [reflexivity | now apply key_names_intro]. }
  destruct Hbest as [-> | Hold]; [exact Hnew | ].
  destruct (score_gt _ _); [exact Hnew | exact Hold].
Qed.

Lemma key_templates_settle (chroma : list R) (i : Z)
      (best : score_t * option string) :
  (0 <= i <= 11)%Z ->
  best = (NegInfinity, None)
  \/ (exists s k, best = (Score s, Some k) /\ In k Spec.key_names) ->
  exists s k, fold_left (key_step chroma i) templates best = (Score s, Some k)
              /\ In k Spec.key_names.
Proof.
  intros Hi Hbest. unfold templates. rewrite !fold_left_cons.
  apply key_step_settles; [exact Hi | now right | right].
  apply key_step_settles; [exact Hi | now left | exact Hbest].
Qed.

Lemma key_search_settles (chroma : list R) :
  exists s k, key_search chroma = (Score s, Some k) /\ In k Spec.key_names.
Proof.
  unfold key_search.
  assert (Hr : Js.range 0 (Z.of_nat (List.length NOTE_NAMES) - 1)
               = 0%Z :: Js.range 1 11) by reflexivity.
  rewrite Hr, fold_left_cons.
  assert (Hloop : forall (roots : list Z) (best : score_t * option string),
             (forall i, In i roots -> (0 <= i <= 11)%Z) ->
             (exists s k, best = (Score s, Some k) /\ In k Spec.key_names) ->
             exists s k,
               fold_left (fun best i => fold_left (key_step chroma i) templates best)
                         roots best = (Score s, Some k)
               /\ In k Spec.key_names).
  { induction roots as [| i roots IH]; intros best Hin Hbest; [exact Hbest | ].
    rewrite fold_left_cons. apply IH.
    - intros j Hj. apply Hin. now right.
    - apply key_templates_settle; [apply Hin; now left | now right]. }
  apply Hloop.
  - intros i Hi. apply range_In in Hi. lia.
  - apply key_templates_settle; [lia | now left].
Qed.

Lemma clamp01_range (b : score_t) : 0 <= clamp01 b <= 1.
Proof.
  destruct b as [| s]; cbn [clamp01]; [lra | ].
  unfold Rmax, Rmin.
  destruct (Rle_dec 1 s); destruct (Rle_dec 0 _); lra.
Qed.

Lemma detectKey_early (xs : list R) (sampleRate : R) :
  xs = [] \/ sampleRate <= 0 -> detectKey xs sampleRate = mkKey None 0.
Proof.
  intros H. unfold detectKey.
  destruct H as [-> | H]; [reflexivity | ].
  rewrite (leb_true_of_le _ _ H). now rewrite orb_true_r.
Qed.

Lemma detectKey_search (xs : list R) (sampleRate : R) :
  xs <> [] -> 0 < sampleRate ->
  exists s k,
    detectKey xs sampleRate = mkKey (Some k) (clamp01 (Score s))
    /\ In k Spec.key_names.
Proof.
  intros Hxs Hsr. unfold detectKey.
  destruct xs as [| x xs]; [congruence | ].
  rewrite (leb_false_of_lt _ _ Hsr). cbn [List.length Nat.eqb orb].
  destruct (key_search_settles
              (estimateChroma (durationLimited (x :: xs) sampleRate) sampleRate))
    as (s & k & E & Hk).
  cbv zeta. rewrite E. exists s, k. split; [reflexivity | exact Hk].
Qed.

(** X9. [detectKey] reports a confidence between 0 and 1.  Its key name is
    [null] exactly for an empty signal or a sample rate that is not
    positive, and otherwise it is one of the 24 names made of a note name
    and ["Major"] or ["Minor"]. *)
Theorem detectKey_key_and_confidence (xs : list R) (sampleRate : R) :
  0 <= confidence (detectKey xs sampleRate) <= 1
  /\ (keyName (detectKey xs sampleRate) = None <-> xs = [] \/ sampleRate <= 0)
  /\ (forall k, keyName (detectKey xs sampleRate) = Some k ->
                In k Spec.key_names).
Proof.
  destruct (list_eq_dec Req_dec_T xs []) as [Hxs | Hxs];
    [ | destruct (Rle_dec sampleRate 0) as [Hsr | Hsr]].
  - rewrite detectKey_early by now left. cbn [keyName confidence].
    split; [lra | split; [tauto | discriminate]].
  - rewrite detectKey_early by now right. cbn [keyName confidence].
    split; [lra | split; [tauto | discriminate]].
  - destruct (detectKey_search xs sampleRate Hxs ltac:(lra)) as (s & k & -> & Hk).
    cbn [keyName confidence].
    split; [apply clamp01_range | split].
    + split; [discriminate | intros [E | E]; [congruence | lra]].
    + intros k' [= <-]. exact Hk.
Qed.

Lemma suggestChords_key_names (k : string) :
  In k Spec.key_names -> List.length (suggestChords (Some k)) = 7%nat.
Proof.
  intros H. unfold Spec.key_names, NOTE_NAMES in H. cbn [flat_map app] in H.
  repeat (destruct H as [<- | H]; [vm_compute; reflexivity | ]).
  contradiction.
Qed.

(** X10. The chords shown for an analysed clip: for a non-empty signal at a
    positive sample rate, [suggestChords] applied to the key name that
    [detectKey] returns yields exactly seven chords. *)
Theorem suggestChords_of_detected_key (xs : list R) (sampleRate : R) :
  xs <> [] -> 0 < sampleRate ->
  List.length (suggestChords (keyName (detectKey xs sampleRate))) = 7%nat.
Proof.
  intros Hxs Hsr.
  destruct (detectKey_search xs sampleRate Hxs Hsr) as (s & k & -> & Hk).
  cbn [keyName]. now apply suggestChords_key_names.
Qed.

Lemma suggestChords_of_detected_key_witness :
  List.length (suggestChords (keyName (detectKey [1] 22050))) = 7%nat.
Proof.
  apply suggestChords_of_detected_key; [discriminate | lra].
Defined.

(** X11. The chords of a minor key are those of its relative major, whose
    root lies three semitones higher, starting from the sixth degree. *)
Theorem suggestChords_relative_major (i : Z) :
  (0 <= i <= 11)%Z ->
  suggestChords (Some (Js.str_at NOTE_NAMES i ++ " Minor")%string)
  = skipn 5 (suggestChords
               (Some (Js.str_at NOTE_NAMES (Z.rem (i + 3) 12) ++ " Major")%string))
    ++ firstn 5 (suggestChords
                   (Some (Js.str_at NOTE_NAMES (Z.rem (i + 3) 12) ++ " Major")%string)).
Proof.
  intros Hi.
  assert (Hc : (i = 0 \/ i = 1 \/ i = 2 \/ i = 3 \/ i = 4 \/ i = 5 \/ i = 6
                \/ i = 7 \/ i = 8 \/ i = 9 \/ i = 10 \/ i = 11)%Z) by lia.
  repeat (destruct Hc as [-> | Hc]; [vm_compute; reflexivity | ]).
  subst i. vm_compute. reflexivity.
Qed.

Lemma suggestChords_relative_major_witness :
  suggestChords (Some "A Minor"%string)
  = skipn 5 (suggestChords (Some "C Major"%string))
    ++ firstn 5 (suggestChords (Some "C Major"%string)).
Proof.
  exact (suggestChords_relative_major 9 ltac:(lia)).
Defined.

End KeyInvariants.

(* ================================================================== *)
(** ** The points of the waveform polyline *)
(* ================================================================== *)

Section Waveform.
Import Music.
Local Open Scope R_scope.

Lemma floor_div_1000 (n : Z) : Js.floor (IZR n / 1000) = (n / 1000)%Z.
Proof.
  unfold Js.floor. apply Zfloor_eq.
  pose proof (Z.div_mod n 1000 ltac:(lia)) as Hd.
  pose proof (Z.mod_pos_bound n 1000 ltac:(lia)) as Hm.
  assert (Hn : IZR n = 1000 * IZR (n / 1000) + IZR (n mod 1000)).
  { rewrite Hd at 1. rewrite plus_IZR, mult_IZR. reflexivity. }
  assert (H0 : 0 <= IZR (n mod 1000)) by (apply IZR_le; lia).
  assert (H1 : IZR (n mod 1000) < 1000) by (apply IZR_lt; lia).
  lra.
Qed.

Lemma range_by_In (lo hi step i : Z) :
  (0 < step)%Z -> In i (Js.range_by lo hi step) -> (lo <= i <= hi)%Z.
Proof.
  intros Hs. unfold Js.range_by.
  destruct (Z.ltb_spec hi lo) as [Hlt | Hle]; [contradiction | ].
  rewrite in_map_iff. intros [k [<- Hk]]. apply in_seq in Hk.
  assert (Hq : (0 <= (hi - lo) / step)%Z) by (apply Z.div_pos; lia).
  assert (Hk' : (Z.of_nat k <= (hi - lo) / step)%Z) by lia.
  pose proof (Z.mul_div_le (hi - lo) step Hs) as Hm.
  nia.
Qed.

Lemma range_by_length (lo hi step : Z) :
  (lo <= hi)%Z ->
  List.length (Js.range_by lo hi step) = Z.to_nat ((hi - lo) / step + 1).
Proof.
  intros H. unfold Js.range_by.
  destruct (Z.ltb_spec hi lo); [lia | ].
  now rewrite length_map, length_seq.
Qed.

Lemma waveform_step_pos (count : Z) : (1 <= waveform_step count)%Z.
Proof. unfold waveform_step. lia. Qed.

(** At most 1999 points are drawn, whatever the length of the clip. *)
Lemma waveform_indices_length (samples : list R) (sampleRate : R) :
  (Z.of_nat (List.length (waveform_indices samples sampleRate)) <= 1999)%Z.
Proof.
  unfold waveform_indices. cbv zeta.
  set (count := waveform_count samples sampleRate).
  destruct (Z.ltb_spec 0 count) as [Hpos | Hneg]; [ | cbn; lia].
  rewrite range_by_length by lia.
  unfold waveform_step. rewrite floor_div_1000.
  replace (count - 1 - 0)%Z with (count - 1)%Z by lia.
  pose proof (Z.div_mod count 1000 ltac:(lia)) as Hd.
  pose proof (Z.mod_pos_bound count 1000 ltac:(lia)) as Hm.
  assert (Hq : (0 <= count / 1000)%Z) by (apply Z.div_pos; lia).
  destruct (Z_lt_le_dec count 2000) as [Hsmall | Hbig].
  - assert (Hle : ((count - 1) / Z.max 1 (count / 1000) <= count - 1)%Z).
    { apply Z.div_le_upper_bound; [lia | nia]. }
    assert (H0 : (0 <= (count - 1) / Z.max 1 (count / 1000))%Z)
      by (apply Z.div_pos; lia).
    lia.
  - assert (H2 : (2 <= count / 1000)%Z) by lia.
    assert (Hle : ((count - 1) / Z.max 1 (count / 1000) <= 1499)%Z).
    { apply Z.div_le_upper_bound; lia. }
    assert (H0 : (0 <= (count - 1) / Z.max 1 (count / 1000))%Z)
      by (apply Z.div_pos; lia).
    lia.
Qed.

Lemma waveform_indices_range (samples : list R) (sampleRate : R) (i : Z) :
  In i (waveform_indices samples sampleRate) ->
  (0 <= i < waveform_count samples sampleRate)%Z
  /\ (i < Z.of_nat (List.length samples))%Z.
Proof.
  unfold waveform_indices. cbv zeta.
  destruct (Z.ltb_spec 0 (waveform_count samples sampleRate)) as [Hpos | Hneg];
    [ | contradiction].
  intros Hi. apply range_by_In in Hi; [ | pose proof (waveform_step_pos
                                             (waveform_count samples sampleRate)); lia].
  unfold waveform_count in *. lia.
Qed.

Lemma waveform_first_index (samples : list R) (sampleRate : R) :
  (0 < waveform_count samples sampleRate)%Z ->
  exists rest, waveform_indices samples sampleRate = 0%Z :: rest.
Proof.
  intros Hpos. unfold waveform_indices, Js.range_by. cbv zeta.
  destruct (Z.ltb_spec 0 (waveform_count samples sampleRate)); [ | lia].
  destruct (Z.ltb_spec (waveform_count samples sampleRate - 1) 0); [lia | ].
  pose proof (waveform_step_pos (waveform_count samples sampleRate)) as Hs.
  assert (Hq : (0 <= (waveform_count samples sampleRate - 1 - 0)
                     / waveform_step (waveform_count samples sampleRate))%Z)
    by (apply Z.div_pos; lia).
  destruct (Z.to_nat _) as [| n] eqn:E; [lia | ].
  cbn [seq map]. eexists. f_equal.
Qed.

Lemma num_at_bounded (samples : list R) (i : Z) :
  Forall (fun x => Rabs x <= 1) samples -> Rabs (Js.num_at samples i) <= 1.
Proof.
  intros H. unfold Js.num_at.
  destruct (i <? 0)%Z; [rewrite Rabs_R0; lra | ].
  destruct (nth_in_or_default (Z.to_nat i) samples 0) as [Hin | ->].
  - rewrite Forall_forall in H. now apply H.
  - rewrite Rabs_R0. lra.
Qed.

(** X12. The polyline of the waveform picture has at most 1999 points; every
    point reads a sample inside the clip and has its x coordinate in
    [0, 1000); and when the clip has a sample and the sample rate covers
    one, the first point is drawn at x = 0. *)
Theorem waveform_points_in_canvas (samples : list R) (sampleRate : R) :
  (Z.of_nat (List.length (waveform_points samples sampleRate)) <= 1999)%Z
  /\ Forall (fun i => (0 <= i < Z.of_nat (List.length samples))%Z)
            (waveform_indices samples sampleRate)
  /\ Forall (fun p => 0 <= fst p < 1000) (waveform_points samples sampleRate)
  /\ ((waveform_count samples sampleRate <= 0)%Z
      /\ waveform_points samples sampleRate = []
      \/ (0 < waveform_count samples sampleRate)%Z
         /\ exists rest,
              waveform_points samples sampleRate
              = (0, 320 / 2 - Js.num_at samples 0 * (320 * (42 / 100))) :: rest).
Proof.
  split; [ | split; [ | split]].
  - unfold waveform_points. cbv zeta. rewrite length_map.
    apply waveform_indices_length.
  - apply Forall_forall. intros i Hi.
    apply waveform_indices_range in Hi. lia.
  - unfold waveform_points. cbv zeta. apply Forall_map, Forall_forall.
    intros i Hi. apply waveform_indices_range in Hi as [[H0 Hc] _].
    cbn [fst].
    assert (Hi0 : 0 <= IZR i) by (apply IZR_le; lia).
    assert (Hic : IZR i < IZR (waveform_count samples sampleRate))
      by (apply IZR_lt; lia).
    assert (Hcp : 0 < IZR (waveform_count samples sampleRate)) by lra.
    assert (Hq : 0 <= IZR i / IZR (waveform_count samples sampleRate) < 1).
    { split.
      - apply Rmult_le_pos; [exact Hi0 | left; now apply Rinv_0_lt_compat].
      - apply (Rmult_lt_reg_r (IZR (waveform_count samples sampleRate)));
          [exact Hcp | ].
        unfold Rdiv. rewrite Rmult_assoc, Rinv_l by lra. lra. }
    lra.
  - destruct (Z_lt_le_dec 0 (waveform_count samples sampleRate)) as [Hpos | Hneg].
    + right. split; [exact Hpos | ].
      destruct (waveform_first_index samples sampleRate Hpos) as [rest E].
      unfold waveform_points. cbv zeta. rewrite E. cbn [map].
      eexists. f_equal. f_equal. unfold Rdiv. ring.
    + left. split; [exact Hneg | ].
      unfold waveform_points, waveform_indices. cbv zeta.
      destruct (Z.ltb_spec 0 (waveform_count samples sampleRate)); [lia | ].
      reflexivity.
Qed.

(** X13. When every sample lies in [-1, 1], as after decoding, every point
    of the polyline lies between y = 25.6 and y = 294.4, inside the picture
    of height 320. *)
Theorem waveform_points_height (samples : list R) (sampleRate : R) :
  Forall (fun x => Rabs x <= 1) samples ->
  Forall (fun p => 256 / 10 <= snd p <= 2944 / 10)
         (waveform_points samples sampleRate).
Proof.
  intros H. unfold waveform_points. cbv zeta.
  apply Forall_map, Forall_forall. intros i _. cbn [snd].
  pose proof (num_at_bounded samples i H) as Hb.
  unfold Rabs in Hb. destruct (Rcase_abs (Js.num_at samples i)); lra.
Qed.

Lemma waveform_points_height_witness :
  Forall (fun p => 256 / 10 <= snd p <= 2944 / 10)
         (waveform_points [1; -1; 1 / 2] 22050).
Proof.
  apply waveform_points_height.
  repeat (apply Forall_cons;
          [unfold Rabs; destruct (Rcase_abs _); lra | ]).
  apply Forall_nil.
Defined.

End Waveform.

(* ================================================================== *)
(** ** Further properties of src/audio.js: mixing, resampling, clipping *)
(* ================================================================== *)

Section Mixdown.
Import Audio.
Local Open Scope R_scope.

Lemma nth_bounded (l : list R) (i : nat) (M : R) :
  0 <= M -> Forall (fun x => Rabs x <= M) l -> Rabs (nth i l 0) <= M.
Proof.
  intros HM H. destruct (nth_in_or_default i l 0) as [Hin | ->].
  - rewrite Forall_forall in H. now apply H.
  - rewrite Rabs_R0. exact HM.
Qed.

Lemma num_at_bounded_by (l : list R) (i : Z) (M : R) :
  0 <= M -> Forall (fun x => Rabs x <= M) l -> Rabs (Js.num_at l i) <= M.
Proof.
  intros HM H. unfold Js.num_at.
  destruct (i <? 0)%Z; [rewrite Rabs_R0; exact HM | now apply nth_bounded].
Qed.

Lemma mergeChannels_many (first second : list R) (rest : list (list R)) :
  mergeChannels (first :: second :: rest)
  = map (fun i =>
           fold_left (fun sum channel => sum + nth i channel 0)
                     (first :: second :: rest) 0
           / INR (List.length (first :: second :: rest)))
        (seq 0 (List.length first)).
Proof. reflexivity. Qed.

(** The sum over the channels at one index is at most the number of
    channels times the bound of the samples. *)
Lemma channel_sum_bounded (channels : list (list R)) (i : nat) (M a : R) :
  0 <= M -> Forall (Forall (fun x => Rabs x <= M)) channels ->
  Rabs (fold_left (fun sum channel => sum + nth i channel 0) channels a)
  <= Rabs a + INR (List.length channels) * M.
Proof.
  intros HM H. revert a.
  induction H as [| ch chs Hch _ IH]; intros a.
  - cbn [fold_left List.length INR]. lra.
  - rewrite fold_left_cons. eapply Rle_trans; [apply IH | ].
    change (List.length (ch :: chs)) with (S (List.length chs)).
    rewrite S_INR.
    pose proof (Rabs_triang a (nth i ch 0)) as Ht.
    pose proof (nth_bounded ch i M HM Hch) as Hn.
    lra.
Qed.

Lemma channel_sum_repeat (channel : list R) (n i : nat) (a : R) :
  fold_left (fun sum channel => sum + nth i channel 0) (repeat channel n) a
  = a + INR n * nth i channel 0.
Proof.
  revert a. induction n as [| n IH]; intros a.
  - cbn [repeat fold_left INR]. ring.
  - change (repeat channel (S n)) with (channel :: repeat channel n).
    rewrite fold_left_cons, IH, S_INR. ring.
Qed.

Lemma map_nth_seq (l : list R) :
  map (fun i => nth i l 0) (seq 0 (List.length l)) = l.
Proof.
  apply (nth_ext _ _ 0 0).
  - now rewrite length_map, length_seq.
  - intros k Hk. rewrite length_map, length_seq in Hk.
    rewrite (nth_indep _ 0 (nth 0%nat l 0)) by now rewrite length_map, length_seq.
    rewrite (map_nth (fun i => nth i l 0) (seq 0 (List.length l)) 0%nat k).
    now rewrite seq_nth.
Qed.

Lemma mergeChannels_length (first : list R) (rest : list (list R)) :
  List.length (mergeChannels (first :: rest)) = List.length first.
Proof.
  destruct rest as [| second rest]; [reflexivity | ].
  rewrite mergeChannels_many. now rewrite length_map, length_seq.
Qed.

Lemma mergeChannels_keeps_bound (channels : list (list R)) (M : R) :
  0 <= M ->
  Forall (Forall (fun x => Rabs x <= M)) channels ->
  Forall (fun y => Rabs y <= M) (mergeChannels channels).
Proof.
  intros HM H. destruct channels as [| first [| second rest]].
  - constructor.
  - now inversion H.
  - rewrite mergeChannels_many.
    apply Forall_map, Forall_forall. intros i _.
    pose proof (channel_sum_bounded (first :: second :: rest) i M 0 HM H) as Hs.
    rewrite Rabs_R0 in Hs.
    set (sum := fold_left _ _ 0) in *.
    set (n := INR (List.length (first :: second :: rest))) in *.
    assert (Hn : 0 < n).
    { subst n. apply lt_0_INR. cbn [List.length]. lia. }
    apply Rabs_bounds in Hs. apply Rabs_bounds.
    assert (Hq : 0 < / n) by now apply Rinv_0_lt_compat.
    assert (Hnq : n * / n = 1) by (apply Rinv_r; lra).
    unfold Rdiv.
    assert (H1 : 0 <= (0 + n * M - sum) * / n) by (apply Rmult_le_pos; lra).
    assert (H2 : 0 <= (sum + (0 + n * M)) * / n) by (apply Rmult_le_pos; lra).
    nra.
Qed.

(** X14. Mixing channels down keeps the length of the first channel and
    never leaves the amplitude range of its inputs: when every sample of
    every channel is at most [M] in absolute value, so is every mixed
    sample. *)
Theorem mergeChannels_bounded (first : list R) (rest : list (list R)) (M : R) :
  0 <= M ->
  Forall (Forall (fun x => Rabs x <= M)) (first :: rest) ->
  List.length (mergeChannels (first :: rest)) = List.length first
  /\ Forall (fun y => Rabs y <= M) (mergeChannels (first :: rest)).
Proof.
  intros HM H. split.
  - apply mergeChannels_length.
  - now apply mergeChannels_keeps_bound.
Qed.

Lemma mergeChannels_bounded_witness :
  List.length (mergeChannels [[1; 0]; [0; -1]]) = 2%nat
  /\ Forall (fun y => Rabs y <= 1) (mergeChannels [[1; 0]; [0; -1]]).
Proof.
  apply mergeChannels_bounded; [lra | ].
  repeat (apply Forall_cons;
          [repeat (apply Forall_cons; [apply Rabs_bounds; lra | ]);
           apply Forall_nil | ]).
  apply Forall_nil.
Defined.

(** X15. Channels that all carry the same signal mix down to that signal. *)
Theorem mergeChannels_identical (channel : list R) (n : nat) :
  mergeChannels (repeat channel (S n)) = channel.
Proof.
  destruct n as [| n]; [reflexivity | ].
  change (repeat channel (S (S n)))
    with (channel :: channel :: repeat channel n).
  rewrite mergeChannels_many.
  change (channel :: channel :: repeat channel n)
    with (repeat channel (S (S n))).
  rewrite repeat_length.
  transitivity (map (fun i => nth i channel 0) (seq 0 (List.length channel)));
    [ | apply map_nth_seq].
  apply map_ext. intros i.
  rewrite channel_sum_repeat.
  assert (Hn : INR (S (S n)) <> 0) by (apply not_0_INR; lia).
  field. exact Hn.
Qed.

End Mixdown.

Section ResampleAndClip.
Import Audio.
Local Open Scope R_scope.

(** One output sample of the resampler is a blend of two input samples
    with weights [1 - frac] and [frac], [0 <= frac < 1]. *)
Lemma resample_at_bounded (xs : list R) (ratio : R) (i : Z) (M : R) :
  0 <= M -> Forall (fun x => Rabs x <= M) xs ->
  Rabs (resample_at xs ratio i) <= M.
Proof.
  intros HM H. unfold resample_at. cbv zeta.
  set (srcPos := IZR i / ratio).
  pose proof (Zfloor_bound srcPos) as [Hlo Hhi].
  unfold Js.floor.
  pose proof (num_at_bounded_by xs (Zfloor srcPos) M HM H) as Ha.
  pose proof (num_at_bounded_by xs
                (Z.min (Z.of_nat (List.length xs) - 1) (Zfloor srcPos + 1))
                M HM H) as Hb.
  apply Rabs_bounds in Ha, Hb. apply Rabs_bounds.
  set (a := Js.num_at xs (Zfloor srcPos)) in *.
  set (b := Js.num_at xs _) in *.
  set (frac := srcPos - IZR (Zfloor srcPos)).
  assert (Hf : 0 <= frac < 1) by (subst frac; lra).
  nra.
Qed.

Lemma maybeResample_keeps_bound (xs : list R) (rate target M : R) :
  0 <= M -> Forall (fun x => Rabs x <= M) xs ->
  Forall (fun y => Rabs y <= M) (samples (maybeResample xs rate target)).
Proof.
  intros HM H. unfold maybeResample.
  destruct (_ || _); cbn [samples]; [exact H | ].
  apply Forall_map, Forall_forall. intros i _.
  now apply resample_at_bounded.
Qed.

Lemma maybeResample_target_rate (xs : list R) (rate target : R) :
  xs <> [] ->
  samples (maybeResample xs rate target) <> []
  /\ sampleRate (maybeResample xs rate target) = target.
Proof.
  intros Hne. unfold maybeResample.
  destruct xs as [| x xs]; [congruence | ].
  cbn [List.length Nat.eqb orb].
  unfold Js.eqb. destruct (Req_dec_T rate target) as [E | E].
  - cbn [samples sampleRate]. split; [discriminate | exact E].
  - cbv zeta. cbn [samples sampleRate]. split; [ | reflexivity].
    intros Hnil. apply (f_equal (@List.length R)) in Hnil.
    rewrite length_map, range_length in Hnil. cbn [List.length] in Hnil.
    unfold outLength_of in Hnil. lia.
Qed.

(** X16. For a source rate and a target rate between 1 Hz and [2 ^ 53] Hz
    (their ratio is then a positive number, neither [Infinity] nor [NaN]),
    resampling in exact arithmetic never leaves the amplitude range of its
    input: when every input sample is at most [M] in absolute value, so is
    every output sample; and a non-empty input gives a non-empty output at
    the target rate. *)
Theorem maybeResample_bounded (xs : list R) (rate target M : R) :
  1 <= rate <= 9007199254740992 -> 1 <= target <= 9007199254740992 ->
  0 <= M -> Forall (fun x => Rabs x <= M) xs ->
  Forall (fun y => Rabs y <= M) (samples (maybeResample xs rate target))
  /\ (xs <> [] ->
      samples (maybeResample xs rate target) <> []
      /\ sampleRate (maybeResample xs rate target) = target).
Proof.
  intros _ _ HM H. split.
  - now apply maybeResample_keeps_bound.
  - apply maybeResample_target_rate.
Qed.

Lemma maybeResample_bounded_witness :
  Forall (fun y => Rabs y <= 1) (samples (maybeResample [1; -1] 44100 22050))
  /\ ([1; -1] <> [] ->
      samples (maybeResample [1; -1] 44100 22050) <> []
      /\ sampleRate (maybeResample [1; -1] 44100 22050) = 22050).
Proof.
  apply maybeResample_bounded; [lra | lra | lra | ].
  repeat (apply Forall_cons; [apply Rabs_bounds; lra | ]).
  apply Forall_nil.
Defined.








(** X19. When the decoder returns no sample, [decodeAudioFile] returns the
    empty signal with the decoder's own sample rate, not 22050 Hz. *)
Theorem finish_decode_empty (rate maxSeconds : R) :
  finish_decode (mkPcm [] rate) maxSeconds = mkPcm [] rate.
Proof.
  unfold finish_decode. cbv zeta. cbn [samples sampleRate].
  unfold maybeResample. cbn [List.length Nat.eqb orb samples sampleRate].
  unfold clipDuration, Js.subarray_to. cbv zeta.
  destruct (_ <=? _)%Z; [reflexivity | ].
  destruct (_ <? _)%Z; now rewrite firstn_nil.
Qed.

End ResampleAndClip.

(* ================================================================== *)
(** ** Further properties of decodeWav: sample values and safety *)
(* ================================================================== *)

Section SampleValues.
Import Audio.

Lemma getUint8_in_bounds (view : buffer) (off : Z) :
  0 <= off -> off + 1 <= byteLength view ->
  getUint8 view off = Return (byte_at view off).
Proof. intros H0 H1. unfold getUint8. now rewrite in_bounds_true. Qed.

Lemma land_shiftl_low (a b n : Z) :
  0 <= n -> 0 <= b < 2 ^ n -> Z.land (Z.shiftl a n) b = 0.
Proof.
  intros Hn Hb. apply Z.bits_inj'. intros m Hm.
  rewrite Z.land_spec, Z.bits_0.
  destruct (Z_lt_le_dec m n) as [Hlt | Hge].
  - rewrite Z.shiftl_spec_low by lia. reflexivity.
  - replace (Z.testbit b m) with false; [apply andb_false_r | ].
    symmetry. destruct (Z.eq_dec b 0) as [-> | Hb0]; [apply Z.bits_0 | ].
    apply Z.bits_above_log2; [lia | ].
    apply Z.lt_le_trans with n; [ | lia]. apply Z.log2_lt_pow2; lia.
Qed.

Lemma lor_shiftl_add (a b n : Z) :
  0 <= n -> 0 <= b < 2 ^ n -> Z.lor (Z.shiftl a n) b = a * 2 ^ n + b.
Proof.
  intros Hn Hb. pose proof (Z.add_lor_land (Z.shiftl a n) b) as H.
  rewrite (land_shiftl_low a b n Hn Hb) in H.
  rewrite Z.shiftl_mul_pow2 in * by lia. lia.
Qed.

(** [(b2 << 16) | (b1 << 8) | b0] is the little-endian value of the bytes. *)
Lemma int24_value (b0 b1 b2 : Z) :
  0 <= b0 <= 255 -> 0 <= b1 <= 255 -> 0 <= b2 <= 255 ->
  Z.lor (Z.lor (Z.shiftl b2 16) (Z.shiftl b1 8)) b0
  = b0 + 256 * b1 + 65536 * b2.
Proof.
  intros H0 H1 H2. rewrite <- Z.lor_assoc.
  rewrite (lor_shiftl_add b1 b0 8) by lia.
  rewrite (lor_shiftl_add b2 (b1 * 2 ^ 8 + b0) 16) by lia.
  lia.
Qed.

Lemma land_sign_bit (q r : Z) :
  0 <= r < 2 ^ 23 ->
  Z.land (Z.lor (Z.shiftl q 23) r) (Z.shiftl 1 23) = Z.shiftl (Z.land q 1) 23.
Proof.
  intros Hr.
  rewrite Z.land_lor_distr_l, <- Z.shiftl_land.
  rewrite (Z.land_comm r), (land_shiftl_low 1 r 23) by lia.
  apply Z.lor_0_r.
Qed.

(** [int & 0x800000] tests the sign bit of a 24-bit pattern. *)
Lemma bit23_test (int : Z) :
  0 <= int < 16777216 ->
  (Z.land int 8388608 =? 0) = (int <? 8388608).
Proof.
  intros Hr.
  pose proof (Z.div_mod int 8388608 ltac:(lia)) as Hd.
  pose proof (Z.mod_pos_bound int 8388608 ltac:(lia)) as Hm.
  set (q := int / 8388608) in *. set (r := int mod 8388608) in *.
  assert (Hq : q = 0 \/ q = 1).
  { assert (0 <= q) by (apply Z.div_pos; lia).
    assert (q < 2) by (apply Z.div_lt_upper_bound; lia).
    lia. }
  assert (Hint : int = Z.lor (Z.shiftl q 23) r).
  { rewrite lor_shiftl_add by (change (2 ^ 23) with 8388608; lia).
    change (2 ^ 23) with 8388608. lia. }
  assert (Hland : Z.land int 8388608 = Z.shiftl (Z.land q 1) 23).
  { rewrite Hint. apply land_sign_bit. change (2 ^ 23) with 8388608. lia. }
  rewrite Hland.
  destruct Hq as [Hq | Hq]; rewrite Hq; cbn.
  - symmetry. apply Z.ltb_lt. lia.
  - symmetry. apply Z.ltb_ge. lia.
Qed.

(** The sign extension [if (int & 0x800000) int |= 0xff000000] turns a
    24-bit pattern into its two's complement value. *)
Lemma sign_extend_24 (int : Z) :
  0 <= int < 16777216 ->
  (if Z.land int 8388608 =? 0 then int else to_int32 (Z.lor int 4278190080))
  = to_signed 24 int.
Proof.
  intros Hr. rewrite bit23_test by exact Hr. unfold to_signed.
  change (2 ^ (24 - 1)) with 8388608. change (2 ^ 24) with 16777216.
  destruct (Z.ltb_spec int 8388608) as [Hlt | Hge]; [reflexivity | ].
  rewrite Z.lor_comm. change 4278190080 with (Z.shiftl 255 24).
  rewrite lor_shiftl_add by (change (2 ^ 24) with 16777216; lia).
  change (2 ^ 24) with 16777216. unfold to_int32.
  replace (255 * 16777216 + int + 2147483648)
    with (int + 2130706432 + 1 * 4294967296) by lia.
  rewrite Z.mod_add by lia. rewrite Z.mod_small by lia. lia.
Qed.

Lemma to_signed_range (w x : Z) :
  1 <= w -> 0 <= x < 2 ^ w -> - 2 ^ (w - 1) <= to_signed w x < 2 ^ (w - 1).
Proof.
  intros Hw Hx. unfold to_signed.
  assert (Hp : 2 ^ w = 2 * 2 ^ (w - 1)).
  { replace w with (Z.succ (w - 1)) at 1 by lia.
    rewrite Z.pow_succ_r by lia. reflexivity. }
  destruct (Z.ltb_spec x (2 ^ (w - 1))); lia.
Qed.

Lemma le_uint24_range (view : buffer) (off : Z) :
  0 <= Spec.le_uint24 view off < 16777216.
Proof.
  unfold Spec.le_uint24.
  pose proof (byte_at_range view off).
  pose proof (byte_at_range view (off + 1)).
  pose proof (byte_at_range view (off + 2)).
  lia.
Qed.

Lemma pcm_int_range (view : buffer) (bits off : Z) :
  Spec.supported_bits bits = true ->
  - 2 ^ (bits - 1) <= Spec.pcm_int view bits off < 2 ^ (bits - 1).
Proof.
  intros Hs. unfold Spec.supported_bits in Hs. unfold Spec.pcm_int.
  destruct (Z.eqb_spec bits 8) as [-> | H8].
  { pose proof (byte_at_range view off). change (2 ^ (8 - 1)) with 128. lia. }
  destruct (Z.eqb_spec bits 16) as [-> | H16].
  { apply to_signed_range; [lia | ]. change (2 ^ 16) with 65536.
    apply le_uint16_range. }
  destruct (Z.eqb_spec bits 24) as [-> | H24].
  { apply to_signed_range; [lia | ]. change (2 ^ 24) with 16777216.
    apply le_uint24_range. }
  destruct (Z.eqb_spec bits 32) as [-> | H32]; [ | discriminate].
  apply to_signed_range; [lia | ]. change (2 ^ 32) with 4294967296.
  apply le_uint32_range.
Qed.

(** An integer PCM sample inside the buffer is decoded to its integer
    value over [2 ^ (bits - 1)]. *)
Lemma decode_sample_value (view : buffer) (fmt : WavFormat)
      (dataOffset i channel : Z) :
  Spec.supported_bits (bitsPerSample fmt) = true ->
  audioFormat fmt <> 3 \/ bitsPerSample fmt <> 32 ->
  0 <= dataOffset + (i * numChannels fmt + channel) * (bitsPerSample fmt / 8) ->
  dataOffset + (i * numChannels fmt + channel) * (bitsPerSample fmt / 8)
  + bitsPerSample fmt / 8 <= byteLength view ->
  decode_sample view fmt dataOffset i channel
  = Return (IZR (Spec.pcm_int view (bitsPerSample fmt)
                   (dataOffset + (i * numChannels fmt + channel)
                                 * (bitsPerSample fmt / 8)))
            / IZR (2 ^ (bitsPerSample fmt - 1)))%R.
Proof.
  destruct fmt as [af nc sr bits]. cbn [bitsPerSample audioFormat numChannels].
  intros Hs Hfloat Hlo Hhi.
  unfold decode_sample. cbn [bitsPerSample audioFormat numChannels]. cbv zeta.
  set (idx := dataOffset + (i * nc + channel) * (bits / 8)) in *.
  unfold Spec.supported_bits in Hs. unfold Spec.pcm_int.
  assert (Hnf : (af =? 3) && (bits =? 32) = false).
  { destruct (Z.eqb_spec af 3); destruct (Z.eqb_spec bits 32);
      try reflexivity. lia. }
  rewrite Hnf.
  destruct (Z.eqb_spec bits 8) as [E8 | H8].
  { subst bits. change (8 =? 16) with false. change (8 =? 24) with false.
    change (8 =? 32) with false. change (8 / 8) with 1 in *. cbv iota.
    rewrite getUint8_in_bounds by lia. cbn [bind].
    change (2 ^ (8 - 1)) with 128. now rewrite minus_IZR. }
  destruct (Z.eqb_spec bits 16) as [E16 | H16].
  { subst bits. change (16 / 8) with 2 in *.
    unfold getInt16. rewrite getUint16_in_bounds by lia. cbn [bind].
    reflexivity. }
  destruct (Z.eqb_spec bits 24) as [E24 | H24].
  { subst bits. change (24 / 8) with 3 in *.
    rewrite !getUint8_in_bounds by lia. cbn [bind].
    pose proof (byte_at_range view idx) as R0.
    pose proof (byte_at_range view (idx + 1)) as R1.
    pose proof (byte_at_range view (idx + 2)) as R2.
    rewrite (int24_value _ _ _ R0 R1 R2).
    fold (Spec.le_uint24 view idx).
    rewrite (sign_extend_24 _ (le_uint24_range view idx)).
    reflexivity. }
  destruct (Z.eqb_spec bits 32) as [E32 | H32]; [ | discriminate].
  subst bits. change (32 / 8) with 4 in *.
  unfold getInt32. rewrite getUint32_in_bounds by lia. cbn [bind].
  reflexivity.
Qed.

(** The value of a single-precision pattern, other than an infinity or
    NaN, is stored as it is. *)
Lemma fround_float32_value (bits : Z) :
  Z.land (Z.shiftr bits 23) 255 <> 255 ->
  Js.fround (float32_value bits) = float32_value bits.
Proof.
  intros He. unfold float32_value. cbv zeta.
  assert (Hm : 0 <= Z.land bits 8388607 < 8388608).
  { change 8388607 with (Z.ones 23). rewrite Z.land_ones by lia.
    change 8388608 with (2 ^ 23). apply Z.mod_pos_bound. lia. }
  assert (Hexp : 0 <= Z.land (Z.shiftr bits 23) 255 < 256).
  { change 255 with (Z.ones 8). rewrite Z.land_ones by lia.
    change 256 with (2 ^ 8). apply Z.mod_pos_bound. lia. }
  set (e := Z.land (Z.shiftr bits 23) 255) in *.
  set (m := Z.land bits 8388607) in *.
  unfold Js.fround.
  destruct (Z.testbit bits 31); destruct (Z.eqb_spec e 0) as [E0 | N0];
    rewrite <- mult_IZR; apply round_to_exact;
    change (2 ^ 24) with 16777216; lia.
Qed.

End SampleValues.

Section DecoderSafety.
Import Audio.

Lemma traverse_Forall {A B} (f : A -> outcome B) (P : B -> Prop) (l : list A) :
  (forall x, In x l -> exists y, f x = Return y /\ P y) ->
  exists ys, traverse f l = Return ys
             /\ List.length ys = List.length l /\ Forall P ys.
Proof.
  induction l as [| x l IH]; intros H.
  - exists []. repeat split. constructor.
  - destruct (H x (or_introl eq_refl)) as (y & Hy & Py).
    destruct IH as (ys & Hys & Hlen & HP); [intros z Hz; apply H; now right | ].
    exists (y :: ys). cbn [traverse]. rewrite Hy. cbn [bind]. rewrite Hys.
    cbn [bind List.length]. split; [reflexivity | split; [now rewrite Hlen | ]].
    now constructor.
Qed.

(** Every read of the sample loop is inside the buffer: the loop covers
    [totalSamples] whole frames of the data that is present. *)
Lemma sample_index_in_bounds (view : buffer) (bits nc dataOffset dataSize i channel : Z) :
  Spec.supported_bits bits = true -> 1 <= nc ->
  0 <= dataOffset <= byteLength view ->
  0 <= i < 8 * Z.max 0 (Z.min dataSize (byteLength view - dataOffset)) / (bits * nc) ->
  0 <= channel < nc ->
  0 <= dataOffset + (i * nc + channel) * (bits / 8)
  /\ dataOffset + (i * nc + channel) * (bits / 8) + bits / 8 <= byteLength view.
Proof.
  intros Hs Hnc Hoff Hi Hch.
  set (avail := Z.max 0 (Z.min dataSize (byteLength view - dataOffset))) in *.
  assert (Havail : 0 <= avail <= byteLength view - dataOffset) by (subst avail; lia).
  assert (Hbps : exists bps, 1 <= bps <= 4 /\ bits = 8 * bps /\ bits / 8 = bps).
  { unfold Spec.supported_bits in Hs.
    destruct (Z.eqb_spec bits 8) as [-> | ?]; [exists 1; now repeat split | ].
    destruct (Z.eqb_spec bits 16) as [-> | ?]; [exists 2; now repeat split | ].
    destruct (Z.eqb_spec bits 24) as [-> | ?]; [exists 3; now repeat split | ].
    destruct (Z.eqb_spec bits 32) as [-> | ?]; [exists 4; now repeat split | ].
    discriminate. }
  destruct Hbps as (bps & Hb & Ebits & Ediv). rewrite Ediv.
  assert (Htot : 8 * avail / (bits * nc) = avail / (bps * nc)).
  { rewrite Ebits, <- Z.mul_assoc. apply Z.div_mul_cancel_l; nia. }
  rewrite Htot in Hi.
  pose proof (Z.mul_div_le avail (bps * nc) ltac:(nia)) as Hm.
  set (total := avail / (bps * nc)) in *.
  assert (Hrow : i * nc <= (total - 1) * nc)
    by (apply Z.mul_le_mono_nonneg_r; lia).
  assert (Hcell : i * nc + channel + 1 <= total * nc)
    by (rewrite Z.mul_sub_distr_r in Hrow; lia).
  assert (Hframe : (i * nc + channel + 1) * bps <= total * nc * bps)
    by (apply Z.mul_le_mono_nonneg_r; lia).
  assert (Hpos : 0 <= (i * nc + channel) * bps)
    by (apply Z.mul_nonneg_nonneg; [apply Z.add_nonneg_nonneg; [apply Z.mul_nonneg_nonneg | ] | ]; lia).
  replace (bps * nc * total) with (total * nc * bps) in Hm by ring.
  rewrite Z.mul_add_distr_r in Hframe. lia.
Qed.

(** The sample loop on a supported bit depth returns one frame for each of
    the [totalSamples] frames, each with one value for each channel. *)
Lemma decode_frames_returns (view : buffer) (fmt : WavFormat)
      (dataOffset dataSize : Z) (P : R -> Prop) :
  (forall i channel,
      0 <= i < 8 * Z.max 0 (Z.min dataSize (byteLength view - dataOffset))
                 / (bitsPerSample fmt * numChannels fmt) ->
      0 <= channel < numChannels fmt ->
      exists v, stored_sample view fmt dataOffset i channel = Return v /\ P v) ->
  exists frames,
    decode_frames view fmt dataOffset
      (8 * Z.max 0 (Z.min dataSize (byteLength view - dataOffset))
       / (bitsPerSample fmt * numChannels fmt))
    = Return frames
    /\ List.length frames
       = Z.to_nat (8 * Z.max 0 (Z.min dataSize (byteLength view - dataOffset))
                   / (bitsPerSample fmt * numChannels fmt))
    /\ Forall (fun frame =>
                 List.length frame = Z.to_nat (numChannels fmt)
                 /\ Forall P frame) frames.
Proof.
  intros H. unfold decode_frames.
  set (total := 8 * _ / _) in *.
  destruct (traverse_Forall
              (fun i => traverse (stored_sample view fmt dataOffset i)
                                 (Js.range 0 (numChannels fmt - 1)))
              (fun frame => List.length frame = Z.to_nat (numChannels fmt)
                            /\ Forall P frame)
              (Js.range 0 (total - 1))) as (frames & Hfr & Hlen & HP).
  - intros i Hi. apply range_In in Hi.
    destruct (traverse_Forall (stored_sample view fmt dataOffset i) P
                (Js.range 0 (numChannels fmt - 1))) as (frame & Hf & Hl & Hp).
    + intros channel Hc. apply range_In in Hc. apply H; lia.
    + exists frame. split; [exact Hf | split; [ | exact Hp]].
      rewrite Hl, range_length. f_equal. lia.
  - exists frames. split; [exact Hfr | split; [ | exact HP]].
    rewrite Hlen, range_length. f_equal. lia.
Qed.

Lemma channels_of_frames_shape (nc : Z) (frames : list (list R)) (P : R -> Prop) :
  Forall (fun frame => List.length frame = Z.to_nat nc /\ Forall P frame) frames ->
  Forall (fun channel => List.length channel = List.length frames
                         /\ Forall P channel)
         (channels_of_frames nc frames).
Proof.
  intros H. unfold channels_of_frames.
  apply Forall_map, Forall_forall. intros channel Hc. apply range_In in Hc.
  split; [apply length_map | ].
  apply Forall_map. eapply Forall_impl; [ | exact H].
  intros frame [Hl Hp]. cbv beta.
  rewrite Forall_forall in Hp. apply Hp. apply nth_In. lia.
Qed.

Lemma channels_of_frames_first (nc : Z) (frames : list (list R)) :
  1 <= nc ->
  exists first rest, channels_of_frames nc frames = first :: rest.
Proof.
  intros Hnc. unfold channels_of_frames.
  rewrite (range_cons 0 (nc - 1)) by lia. cbn [map]. eexists. eexists. reflexivity.
Qed.

(** [decodeWav] after the chunk loop, on a data chunk that was found: the
    result for a supported bit depth and at least one channel. *)
Lemma decode_data_returns (view : buffer) (fmt : WavFormat)
      (dataOffset dataSize : Z) (M : R) :
  (0 <= M)%R ->
  Spec.supported_bits (bitsPerSample fmt) = true -> 1 <= numChannels fmt ->
  0 <= dataOffset <= byteLength view ->
  (forall i channel,
      0 <= i < 8 * Z.max 0 (Z.min dataSize (byteLength view - dataOffset))
                 / (bitsPerSample fmt * numChannels fmt) ->
      0 <= channel < numChannels fmt ->
      exists v, stored_sample view fmt dataOffset i channel = Return v
                /\ (Rabs v <= M)%R) ->
  exists pcm,
    decode_data view (fmt, dataOffset, dataSize) = Return pcm
    /\ sampleRate pcm = IZR (fmtSampleRate fmt)
    /\ Z.of_nat (List.length (samples pcm))
       = 8 * Z.max 0 (Z.min dataSize (byteLength view - dataOffset))
         / (bitsPerSample fmt * numChannels fmt)
    /\ Forall (fun y => Rabs y <= M)%R (samples pcm).
Proof.
  intros HM Hs Hnc Hoff Hsample. unfold decode_data.
  destruct (Z.eqb_spec dataOffset (-1)) as [E | _]; [lia | ].
  cbv zeta.
  assert (Hbits : 0 < bitsPerSample fmt).
  { unfold Spec.supported_bits in Hs.
    destruct (Z.eqb_spec (bitsPerSample fmt) 8); [lia | ].
    destruct (Z.eqb_spec (bitsPerSample fmt) 16); [lia | ].
    destruct (Z.eqb_spec (bitsPerSample fmt) 24); [lia | ].
    destruct (Z.eqb_spec (bitsPerSample fmt) 32); [lia | discriminate]. }
  rewrite total_samples_whole_frames by lia.
  destruct (decode_frames_returns view fmt dataOffset dataSize
              (fun v => Rabs v <= M)%R Hsample) as (frames & -> & Hlen & Hshape).
  cbn [bind]. eexists. split; [reflexivity | ]. cbn [samples sampleRate].
  split; [reflexivity | ].
  pose proof (channels_of_frames_shape _ _ _ Hshape) as Hch.
  destruct (channels_of_frames_first (numChannels fmt) frames Hnc)
    as (first & rest & E).
  rewrite E in *. split.
  - rewrite mergeChannels_length.
    apply Forall_inv in Hch. destruct Hch as [Hl _]. rewrite Hl, Hlen.
    apply Z2Nat.id. apply Z.div_pos; nia.
  - apply mergeChannels_keeps_bound; [exact HM | ].
    eapply Forall_impl; [ | exact Hch]. intros channel [_ Hp]. exact Hp.
Qed.

End DecoderSafety.

Section IntegerPcm.
Import Audio.

Lemma pcm_value_range (a p : Z) :
  0 < p -> - p <= a < p -> (-1 <= IZR a / IZR p < 1)%R.
Proof.
  intros Hp [Hlo Hhi].
  assert (Hp' : (0 < IZR p)%R) by now apply IZR_lt.
  assert (Hlo' : (- IZR p <= IZR a)%R) by (rewrite <- opp_IZR; now apply IZR_le).
  assert (Hhi' : (IZR a < IZR p)%R) by now apply IZR_lt.
  assert (Hq : (0 < / IZR p)%R) by now apply Rinv_0_lt_compat.
  assert (Hpq : (IZR p * / IZR p = 1)%R) by (apply Rinv_r; lra).
  unfold Rdiv. split.
  - assert (0 <= (IZR a + IZR p) * / IZR p)%R by (apply Rmult_le_pos; lra). nra.
  - assert (0 < (IZR p - IZR a) * / IZR p)%R by (apply Rmult_lt_0_compat; lra). nra.
Qed.

Lemma supported_bits_half_range (bits : Z) :
  Spec.supported_bits bits = true -> 0 < 2 ^ (bits - 1).
Proof.
  intros Hs. apply Z.pow_pos_nonneg; [lia | ].
  unfold Spec.supported_bits in Hs.
  destruct (Z.eqb_spec bits 8); [lia | ].
  destruct (Z.eqb_spec bits 16); [lia | ].
  destruct (Z.eqb_spec bits 24); [lia | ].
  destruct (Z.eqb_spec bits 32); [lia | discriminate].
Qed.

Lemma decode_sample_within_unit (view : buffer) (fmt : WavFormat)
      (dataOffset i channel : Z) :
  Spec.supported_bits (bitsPerSample fmt) = true ->
  audioFormat fmt <> 3 \/ bitsPerSample fmt <> 32 ->
  0 <= dataOffset + (i * numChannels fmt + channel) * (bitsPerSample fmt / 8) ->
  dataOffset + (i * numChannels fmt + channel) * (bitsPerSample fmt / 8)
  + bitsPerSample fmt / 8 <= byteLength view ->
  exists v, decode_sample view fmt dataOffset i channel = Return v
            /\ (-1 <= v < 1)%R.
Proof.
  intros Hs Hf Hlo Hhi. eexists. split.
  - now apply decode_sample_value.
  - apply pcm_value_range; [now apply supported_bits_half_range | ].
    now apply pcm_int_range.
Qed.

(** The largest 32-bit sample, [0x7fffffff], is stored as 1. *)
Lemma stored_sample_largest_int32 :
  stored_sample [Byte.xff; Byte.xff; Byte.xff; Byte.x7f] (mkFormat 1 1 44100 32)
                0 0 0
  = Return 1%R.
Proof.
  unfold stored_sample.
  rewrite decode_sample_value;
    [ | reflexivity | left; cbn; lia | cbn; lia | cbn; lia].
  cbn [bind bitsPerSample numChannels].
  replace (Spec.pcm_int [Byte.xff; Byte.xff; Byte.xff; Byte.x7f] 32
             (0 + (0 * 1 + 0) * (32 / 8))) with 2147483647
    by (vm_compute; reflexivity).
  change (2 ^ (32 - 1)) with 2147483648.
  now rewrite fround_largest_int32.
Qed.

(** X20. An integer PCM sample of 8, 16, 24 or 32 bits that lies inside the
    buffer: the sample loop computes its integer value (offset binary for
    8 bits, little-endian two's complement otherwise, which the 24-bit
    branch builds with shifts and a sign extension) divided by
    [2 ^ (bits - 1)], a number in [-1, 1), and stores it in a
    [Float32Array].  The stored sample is within [-1, 1]: for 8, 16 and
    24 bits it is the computed value itself, for 32 bits that value rounded
    to single precision, which can be 1
    ([stored_sample_largest_int32]). *)
Theorem decode_sample_integer_pcm (view : buffer) (fmt : WavFormat)
      (dataOffset i channel : Z) :
  Spec.supported_bits (bitsPerSample fmt) = true ->
  audioFormat fmt <> 3 \/ bitsPerSample fmt <> 32 ->
  0 <= dataOffset + (i * numChannels fmt + channel) * (bitsPerSample fmt / 8) ->
  dataOffset + (i * numChannels fmt + channel) * (bitsPerSample fmt / 8)
  + bitsPerSample fmt / 8 <= byteLength view ->
  let value :=
    (IZR (Spec.pcm_int view (bitsPerSample fmt)
            (dataOffset + (i * numChannels fmt + channel)
                          * (bitsPerSample fmt / 8)))
     / IZR (2 ^ (bitsPerSample fmt - 1)))%R in
  decode_sample view fmt dataOffset i channel = Return value
  /\ (-1 <= value < 1)%R
  /\ stored_sample view fmt dataOffset i channel = Return (Js.fround value)
  /\ (Rabs (Js.fround value) <= 1)%R
  /\ (bitsPerSample fmt <> 32 -> Js.fround value = value).
Proof.
  intros Hs Hf Hlo Hhi value.
  pose proof (decode_sample_value view fmt dataOffset i channel Hs Hf Hlo Hhi)
    as Hvalue. fold value in Hvalue.
  pose proof (pcm_int_range view (bitsPerSample fmt)
                (dataOffset + (i * numChannels fmt + channel)
                              * (bitsPerSample fmt / 8)) Hs) as Hint.
  assert (Hrange : (-1 <= value < 1)%R).
  { subst value.
    apply pcm_value_range; [now apply supported_bits_half_range | exact Hint]. }
  split; [exact Hvalue | split; [exact Hrange | split; [ | split]]].
  - unfold stored_sample. now rewrite Hvalue.
  - apply fround_unit, Rabs_bounds. lra.
  - intros H32. subst value. unfold Spec.supported_bits in Hs.
    destruct (Z.eqb_spec (bitsPerSample fmt) 8) as [E | _].
    { rewrite E in *. change (2 ^ (8 - 1)) with 128 in Hint.
      apply fround_dyadic; lia. }
    destruct (Z.eqb_spec (bitsPerSample fmt) 16) as [E | _].
    { rewrite E in *. change (2 ^ (16 - 1)) with 32768 in Hint.
      apply fround_dyadic; lia. }
    destruct (Z.eqb_spec (bitsPerSample fmt) 24) as [E | _].
    { rewrite E in *. change (2 ^ (24 - 1)) with 8388608 in Hint.
      apply fround_dyadic; lia. }
    destruct (Z.eqb_spec (bitsPerSample fmt) 32) as [E | _];
      [contradiction | discriminate].
Qed.

Lemma decode_sample_integer_pcm_witness :
  let value :=
    (IZR (Spec.pcm_int [Byte.xff; Byte.xff; Byte.x80] 24 (0 + (0 * 1 + 0) * (24 / 8)))
     / IZR (2 ^ (24 - 1)))%R in
  decode_sample [Byte.xff; Byte.xff; Byte.x80] (mkFormat 1 1 44100 24) 0 0 0
  = Return value
  /\ (-1 <= value < 1)%R
  /\ stored_sample [Byte.xff; Byte.xff; Byte.x80] (mkFormat 1 1 44100 24) 0 0 0
     = Return (Js.fround value)
  /\ (Rabs (Js.fround value) <= 1)%R
  /\ (24 <> 32 -> Js.fround value = value).
Proof.
  apply (decode_sample_integer_pcm [Byte.xff; Byte.xff; Byte.x80]
           (mkFormat 1 1 44100 24) 0 0 0).
  - reflexivity.
  - right. cbn. lia.
  - cbn. lia.
  - cbn. lia.
Defined.

(** The sample loop on integer PCM data of 8, 16, 24 or 32 bits: no read
    leaves the buffer, and every stored sample is within [-1, 1]. *)
Lemma decode_data_integer_pcm (view : buffer) (fmt : WavFormat)
      (dataOffset dataSize : Z) :
  Spec.supported_bits (bitsPerSample fmt) = true ->
  audioFormat fmt <> 3 \/ bitsPerSample fmt <> 32 ->
  1 <= numChannels fmt ->
  0 <= dataOffset <= byteLength view ->
  exists pcm,
    decode_data view (fmt, dataOffset, dataSize) = Return pcm
    /\ sampleRate pcm = IZR (fmtSampleRate fmt)
    /\ Z.of_nat (List.length (samples pcm))
       = 8 * Z.max 0 (Z.min dataSize (byteLength view - dataOffset))
         / (bitsPerSample fmt * numChannels fmt)
    /\ Forall (fun y => Rabs y <= 1)%R (samples pcm).
Proof.
  intros Hs Hf Hnc Hoff.
  apply decode_data_returns; [lra | exact Hs | exact Hnc | exact Hoff | ].
  intros i channel Hi Hch.
  destruct (sample_index_in_bounds view (bitsPerSample fmt) (numChannels fmt)
              dataOffset dataSize i channel Hs Hnc Hoff Hi Hch) as [Hlo Hhi].
  destruct (decode_sample_within_unit view fmt dataOffset i channel Hs Hf Hlo Hhi)
    as (v & Hv & Hr).
  exists (Js.fround v). split; [unfold stored_sample; now rewrite Hv | ].
  apply fround_unit. apply Rabs_bounds. lra.
Qed.

(** X21. Once the header is valid and the chunk loop has found a data chunk
    with an integer PCM format of 8, 16, 24 or 32 bits and at least one
    channel, [decodeWav] returns: no read leaves the buffer, even when the
    data chunk announces more bytes than the file holds.  The result has
    the sample rate of the format chunk and one sample for every whole
    frame of the data present, each of absolute value at most 1. *)
Theorem decodeWav_integer_pcm (view : buffer) (fmt : WavFormat)
      (dataOffset dataSize : Z) :
  12 <= byteLength view ->
  Spec.four_at view 0 = Spec.tag "RIFF" ->
  Spec.four_at view 8 = Spec.tag "WAVE" ->
  chunk_walk (S (List.length view)) view 12 default_format
  = Return (fmt, dataOffset, dataSize) ->
  dataOffset <> -1 ->
  Spec.supported_bits (bitsPerSample fmt) = true ->
  audioFormat fmt <> 3 \/ bitsPerSample fmt <> 32 ->
  1 <= numChannels fmt ->
  exists pcm,
    decodeWav view = Return pcm
    /\ sampleRate pcm = IZR (fmtSampleRate fmt)
    /\ Z.of_nat (List.length (samples pcm))
       = 8 * Z.max 0 (Z.min dataSize (byteLength view - dataOffset))
         / (bitsPerSample fmt * numChannels fmt)
    /\ Forall (fun y => Rabs y <= 1)%R (samples pcm).
Proof.
  intros Hlen Hriff Hwave Hwalk Hdata Hs Hf Hnc.
  rewrite (decodeWav_good_header view Hlen Hriff Hwave), Hwalk. cbn [bind].
  destruct (chunk_walk_data_offset (S (List.length view)) view 12 default_format
              fmt dataOffset dataSize ltac:(lia) Hwalk)
    as [[E _] | (Hoff & _ & _)]; [congruence | ].
  apply decode_data_integer_pcm; [exact Hs | exact Hf | exact Hnc | lia].
Qed.

Lemma decodeWav_integer_pcm_witness :
  exists pcm,
    decodeWav Spec.wav_16bit = Return pcm
    /\ sampleRate pcm = IZR (fmtSampleRate (mkFormat 1 1 22050 16))
    /\ Z.of_nat (List.length (samples pcm))
       = 8 * Z.max 0 (Z.min 4 (byteLength Spec.wav_16bit - 44))
         / (bitsPerSample (mkFormat 1 1 22050 16)
            * numChannels (mkFormat 1 1 22050 16))
    /\ Forall (fun y => Rabs y <= 1)%R (samples pcm).
Proof.
  apply (decodeWav_integer_pcm Spec.wav_16bit (mkFormat 1 1 22050 16) 44 4).
  - vm_compute. discriminate.
  - reflexivity.
  - reflexivity.
  - vm_compute. reflexivity.
  - lia.
  - reflexivity.
  - left. cbn. lia.
  - cbn. lia.
Defined.

End IntegerPcm.

(* ================================================================== *)
(** ** Decoding a 16-bit mono file gives back its samples *)
(* ================================================================== *)

Section RoundTrip.
Import Audio.

Lemma traverse_map {A B} (f : A -> outcome B) (g : A -> B) (l : list A) :
  (forall x, In x l -> f x = Return (g x)) -> traverse f l = Return (map g l).
Proof.
  induction l as [| x l IH]; intros H; [reflexivity | ].
  cbn [traverse map]. rewrite (H x (or_introl eq_refl)). cbn [bind].
  rewrite IH by (intros z Hz; apply H; now right). reflexivity.
Qed.

Lemma le_uint16_app_r (pre l : buffer) (k : Z) :
  0 <= k -> le_uint16 (pre ++ l) (byteLength pre + k) = le_uint16 l k.
Proof.
  intros Hk. unfold le_uint16.
  rewrite <- Z.add_assoc, !byte_at_app_r by lia. reflexivity.
Qed.

Lemma le_uint32_app_r (pre l : buffer) (k : Z) :
  0 <= k -> le_uint32 (pre ++ l) (byteLength pre + k) = le_uint32 l k.
Proof.
  intros Hk. unfold le_uint32.
  rewrite <- !Z.add_assoc, !byte_at_app_r by lia. reflexivity.
Qed.

(** A 16-bit field reads back as its value modulo [2 ^ 16]. *)
Lemma le16_value (n : Z) (tail : buffer) :
  le_uint16 (Spec.le16 n ++ tail) 0 = n mod 65536.
Proof.
  unfold le_uint16, byte_at, Spec.le16.
  change (Z.to_nat 0) with 0%nat. change (Z.to_nat (0 + 1)) with 1%nat.
  cbn [app nth]. rewrite !byte_of_Z_value.
  pose proof (Z.div_mod n 256 ltac:(lia)) as H1.
  pose proof (Z.div_mod (n / 256) 256 ltac:(lia)) as H2.
  pose proof (Z.mod_pos_bound n 256 ltac:(lia)) as B1.
  pose proof (Z.mod_pos_bound (n / 256) 256 ltac:(lia)) as B2.
  rewrite (Z.mod_unique n 65536 (n / 256 / 256) (n mod 256 + 256 * ((n / 256) mod 256)));
    [reflexivity | lia | lia].
Qed.

Lemma le_uint16_at (pre tail : buffer) (n off : Z) :
  off = byteLength pre -> 0 <= n < 65536 ->
  le_uint16 (pre ++ Spec.le16 n ++ tail) off = n.
Proof.
  intros -> Hn. rewrite <- (Z.add_0_r (byteLength pre)).
  rewrite le_uint16_app_r, le16_value by lia. now apply Z.mod_small.
Qed.

Lemma le_uint32_at (pre tail : buffer) (n off : Z) :
  off = byteLength pre -> 0 <= n < 4294967296 ->
  le_uint32 (pre ++ Spec.le32 n ++ tail) off = n.
Proof.
  intros -> Hn. rewrite <- (Z.add_0_r (byteLength pre)).
  rewrite le_uint32_app_r by lia. now apply le32_value.
Qed.

(** The format chunk written by [Spec.fmt_payload] is read back by the
    chunk loop field by field. *)
Lemma format_after_fmt_payload (af nc sr bits : Z) (fmt : WavFormat) :
  0 <= af < 65536 -> 0 <= nc < 65536 -> 0 <= sr < 4294967296 ->
  0 <= bits < 65536 ->
  Spec.format_after ("fmt "%string, Spec.fmt_payload af nc sr bits) fmt
  = mkFormat af nc sr bits.
Proof.
  intros Haf Hnc Hsr Hbits. unfold Spec.format_after. cbn [fst snd].
  rewrite String.eqb_refl.
  set (bytes := Spec.chunk "fmt " (Spec.fmt_payload af nc sr bits)).
  assert (E8 : bytes
               = (Spec.tag "fmt " ++ Spec.le32 16)
                 ++ Spec.le16 af
                 ++ (Spec.le16 nc ++ Spec.le32 sr
                     ++ Spec.le32 (sr * nc * bits / 8)
                     ++ Spec.le16 (nc * bits / 8) ++ Spec.le16 bits))
    by reflexivity.
  assert (E10 : bytes
                = (Spec.tag "fmt " ++ Spec.le32 16 ++ Spec.le16 af)
                  ++ Spec.le16 nc
                  ++ (Spec.le32 sr ++ Spec.le32 (sr * nc * bits / 8)
                      ++ Spec.le16 (nc * bits / 8) ++ Spec.le16 bits))
    by reflexivity.
  assert (E12 : bytes
                = (Spec.tag "fmt " ++ Spec.le32 16 ++ Spec.le16 af ++ Spec.le16 nc)
                  ++ Spec.le32 sr
                  ++ (Spec.le32 (sr * nc * bits / 8)
                      ++ Spec.le16 (nc * bits / 8) ++ Spec.le16 bits))
    by reflexivity.
  assert (E22 : bytes
                = (Spec.tag "fmt " ++ Spec.le32 16 ++ Spec.le16 af ++ Spec.le16 nc
                   ++ Spec.le32 sr ++ Spec.le32 (sr * nc * bits / 8)
                   ++ Spec.le16 (nc * bits / 8))
                  ++ Spec.le16 bits ++ [])
    by reflexivity.
  f_equal.
  - rewrite E8. now apply le_uint16_at.
  - rewrite E10. now apply le_uint16_at.
  - rewrite E12. now apply le_uint32_at.
  - rewrite E22. now apply le_uint16_at.
Qed.

(** The chunk loop stops at a data chunk with the offset of its payload
    and the size its header gives. *)
Lemma chunk_walk_finds_data (fuel : nat) (pre payload tail : buffer)
      (fmt : WavFormat) :
  byteLength payload < 4294967296 ->
  chunk_walk (S fuel) (pre ++ Spec.chunk "data" payload ++ tail)
             (byteLength pre) fmt
  = Return (fmt, byteLength pre + 8, byteLength payload).
Proof.
  intros Hsize.
  set (bytes := Spec.chunk "data" payload).
  set (view := pre ++ bytes ++ tail).
  pose proof (byteLength_nonneg pre) as Hpre.
  pose proof (byteLength_nonneg payload) as Hpay.
  pose proof (byteLength_nonneg tail) as Htail.
  pose proof (Z.rem_nonneg (byteLength payload) 2 ltac:(lia) ltac:(lia)) as Hrem.
  assert (Hlen : byteLength bytes
                 = 8 + byteLength payload + Z.rem (byteLength payload) 2)
    by (apply chunk_length; reflexivity).
  assert (Hview : byteLength view
                  = byteLength pre + byteLength bytes + byteLength tail)
    by (subst view; rewrite !byteLength_app; lia).
  rewrite chunk_walk_turn by lia. cbv zeta.
  assert (Htag : string_of_list_byte (Spec.four_at view (byteLength pre))
                 = "data"%string).
  { subst view bytes. rewrite four_at_middle, chunk_tag by reflexivity.
    reflexivity. }
  assert (Hsz : le_uint32 view (byteLength pre + 4) = byteLength payload).
  { subst view. rewrite le_uint32_middle by lia.
    rewrite <- (app_nil_r bytes). subst bytes.
    apply chunk_size_field; [reflexivity | assumption]. }
  rewrite Htag, Hsz. reflexivity.
Qed.

Lemma pcm16_length (values : list Z) :
  byteLength (Spec.pcm16 values) = 2 * Z.of_nat (List.length values).
Proof.
  unfold Spec.pcm16.
  induction values as [| v vs IH]; [reflexivity | ].
  cbn [map List.concat]. rewrite byteLength_app, IH.
  change (byteLength (Spec.le16 v)) with 2. cbn [List.length]. lia.
Qed.

(** Field [k] of the data written by [Spec.pcm16]. *)
Lemma pcm16_field (values : list Z) (tail : buffer) (k : nat) :
  (k < List.length values)%nat ->
  le_uint16 (Spec.pcm16 values ++ tail) (2 * Z.of_nat k)
  = nth k values 0 mod 65536.
Proof.
  revert k. unfold Spec.pcm16.
  induction values as [| v vs IH]; intros k Hk; [cbn in Hk; lia | ].
  cbn [map List.concat]. rewrite <- app_assoc.
  destruct k as [| k].
  - cbn [nth]. apply le16_value.
  - cbn [nth List.length] in *.
    replace (2 * Z.of_nat (S k)) with (byteLength (Spec.le16 v) + 2 * Z.of_nat k)
      by (change (byteLength (Spec.le16 v)) with 2; lia).
    rewrite le_uint16_app_r by lia. apply IH. lia.
Qed.

Lemma to_signed_16_mod (v : Z) :
  -32768 <= v <= 32767 -> to_signed 16 (v mod 65536) = v.
Proof.
  intros Hv. unfold to_signed.
  change (2 ^ (16 - 1)) with 32768. change (2 ^ 16) with 65536.
  destruct (Z_lt_le_dec v 0) as [Hneg | Hpos].
  - replace (v mod 65536) with (v + 65536).
    + destruct (Z.ltb_spec (v + 65536) 32768); lia.
    + apply (Z.mod_unique v 65536 (-1)); lia.
  - rewrite Z.mod_small by lia.
    destruct (Z.ltb_spec v 32768); lia.
Qed.

Lemma map_over_indices {A} (g : Z -> A) (values : list Z) :
  map (fun i => g (nth (Z.to_nat i) values 0))
      (Js.range 0 (Z.of_nat (List.length values) - 1))
  = map g values.
Proof.
  apply (nth_ext _ _ (g 0) (g 0)).
  - rewrite !length_map, range_length. lia.
  - intros k Hk. rewrite length_map, range_length in Hk.
    rewrite (map_nth g values 0 k).
    rewrite (nth_indep _ (g 0) (g (nth (Z.to_nat 0) values 0)))
      by (rewrite length_map, range_length; lia).
    rewrite (map_nth (fun i => g (nth (Z.to_nat i) values 0))
                     (Js.range 0 (Z.of_nat (List.length values) - 1)) 0 k).
    rewrite range_nth by lia. do 2 f_equal. lia.
Qed.

(** The layout of [Spec.wav_pcm16]: 44 bytes before the samples. *)
Lemma wav_pcm16_layout (sr : Z) (values : list Z) :
  exists pre,
    byteLength pre = 44
    /\ Spec.wav_pcm16 sr values
       = pre ++ Spec.pcm16 values ++ Spec.padding (Spec.pcm16 values).
Proof.
  exists (Spec.header (4 + byteLength
                             (Spec.chunk "fmt " (Spec.fmt_payload 1 1 sr 16)
                              ++ Spec.chunk "data" (Spec.pcm16 values)))
          ++ Spec.chunk "fmt " (Spec.fmt_payload 1 1 sr 16)
          ++ Spec.tag "data" ++ Spec.le32 (byteLength (Spec.pcm16 values))).
  split.
  - rewrite !byteLength_app, header_length, chunk_length by reflexivity.
    reflexivity.
  - unfold Spec.wav_pcm16, Spec.wav. unfold Spec.chunk at 4.
    rewrite <- !app_assoc. reflexivity.
Qed.

(** The sample loop on 16-bit mono data written by [Spec.pcm16]. *)
Lemma decode_data_pcm16 (pre tail : buffer) (af sr : Z) (values : list Z) :
  Forall (fun v => -32768 <= v <= 32767) values ->
  decode_data (pre ++ Spec.pcm16 values ++ tail)
              (mkFormat af 1 sr 16, byteLength pre,
               2 * Z.of_nat (List.length values))
  = Return (mkPcm (map (fun v => IZR v / 32768)%R values) (IZR sr)).
Proof.
  intros Hvalues.
  pose proof (pcm16_length values) as Hdata.
  pose proof (byteLength_nonneg pre) as Hpre.
  pose proof (byteLength_nonneg tail) as Htail.
  set (view := pre ++ Spec.pcm16 values ++ tail).
  assert (Hviewlen : byteLength view
                     = byteLength pre + 2 * Z.of_nat (List.length values)
                       + byteLength tail).
  { subst view. rewrite !byteLength_app, Hdata. lia. }
  unfold decode_data.
  destruct (Z.eqb_spec (byteLength pre) (-1)) as [E | _]; [lia | ].
  cbv zeta. cbn [numChannels bitsPerSample fmtSampleRate].
  rewrite total_samples_whole_frames by lia.
  replace (8 * Z.max 0 (Z.min (2 * Z.of_nat (List.length values))
                              (byteLength view - byteLength pre))
           / (16 * 1)) with (Z.of_nat (List.length values)).
  2:{ rewrite Hviewlen.
      replace (Z.max 0 (Z.min (2 * Z.of_nat (List.length values))
                              (byteLength pre + 2 * Z.of_nat (List.length values)
                               + byteLength tail - byteLength pre)))
        with (2 * Z.of_nat (List.length values)) by lia.
      replace (8 * (2 * Z.of_nat (List.length values)))
        with (Z.of_nat (List.length values) * (16 * 1)) by lia.
      now rewrite Z.div_mul by lia. }
  assert (Hframes : decode_frames view (mkFormat af 1 sr 16) (byteLength pre)
                      (Z.of_nat (List.length values))
                    = Return (map (fun i => [IZR (nth (Z.to_nat i) values 0%Z) / 32768]%R)
                                  (Js.range 0 (Z.of_nat (List.length values) - 1)))).
  { unfold decode_frames. apply traverse_map. intros i Hi.
    apply range_In in Hi. cbn [numChannels].
    change (Js.range 0 (1 - 1)) with [0]. cbn [traverse].
    assert (Hv : -32768 <= nth (Z.to_nat i) values 0 <= 32767).
    { rewrite Forall_forall in Hvalues. apply Hvalues. apply nth_In. lia. }
    unfold stored_sample.
    rewrite decode_sample_value;
      cbn [numChannels bitsPerSample audioFormat]; change (16 / 8) with 2;
      [ | reflexivity | right; lia | lia | lia].
    cbn [bind].
    change (Spec.pcm_int view 16 (byteLength pre + (i * 1 + 0) * 2))
      with (to_signed 16 (le_uint16 view (byteLength pre + (i * 1 + 0) * 2))).
    replace (byteLength pre + (i * 1 + 0) * 2)
      with (byteLength pre + 2 * Z.of_nat (Z.to_nat i)) by lia.
    subst view. rewrite le_uint16_app_r, pcm16_field by lia.
    rewrite to_signed_16_mod by exact Hv.
    (* a 16-bit value over 32768 is stored as it is *)
    change (16 - 1) with 15. rewrite fround_dyadic by lia. reflexivity. }
  rewrite Hframes. cbn [bind]. f_equal. f_equal.
  unfold channels_of_frames. change (Js.range 0 (1 - 1)) with [0].
  cbn [map mergeChannels]. rewrite map_map. cbn [nth Z.to_nat].
  apply (map_over_indices (fun v => (IZR v / 32768)%R)).
Qed.

(** X22. A mono 16-bit PCM file built from a sample rate and a list of
    16-bit values decodes to exactly those values over 32768, at that
    sample rate. *)
Theorem decodeWav_pcm16_round_trip (sr : Z) (values : list Z) :
  0 <= sr < 4294967296 ->
  2 * Z.of_nat (List.length values) < 4294967296 ->
  Forall (fun v => -32768 <= v <= 32767) values ->
  decodeWav (Spec.wav_pcm16 sr values)
  = Return (mkPcm (map (fun v => IZR v / 32768)%R values) (IZR sr)).
Proof.
  intros Hsr Hlen Hvalues.
  pose proof (pcm16_length values) as Hdata.
  set (fmtc := ("fmt "%string, Spec.fmt_payload 1 1 sr 16)).
  set (view := Spec.wav_pcm16 sr values).
  assert (Eview : view
                  = Spec.header (4 + byteLength
                                       (Spec.chunk "fmt " (Spec.fmt_payload 1 1 sr 16)
                                        ++ Spec.chunk "data" (Spec.pcm16 values)))
                    ++ Spec.chunk (fst fmtc) (snd fmtc)
                    ++ Spec.chunk "data" (Spec.pcm16 values)) by reflexivity.
  set (hdr := Spec.header _) in Eview.
  assert (Hhdr : byteLength hdr = 12) by apply header_length.
  assert (Hfmtlen : byteLength (Spec.chunk (fst fmtc) (snd fmtc)) = 24)
    by (rewrite chunk_length by reflexivity; reflexivity).
  assert (Hpassed : Spec.passed_chunk fmtc).
  { unfold Spec.passed_chunk, fmtc. cbn [fst snd].
    change (byteLength (Spec.fmt_payload 1 1 sr 16)) with 16.
    repeat split; try lia. discriminate. }
  (* the header and the chunk loop *)
  assert (Hwalk : chunk_walk (S (List.length view)) view 12 default_format
                  = Return (mkFormat 1 1 sr 16, 44, 2 * Z.of_nat (List.length values))).
  { pose proof (enough_fuel_decodeWav view) as Hfuel.
    rewrite Eview in Hfuel |- *. rewrite <- Hhdr in Hfuel |- *.
    destruct (chunk_walk_passes_fuel _ hdr (Spec.chunk "data" (Spec.pcm16 values))
                fmtc default_format Hpassed Hfuel) as (fuel' & -> & Hfuel').
    destruct Hfuel' as [_ Hpos]. destruct fuel' as [| fuel']; [lia | ].
    subst fmtc. cbn [fst snd] in *. rewrite format_after_fmt_payload by lia.
    rewrite (app_assoc hdr), <- byteLength_app.
    rewrite <- (app_nil_r (Spec.chunk "data" (Spec.pcm16 values))).
    rewrite chunk_walk_finds_data by lia.
    rewrite byteLength_app, Hhdr, Hfmtlen, Hdata. reflexivity. }
  fold view. unfold view at 1. unfold Spec.wav_pcm16, Spec.wav.
  rewrite decodeWav_header. fold (Spec.wav (Spec.chunk "fmt " (Spec.fmt_payload 1 1 sr 16)
                     ++ Spec.chunk "data" (Spec.pcm16 values))).
  fold (Spec.wav_pcm16 sr values). fold view.
  rewrite Hwalk. cbn [bind].
  (* the sample loop *)
  destruct (wav_pcm16_layout sr values) as (pre & Hpre & Elayout).
  fold view in Elayout. rewrite Elayout, <- Hpre.
  now apply decode_data_pcm16.
Qed.

Lemma decodeWav_pcm16_round_trip_witness :
  decodeWav (Spec.wav_pcm16 22050 [1; -2])
  = Return (mkPcm (map (fun v => IZR v / 32768)%R [1; -2]) (IZR 22050)).
Proof.
  apply decodeWav_pcm16_round_trip.
  - lia.
  - cbn. lia.
  - repeat (apply Forall_cons; [lia | ]). apply Forall_nil.
Defined.

End RoundTrip.

(* ================================================================== *)
(** ** The analysis does not depend on the volume of the signal *)
(* ================================================================== *)

Section PitchGain.
Import Music.
Local Open Scope R_scope.

Lemma fold_left_ext {A B} (f g : A -> B -> A) (l : list B) (a : A) :
  (forall a x, f a x = g a x) -> fold_left f l a = fold_left g l a.
Proof.
  intros H. revert a. induction l as [| x l IH]; intros a; [reflexivity | ].
  rewrite !fold_left_cons, H. apply IH.
Qed.

Lemma ltb_mult_pos (c a b : R) : 0 < c -> Js.ltb (c * a) (c * b) = Js.ltb a b.
Proof.
  intros Hc. unfold Js.ltb.
  destruct (Rlt_dec (c * a) (c * b)) as [H | H], (Rlt_dec a b) as [H' | H'];
    try reflexivity; exfalso.
  - apply H'. apply (Rmult_lt_reg_l c); assumption.
  - apply H. apply Rmult_lt_compat_l; assumption.
Qed.

Lemma peak_loop_gain (c : R) (xs : list R) (m : R) :
  0 < c ->
  fold_left (fun max x => if Js.ltb max (Rabs x) then Rabs x else max)
            (map (fun x => c * x) xs) (c * m)
  = c * fold_left (fun max x => if Js.ltb max (Rabs x) then Rabs x else max) xs m.
Proof.
  intros Hc. revert m. induction xs as [| y ys IH]; intros m; [reflexivity | ].
  cbn [map]. rewrite !fold_left_cons, <- IH.
  rewrite Rabs_mult, (Rabs_pos_eq c) by lra.
  rewrite ltb_mult_pos by exact Hc.
  destruct (Js.ltb m (Rabs y)); reflexivity.
Qed.

Lemma peak_gain (c : R) (xs : list R) :
  0 < c -> peak (map (fun x => c * x) xs) = c * peak xs.
Proof.
  intros Hc. rewrite !peak_from.
  pose proof (peak_loop_gain c xs 0 Hc) as H. rewrite Rmult_0_r in H. exact H.
Qed.

Lemma silent_of_flat_peak (xs : list R) : peak xs <= 0 -> Spec.silent xs.
Proof.
  intros Hp. apply Forall_forall. intros x Hx.
  pose proof (peak_bounds xs x Hx) as Hb.
  destruct (Req_dec x 0) as [E | E]; [exact E | ].
  pose proof (Rabs_pos_lt x E). lra.
Qed.

Lemma normalize_gain (c : R) (xs : list R) :
  0 < c -> normalize (map (fun x => c * x) xs) = normalize xs.
Proof.
  intros Hc. unfold normalize. rewrite peak_gain by exact Hc.
  pose proof (peak_nonneg xs) as Hn.
  destruct (Rle_lt_dec (peak xs) 0) as [Hz | Hp].
  - rewrite !leb_true_of_le by nra.
    pose proof (silent_of_flat_peak xs Hz) as Hs.
    rewrite <- (map_id xs) at 2. apply map_ext_in. intros x Hx.
    unfold Spec.silent in Hs. rewrite Forall_forall in Hs.
    rewrite (Hs x Hx). ring.
  - rewrite !leb_false_of_lt by nra.
    rewrite map_map. apply map_ext. intros x. field. lra.
Qed.

Lemma peak_loop_negate (xs : list R) (m : R) :
  fold_left (fun max x => if Js.ltb max (Rabs x) then Rabs x else max)
            (map Ropp xs) m
  = fold_left (fun max x => if Js.ltb max (Rabs x) then Rabs x else max) xs m.
Proof.
  revert m. induction xs as [| y ys IH]; intros m; [reflexivity | ].
  cbn [map]. rewrite !fold_left_cons, Rabs_Ropp. apply IH.
Qed.

Lemma normalize_negate (xs : list R) :
  normalize (map Ropp xs) = map Ropp (normalize xs).
Proof.
  unfold normalize. rewrite !peak_from, peak_loop_negate.
  destruct (Js.leb _ 0); [reflexivity | ].
  rewrite !map_map. apply map_ext. intros x. unfold Rdiv. ring.
Qed.

Lemma sum_squares_negate (xs : list R) (a : R) :
  fold_left (fun sum x => sum + x * x) (map Ropp xs) a
  = fold_left (fun sum x => sum + x * x) xs a.
Proof.
  revert a. induction xs as [| y ys IH]; intros a; [reflexivity | ].
  cbn [map]. rewrite !fold_left_cons, IH. f_equal. ring.
Qed.

Lemma rms_negate (xs : list R) : rms (map Ropp xs) = rms xs.
Proof.
  destruct xs as [| x xs]; [reflexivity | ].
  rewrite !rms_unfold by discriminate.
  rewrite sum_squares_negate, length_map. reflexivity.
Qed.

Lemma num_at_negate (y : list R) (i : Z) :
  Js.num_at (map Ropp y) i = - Js.num_at y i.
Proof.
  unfold Js.num_at. destruct (i <? 0)%Z; [ring | ].
  rewrite <- Ropp_0 at 1. apply map_nth.
Qed.

Lemma lag_sums_negate (y : list R) (lag : Z) :
  lag_sums (map Ropp y) lag = lag_sums y lag.
Proof.
  unfold lag_sums. rewrite length_map. apply fold_left_ext.
  intros [[corr e1] e2] i. rewrite !num_at_negate. f_equal; [f_equal | ]; ring.
Qed.

Lemma lag_step_negate (y : list R) (best : Z * R) (lag : Z) :
  lag_step (map Ropp y) best lag = lag_step y best lag.
Proof. unfold lag_step. now rewrite lag_sums_negate. Qed.

Lemma detectPitch_gain_pos (c : R) (xs : list R) (sampleRate : R) :
  0 < c -> detectPitch (map (fun x => c * x) xs) sampleRate = detectPitch xs sampleRate.
Proof.
  intros Hc. rewrite !detectPitch_unfold, length_map, normalize_gain by exact Hc.
  reflexivity.
Qed.

Lemma detectPitch_negate (xs : list R) (sampleRate : R) :
  detectPitch (map Ropp xs) sampleRate = detectPitch xs sampleRate.
Proof.
  rewrite !detectPitch_unfold, length_map, normalize_negate, rms_negate.
  rewrite (fold_left_ext (lag_step (map Ropp (normalize xs)))
                         (lag_step (normalize xs)))
    by (intros; apply lag_step_negate).
  reflexivity.
Qed.

(** X23. [detectPitch] does not depend on the volume or the polarity of the
    signal: multiplying every sample by the same non-zero factor leaves the
    result unchanged. *)
Theorem detectPitch_gain_invariant (c : R) (xs : list R) (sampleRate : R) :
  c <> 0 ->
  detectPitch (map (fun x => c * x) xs) sampleRate = detectPitch xs sampleRate.
Proof.
  intros Hc. destruct (Rlt_dec 0 c) as [Hpos | Hneg].
  - now apply detectPitch_gain_pos.
  - assert (E : map (fun x => c * x) xs
                = map Ropp (map (fun x => - c * x) xs)).
    { rewrite map_map. apply map_ext. intros x. ring. }
    rewrite E, detectPitch_negate. apply detectPitch_gain_pos. lra.
Qed.

Lemma detectPitch_gain_invariant_witness :
  detectPitch (map (fun x => -2 * x) [1; 0; 1]) 22050 = detectPitch [1; 0; 1] 22050.
Proof.
  apply detectPitch_gain_invariant. lra.
Defined.

End PitchGain.

Section KeyGain.
Import Music.
Local Open Scope R_scope.

(** The resonator state is linear in the frame. *)
Lemma resonator_gain (coeff c : R) (frame : list R) (a b : R) :
  fold_left (fun '(sPrev, sPrev2) x => (x + coeff * sPrev - sPrev2, sPrev))
            (map (fun x => c * x) frame) (c * a, c * b)
  = (c * fst (fold_left (fun '(sPrev, sPrev2) x => (x + coeff * sPrev - sPrev2, sPrev))
                        frame (a, b)),
     c * snd (fold_left (fun '(sPrev, sPrev2) x => (x + coeff * sPrev - sPrev2, sPrev))
                        frame (a, b))).
Proof.
  revert a b. induction frame as [| x frame IH]; intros a b; [reflexivity | ].
  cbn [map]. rewrite !fold_left_cons. cbv beta iota.
  replace (c * x + coeff * (c * a) - c * b) with (c * (x + coeff * a - b)) by ring.
  apply IH.
Qed.

Lemma pitchClassEnergy_gain (c : R) (frame : list R) (sampleRate freq : R) :
  pitchClassEnergy (map (fun x => c * x) frame) sampleRate freq
  = c * c * pitchClassEnergy frame sampleRate freq.
Proof.
  unfold pitchClassEnergy.
  pose proof (resonator_gain (2 * cos (2 * PI * freq / sampleRate)) c frame 0 0) as H.
  rewrite Rmult_0_r in H. rewrite H.
  destruct (fold_left _ frame (0, 0)) as [s1 s2]. cbn [fst snd]. ring.
Qed.

Lemma octave_acc_gain (c : R) (frame : list R) (sampleRate : R) (pitchClass : Z) :
  octave_acc (map (fun x => c * x) frame) sampleRate pitchClass
  = c * c * octave_acc frame sampleRate pitchClass.
Proof.
  unfold octave_acc. generalize (Js.range 2 6). intros octaves.
  assert (H : forall acc,
             fold_left
               (fun acc octave =>
                  if Js.ltb (440 * Js.pow2 ((IZR (12 * (octave + 1) + pitchClass) - 69) / 12)) 40
                     || Js.ltb (sampleRate / 2 - 100)
                          (440 * Js.pow2 ((IZR (12 * (octave + 1) + pitchClass) - 69) / 12))
                  then acc
                  else acc + pitchClassEnergy (map (fun x => c * x) frame) sampleRate
                         (440 * Js.pow2 ((IZR (12 * (octave + 1) + pitchClass) - 69) / 12)))
               octaves (c * c * acc)
             = c * c
               * fold_left
                   (fun acc octave =>
                      if Js.ltb (440 * Js.pow2 ((IZR (12 * (octave + 1) + pitchClass) - 69) / 12)) 40
                         || Js.ltb (sampleRate / 2 - 100)
                              (440 * Js.pow2 ((IZR (12 * (octave + 1) + pitchClass) - 69) / 12))
                      then acc
                      else acc + pitchClassEnergy frame sampleRate
                             (440 * Js.pow2 ((IZR (12 * (octave + 1) + pitchClass) - 69) / 12)))
                   octaves acc).
  { induction octaves as [| o os IH]; intros acc; [reflexivity | ].
    rewrite !fold_left_cons, <- IH. f_equal.
    destruct (_ || _); [reflexivity | ].
    rewrite pitchClassEnergy_gain. ring. }
  specialize (H 0). rewrite Rmult_0_r in H. exact H.
Qed.

Lemma add_frame_gain (c sampleRate : R) (chroma frame : list R) :
  add_frame sampleRate (map (fun v => c * c * v) chroma) (map (fun x => c * x) frame)
  = map (fun v => c * c * v) (add_frame sampleRate chroma frame).
Proof.
  unfold add_frame, Js.mapi. generalize 0%Z.
  induction chroma as [| v chroma IH]; intros k; [reflexivity | ].
  cbn [map Js.mapi_from]. rewrite IH, octave_acc_gain. f_equal. ring.
Qed.

Lemma subarray_map {A B} (f : A -> B) (xs : list A) (a b : Z) :
  Js.subarray (map f xs) a b = map f (Js.subarray xs a b).
Proof. unfold Js.subarray. now rewrite skipn_map, firstn_map. Qed.

Lemma sum_squares_gain (k : R) (xs : list R) (a : R) :
  fold_left (fun acc x => acc + x * x) (map (fun v => k * v) xs) (k * k * a)
  = k * k * fold_left (fun acc x => acc + x * x) xs a.
Proof.
  revert a. induction xs as [| x xs IH]; intros a; [reflexivity | ].
  cbn [map]. rewrite !fold_left_cons, <- IH. f_equal. ring.
Qed.

Lemma hypot_gain (k : R) (xs : list R) :
  0 < k -> Js.hypot (map (fun v => k * v) xs) = k * Js.hypot xs.
Proof.
  intros Hk. unfold Js.hypot.
  pose proof (sum_squares_gain k xs 0) as H. rewrite Rmult_0_r in H. rewrite H.
  rewrite sqrt_mult_alt by nra.
  rewrite sqrt_square by lra. reflexivity.
Qed.

Lemma estimateChroma_gain (c : R) (xs : list R) (sampleRate : R) :
  c <> 0 ->
  estimateChroma (map (fun x => c * x) xs) sampleRate = estimateChroma xs sampleRate.
Proof.
  intros Hc. unfold estimateChroma. rewrite length_map.
  destruct (_ <? 1024)%Z; [reflexivity | ]. cbv zeta.
  set (frameSize := Z.min 4096 (Z.of_nat (List.length xs))).
  set (starts := Js.range_by 0 (Z.of_nat (List.length xs) - frameSize)
                             (Z.max 1024 (Js.floor (IZR frameSize / 2)))).
  assert (Hk : 0 < c * c) by nra.
  assert (Hloop : forall (starts : list Z) (chroma : list R),
             fold_left
               (fun chroma start =>
                  add_frame sampleRate chroma
                            (Js.subarray (map (fun x => c * x) xs) start
                                         (start + frameSize)))
               starts (map (fun v => c * c * v) chroma)
             = map (fun v => c * c * v)
                   (fold_left
                      (fun chroma start =>
                         add_frame sampleRate chroma
                                   (Js.subarray xs start (start + frameSize)))
                      starts chroma)).
  { induction starts0 as [| st sts IH]; intros chroma; [reflexivity | ].
    rewrite !fold_left_cons, subarray_map, add_frame_gain. apply IH. }
  assert (Hzero : repeat 0 12 = map (fun v => c * c * v) (repeat 0 12)).
  { cbn [repeat map]. now rewrite Rmult_0_r. }
  assert (Hfold : fold_left
                    (fun chroma start =>
                       add_frame sampleRate chroma
                                 (Js.subarray (map (fun x => c * x) xs) start
                                              (start + frameSize)))
                    starts (repeat 0 12)
                  = map (fun v => c * c * v)
                        (fold_left
                           (fun chroma start =>
                              add_frame sampleRate chroma
                                        (Js.subarray xs start (start + frameSize)))
                           starts (repeat 0 12))).
  { rewrite <- Hloop. f_equal. exact Hzero. }
  rewrite Hfold.
  set (chroma := fold_left _ starts (repeat 0 12)).
  rewrite hypot_gain by exact Hk.
  pose proof (sqrt_pos (fold_left (fun acc x => acc + x * x) chroma 0)) as Hn.
  fold (Js.hypot chroma) in Hn.
  destruct (Rlt_dec 0 (Js.hypot chroma)) as [Hpos | Hnot].
  - rewrite !ltb_true_of_lt by nra.
    rewrite map_map. apply map_ext. intros v. field. split; lra.
  - assert (Hz : Js.hypot chroma = 0) by lra.
    rewrite Hz, Rmult_0_r. rewrite !ltb_false_of_le by lra.
    unfold Js.hypot in Hz. apply sqrt_eq_0 in Hz; [ | apply sum_squares_ge].
    pose proof (sum_squares_zero chroma Hz) as Hall.
    rewrite <- (map_id chroma) at 2. apply map_ext_in. intros v Hv.
    rewrite Forall_forall in Hall. rewrite (Hall v Hv). ring.
Qed.

Lemma durationLimited_map (f : R -> R) (xs : list R) (sampleRate : R) :
  durationLimited (map f xs) sampleRate = map f (durationLimited xs sampleRate).
Proof. unfold durationLimited. now rewrite subarray_map, length_map. Qed.

(** X24. [detectKey] does not depend on the volume or the polarity of the
    signal: multiplying every sample by the same non-zero factor leaves the
    key name and the confidence unchanged. *)
Theorem detectKey_gain_invariant (c : R) (xs : list R) (sampleRate : R) :
  c <> 0 ->
  detectKey (map (fun x => c * x) xs) sampleRate = detectKey xs sampleRate.
Proof.
  intros Hc. unfold detectKey. rewrite length_map.
  destruct (_ || _); [reflexivity | ]. cbv zeta.
  rewrite durationLimited_map, estimateChroma_gain by exact Hc. reflexivity.
Qed.

Lemma detectKey_gain_invariant_witness :
  detectKey (map (fun x => -2 * x) [1; 0; 1]) 22050 = detectKey [1; 0; 1] 22050.
Proof.
  apply detectKey_gain_invariant. lra.
Defined.

End KeyGain.

(* ================================================================== *)
(** ** From the detected pitch to its note *)
(* ================================================================== *)

Section DetectedNote.
Import Music.
Local Open Scope R_scope.

(** A pitch that [detectPitch] returns is the sample rate over a lag of the
    search. *)
Lemma detectPitch_some_lag (xs : list R) (sampleRate f : R) :
  detectPitch xs sampleRate = Some f ->
  0 < sampleRate
  /\ exists lag : Z,
       (1 <= lag)%Z
       /\ (Js.floor (sampleRate / maxFreq) <= lag <= Js.floor (sampleRate / minFreq))%Z
       /\ f = sampleRate / IZR lag.
Proof.
  rewrite detectPitch_unfold. intros H.
  destruct (Nat.eqb (List.length xs) 0); [discriminate | ].
  destruct (Js.leb sampleRate 0) eqn:Hrate; [discriminate | ].
  cbn [orb] in H. apply leb_false_inv in Hrate.
  destruct (Js.ltb (rms (normalize xs)) (1 / 100)); [discriminate | ].
  cbv zeta in H.
  set (lags := Js.range (Js.floor (sampleRate / maxFreq))
                        (Js.floor (sampleRate / minFreq))) in *.
  destruct (lag_loop_cases (normalize xs) lags ((-1)%Z, 0)) as [E | (Hin & _ & _)].
  - rewrite E in H. discriminate.
  - set (best := fold_left (lag_step (normalize xs)) lags ((-1)%Z, 0)) in *.
    destruct (Z.leb_spec (fst best) 0) as [Hle | Hpos]; [discriminate | ].
    destruct (Js.ltb (snd best) (35 / 100)); [discriminate | ].
    cbn [orb] in H. injection H as <-.
    subst lags. apply range_In in Hin.
    split; [exact Hrate | ]. exists (fst best). repeat split; (lia || reflexivity).
Qed.

(** The detected pitch lies between 65.41 Hz and twice 2093 Hz. *)
Lemma detectPitch_band (xs : list R) (sampleRate f : R) :
  detectPitch xs sampleRate = Some f -> minFreq <= f < 2 * maxFreq.
Proof.
  intros H. destruct (detectPitch_some_lag xs sampleRate f H)
    as (Hrate & lag & Hlag & [Hlo Hhi] & ->).
  assert (Hl : 1 <= IZR lag) by (apply IZR_le; lia).
  assert (Hinv : 0 < / IZR lag) by (apply Rinv_0_lt_compat; lra).
  assert (Hli : IZR lag * / IZR lag = 1) by (apply Rinv_r; lra).
  unfold minFreq, maxFreq in *. split.
  - assert (Hup : IZR lag <= sampleRate / (6541 / 100)).
    { eapply Rle_trans; [apply IZR_le, Hhi | ].
      unfold Js.floor. apply Zfloor_bound. }
    apply (Rmult_le_reg_r (IZR lag)); [lra | ].
    unfold Rdiv at 2. rewrite Rmult_assoc, Rinv_l by lra.
    assert (Hx : sampleRate / (6541 / 100) * (6541 / 100) = sampleRate)
      by (field; lra).
    nra.
  - pose proof (Zfloor_bound (sampleRate / 2093)) as [_ Hfl].
    assert (Hge : IZR (Js.floor (sampleRate / 2093)) <= IZR lag)
      by (apply IZR_le; lia).
    unfold Js.floor in Hge.
    assert (Hx : sampleRate / 2093 * 2093 = sampleRate) by (field; lra).
    set (x := sampleRate / 2093) in *.
    assert (Hhalf : x < 2 * IZR lag) by lra.
    apply (Rmult_lt_reg_r (IZR lag)); [lra | ].
    unfold Rdiv. rewrite Rmult_assoc, Rinv_l by lra. nra.
Qed.

Lemma pow2_zero : Js.pow2 0 = 1.
Proof. unfold Js.pow2. apply Rpower_O. lra. Qed.

Lemma pow2_2 : Js.pow2 2 = 4.
Proof. replace 2 with (1 + 1) at 1 by lra. rewrite pow2_plus, pow2_one. lra. Qed.

Lemma pow2_4 : Js.pow2 4 = 16.
Proof. replace 4 with (2 + 2) at 1 by lra. rewrite pow2_plus, pow2_2. lra. Qed.

Lemma pow2_8 : Js.pow2 8 = 256.
Proof. replace 8 with (4 + 4) at 1 by lra. rewrite pow2_plus, pow2_4. lra. Qed.

Lemma pow2_11 : Js.pow2 11 = 2048.
Proof.
  replace 11 with (8 + (2 + 1)) at 1 by lra.
  rewrite !pow2_plus, pow2_8, pow2_2, pow2_one. lra.
Qed.

Lemma pow2_13 : Js.pow2 13 = 8192.
Proof.
  replace 13 with (8 + (4 + 1)) at 1 by lra.
  rewrite !pow2_plus, pow2_8, pow2_4, pow2_one. lra.
Qed.

Lemma pow2_quarter (y : R) :
  Js.pow2 (y / 4) * Js.pow2 (y / 4) * (Js.pow2 (y / 4) * Js.pow2 (y / 4))
  = Js.pow2 y.
Proof.
  rewrite <- !pow2_plus. f_equal. field.
Qed.

Lemma log2_le (a b : R) : 0 < a -> a <= b -> Js.log2 a <= Js.log2 b.
Proof.
  intros Ha Hab. unfold Js.log2. pose proof ln_2_pos as H2.
  assert (Hln : ln a <= ln b).
  { destruct Hab as [Hlt | ->]; [left; now apply ln_increasing | lra]. }
  apply Rmult_le_compat_r; [left; now apply Rinv_0_lt_compat | exact Hln].
Qed.

Lemma log2_lt (a b : R) : 0 < a -> a < b -> Js.log2 a < Js.log2 b.
Proof.
  intros Ha Hab. unfold Js.log2. pose proof ln_2_pos as H2.
  apply Rmult_lt_compat_r; [now apply Rinv_0_lt_compat | now apply ln_increasing].
Qed.

(** 65.41 Hz is not below MIDI number 36, and 4186 Hz is below 108. *)
Lemma log2_lowest : - 11 / 4 <= Js.log2 (minFreq / 440).
Proof.
  rewrite <- (log2_pow2 (- 11 / 4)).
  apply log2_le; [apply pow2_pos | ].
  pose proof (pow2_pos (- 11 / 4)) as Hr.
  pose proof (pow2_quarter (- 11)) as Hq.
  assert (H11 : Js.pow2 (- 11) = / 2048).
  { apply (Rmult_eq_reg_r (Js.pow2 11)); [ | pose proof (pow2_pos 11); lra].
    rewrite <- pow2_plus. replace (- 11 + 11) with 0 by lra.
    rewrite pow2_zero, pow2_11. field. }
  rewrite H11 in Hq. unfold minFreq.
  set (r := Js.pow2 (- 11 / 4)) in *.
  destruct (Rle_lt_dec r (6541 / 100 / 440)) as [Hle | Hgt]; [exact Hle | exfalso].
  assert (Hsq : 6541 / 100 / 440 * (6541 / 100 / 440) < r * r) by nra.
  assert (H4 : 6541 / 100 / 440 * (6541 / 100 / 440)
               * (6541 / 100 / 440 * (6541 / 100 / 440)) < r * r * (r * r)) by nra.
  rewrite Hq in H4. lra.
Qed.

Lemma log2_highest : Js.log2 (2 * maxFreq / 440) <= 13 / 4.
Proof.
  rewrite <- (log2_pow2 (13 / 4)).
  unfold maxFreq. apply log2_le; [lra | ].
  pose proof (pow2_pos (13 / 4)) as Hr.
  pose proof (pow2_quarter 13) as Hq. rewrite pow2_13 in Hq.
  set (r := Js.pow2 (13 / 4)) in *.
  destruct (Rle_lt_dec (2 * 2093 / 440) r) as [Hle | Hgt]; [exact Hle | exfalso].
  assert (Hsq : r * r < 2 * 2093 / 440 * (2 * 2093 / 440)) by nra.
  assert (H4 : r * r * (r * r)
               < 2 * 2093 / 440 * (2 * 2093 / 440)
                 * (2 * 2093 / 440 * (2 * 2093 / 440))) by nra.
  rewrite Hq in H4. lra.
Qed.

(** X25. A pitch returned by [detectPitch] lies between 65.41 Hz and
    4186 Hz, so [hzToNote] names it with a MIDI number from 36 to 108: a
    note between C2 and C8, with all three fields present. *)
Theorem detected_pitch_note_range (xs : list R) (sampleRate f : R) :
  detectPitch xs sampleRate = Some f ->
  minFreq <= f < 2 * maxFreq
  /\ exists n : Z,
       (36 <= n <= 108)%Z /\ (2 <= n / 12 - 1 <= 8)%Z
       /\ n = Js.round (69 + 12 * Js.log2 (f / 440))
       /\ hzToNote f
          = mkNote (Some (Js.str_at NOTE_NAMES (n mod 12)
                          ++ Js.string_of_Z (n / 12 - 1))%string)
                   (Some ((69 + 12 * Js.log2 (f / 440) - IZR n) * 100))
                   (Some (440 * Js.pow2 ((IZR n - 69) / 12))).
Proof.
  intros H. pose proof (detectPitch_band xs sampleRate f H) as [Hlo Hhi].
  split; [split; assumption | ].
  assert (Hf : 0 < f) by (unfold minFreq in Hlo; lra).
  exists (Js.round (69 + 12 * Js.log2 (f / 440))).
  assert (Hmidi : 36 <= 69 + 12 * Js.log2 (f / 440) < 108).
  { pose proof log2_lowest as Hl. pose proof log2_highest as Hh.
    assert (Hlog_lo : Js.log2 (minFreq / 440) <= Js.log2 (f / 440)).
    { apply log2_le; unfold minFreq in *; lra. }
    assert (Hlog_hi : Js.log2 (f / 440) < Js.log2 (2 * maxFreq / 440)).
    { apply log2_lt; unfold maxFreq in *; lra. }
    lra. }
  assert (Hn : (36 <= Js.round (69 + 12 * Js.log2 (f / 440)) <= 108)%Z).
  { unfold Js.round.
    pose proof (Zfloor_bound (69 + 12 * Js.log2 (f / 440) + / 2)) as [Hb _].
    split.
    - apply Zfloor_lub. lra.
    - assert (Hlt : IZR (Zfloor (69 + 12 * Js.log2 (f / 440) + / 2)) < IZR 109)
        by lra.
      apply lt_IZR in Hlt. lia. }
  split; [exact Hn | split; [ | split; [reflexivity | ]]].
  - set (n := Js.round _) in *.
    assert (3 <= n / 12)%Z by (apply Z.div_le_lower_bound; lia).
    assert (n / 12 <= 9)%Z by (apply Z.div_le_upper_bound; lia).
    lia.
  - exact (hzToNote_fields f Hf).
Qed.

Lemma detected_pitch_note_range_witness :
  minFreq <= 22050 / 10 < 2 * maxFreq
  /\ exists n : Z,
       (36 <= n <= 108)%Z /\ (2 <= n / 12 - 1 <= 8)%Z
       /\ n = Js.round (69 + 12 * Js.log2 (22050 / 10 / 440))
       /\ hzToNote (22050 / 10)
          = mkNote (Some (Js.str_at NOTE_NAMES (n mod 12)
                          ++ Js.string_of_Z (n / 12 - 1))%string)
                   (Some ((69 + 12 * Js.log2 (22050 / 10 / 440) - IZR n) * 100))
                   (Some (440 * Js.pow2 ((IZR n - 69) / 12))).
Proof.
  apply (detected_pitch_note_range (repeat 1 11) 22050 (22050 / 10)).
  apply detectPitch_faint_constant. lra.
Defined.

End DetectedNote.

(* ================================================================== *)
(** ** What follows the data chunk, and the size field of the header *)
(* ================================================================== *)

Section TrailingBytes.
Import Audio.

(** After any chunks that the loop steps over, the loop stops at the data
    chunk, with the format fields that the chunks before it leave. *)
Lemma chunk_walk_reaches_data (cs : list (string * buffer)) (payload : buffer) :
  Forall Spec.passed_chunk cs -> byteLength payload < 4294967296 ->
  forall (pre tail : buffer) (fmt : WavFormat) (fuel : nat),
    Spec.enough_fuel fuel
      (pre ++ Spec.encode_chunks cs ++ Spec.chunk "data" payload ++ tail)
      (byteLength pre) ->
    chunk_walk fuel
      (pre ++ Spec.encode_chunks cs ++ Spec.chunk "data" payload ++ tail)
      (byteLength pre) fmt
    = Return (fold_left (fun f c => Spec.format_after c f) cs fmt,
              byteLength pre + byteLength (Spec.encode_chunks cs) + 8,
              byteLength payload).
Proof.
  intros Hcs Hsize. induction Hcs as [| c cs Hc _ IH]; intros pre tail fmt fuel E.
  - change (Spec.encode_chunks []) with (@nil Byte.byte) in *.
    cbn [app fold_left] in *. destruct E as [_ Hpos].
    destruct fuel as [| fuel]; [lia | ].
    rewrite chunk_walk_finds_data by exact Hsize.
    change (byteLength []) with 0. rewrite Z.add_0_r. reflexivity.
  - change (Spec.encode_chunks (c :: cs))
      with (Spec.chunk (fst c) (snd c) ++ Spec.encode_chunks cs) in *.
    rewrite <- !app_assoc in *.
    destruct (chunk_walk_passes_fuel fuel pre _ c fmt Hc E) as (fuel' & Hs & E').
    rewrite Hs. rewrite <- byteLength_app in *. rewrite !(app_assoc pre) in *.
    rewrite IH by exact E'. cbn [fold_left].
    rewrite !byteLength_app. do 3 f_equal. lia.
Qed.

Lemma format_ok_default : Spec.format_ok default_format.
Proof. unfold Spec.format_ok, default_format. cbn. lia. Qed.

Lemma format_after_all_ok (cs : list (string * buffer)) (fmt : WavFormat) :
  Spec.format_ok fmt ->
  Spec.format_ok (fold_left (fun f c => Spec.format_after c f) cs fmt).
Proof.
  revert fmt. induction cs as [| c cs IH]; intros fmt H; [exact H | ].
  cbn [fold_left]. apply IH. now apply format_after_ok.
Qed.

Lemma getUint8_prefix (view tail : buffer) (off : Z) :
  0 <= off -> off + 1 <= byteLength view ->
  getUint8 (view ++ tail) off = getUint8 view off.
Proof.
  intros H0 H1. pose proof (byteLength_nonneg tail).
  unfold getUint8.
  rewrite !in_bounds_true by (rewrite ?byteLength_app; lia).
  now rewrite byte_at_app_l by lia.
Qed.

Lemma getUint16_prefix (view tail : buffer) (off : Z) :
  0 <= off -> off + 2 <= byteLength view ->
  getUint16 (view ++ tail) off = getUint16 view off.
Proof.
  intros H0 H1. pose proof (byteLength_nonneg tail).
  unfold getUint16, le_uint16.
  rewrite !in_bounds_true by (rewrite ?byteLength_app; lia).
  now rewrite !byte_at_app_l by lia.
Qed.

Lemma getUint32_prefix (view tail : buffer) (off : Z) :
  0 <= off -> off + 4 <= byteLength view ->
  getUint32 (view ++ tail) off = getUint32 view off.
Proof.
  intros H0 H1. pose proof (byteLength_nonneg tail).
  unfold getUint32, le_uint32.
  rewrite !in_bounds_true by (rewrite ?byteLength_app; lia).
  now rewrite !byte_at_app_l by lia.
Qed.

(** A sample whose bytes lie inside [view] is decoded the same when more
    bytes follow [view]; with an unsupported bit depth nothing is read. *)
Lemma decode_sample_prefix (view tail : buffer) (fmt : WavFormat)
      (dataOffset i channel : Z) :
  (Spec.supported_bits (bitsPerSample fmt) = true ->
   0 <= dataOffset + (i * numChannels fmt + channel) * (bitsPerSample fmt / 8)
   /\ dataOffset + (i * numChannels fmt + channel) * (bitsPerSample fmt / 8)
      + bitsPerSample fmt / 8 <= byteLength view) ->
  decode_sample (view ++ tail) fmt dataOffset i channel
  = decode_sample view fmt dataOffset i channel.
Proof.
  destruct fmt as [af nc sr bits]. cbn [bitsPerSample audioFormat numChannels].
  intros H. unfold decode_sample. cbn [bitsPerSample audioFormat numChannels].
  cbv zeta.
  set (idx := dataOffset + (i * nc + channel) * (bits / 8)) in *.
  unfold Spec.supported_bits in H.
  destruct (Z.eqb_spec bits 32) as [E32 | N32].
  { subst bits. change (32 / 8) with 4 in *. destruct (H eq_refl) as [H0 H1].
    change (32 =? 16) with false. change (32 =? 24) with false.
    unfold getFloat32, getInt32. rewrite getUint32_prefix by lia.
    reflexivity. }
  rewrite andb_false_r.
  destruct (Z.eqb_spec bits 16) as [E16 | N16].
  { subst bits. change (16 / 8) with 2 in *. destruct (H eq_refl) as [H0 H1].
    unfold getInt16. now rewrite getUint16_prefix by lia. }
  destruct (Z.eqb_spec bits 24) as [E24 | N24].
  { subst bits. change (24 / 8) with 3 in *. destruct (H eq_refl) as [H0 H1].
    now rewrite !getUint8_prefix by lia. }
  destruct (Z.eqb_spec bits 8) as [E8 | N8]; [ | reflexivity].
  subst bits. change (8 / 8) with 1 in *. destruct (H eq_refl) as [H0 H1].
  now rewrite getUint8_prefix by lia.
Qed.

(** The sample loop reads only the data that the chunk announces. *)
Lemma decode_data_prefix (view tail : buffer) (fmt : WavFormat)
      (dataOffset dataSize : Z) :
  0 <= dataOffset -> 0 <= dataSize -> dataOffset + dataSize <= byteLength view ->
  decode_data (view ++ tail) (fmt, dataOffset, dataSize)
  = decode_data view (fmt, dataOffset, dataSize).
Proof.
  intros Hoff Hsize Hfit. pose proof (byteLength_nonneg tail) as Ht.
  unfold decode_data.
  destruct (Z.eqb_spec dataOffset (-1)) as [E | _]; [lia | ].
  cbv zeta. rewrite byteLength_app.
  replace (Z.max 0 (Z.min dataSize (byteLength view + byteLength tail - dataOffset)))
    with dataSize by lia.
  replace (Z.max 0 (Z.min dataSize (byteLength view - dataOffset)))
    with dataSize by lia.
  destruct (total_samples dataSize (bitsPerSample fmt) (numChannels fmt))
    as [n | | ] eqn:Htotal; try reflexivity.
  assert (Hframes : decode_frames (view ++ tail) fmt dataOffset n
                    = decode_frames view fmt dataOffset n).
  { unfold decode_frames. apply traverse_ext. intros i Hi. apply range_In in Hi.
    apply traverse_ext. intros channel Hc. apply range_In in Hc.
    unfold stored_sample. rewrite decode_sample_prefix; [reflexivity | ].
    intros Hs.
    assert (Hbits : 0 < bitsPerSample fmt).
    { unfold Spec.supported_bits in Hs.
      destruct (Z.eqb_spec (bitsPerSample fmt) 8); [lia | ].
      destruct (Z.eqb_spec (bitsPerSample fmt) 16); [lia | ].
      destruct (Z.eqb_spec (bitsPerSample fmt) 24); [lia | ].
      destruct (Z.eqb_spec (bitsPerSample fmt) 32); [lia | discriminate]. }
    rewrite total_samples_whole_frames in Htotal by lia.
    assert (Hn : 8 * dataSize / (bitsPerSample fmt * numChannels fmt) = n)
      by congruence.
    apply (sample_index_in_bounds view (bitsPerSample fmt) (numChannels fmt)
             dataOffset dataSize i channel Hs); try lia.
    replace (Z.max 0 (Z.min dataSize (byteLength view - dataOffset)))
      with dataSize by lia.
    rewrite Hn. lia. }
  now rewrite Hframes.
Qed.

(** A format chunk of fewer than 16 bytes has its fields read from the
    bytes that follow it, which can lie after the data chunk: a file with an
    empty format chunk and 4 bytes of data makes [decodeWav] throw
    [RangeError], and returns a signal once 4 more bytes follow the data
    chunk. *)
Lemma decodeWav_short_format_reads_past_data :
  decodeWav (Spec.header 24 ++ Spec.encode_chunks [("fmt "%string, [])]
             ++ Spec.chunk "data" [Byte.x01; Byte.x00; Byte.x02; Byte.x00])
  = Throw RangeError
  /\ decodeWav (Spec.header 24 ++ Spec.encode_chunks [("fmt "%string, [])]
                ++ Spec.chunk "data" [Byte.x01; Byte.x00; Byte.x02; Byte.x00]
                ++ [Byte.x00; Byte.x00; Byte.x10; Byte.x00])
     = Return (mkPcm [] 4%R).
Proof. split; vm_compute; reflexivity. Qed.

(** X26. In a file whose chunks before the data chunk are complete, with
    at least 16 bytes in every format chunk among them
    ([Spec.passed_chunk]), [decodeWav] reads neither the size field of the
    header nor anything that follows the data chunk: with the same chunks
    up to and including the data chunk, two such files decode to the same
    result, whatever their size fields and whatever bytes follow the data
    chunk in one of them.  A shorter format chunk breaks this
    ([decodeWav_short_format_reads_past_data]). *)
Theorem decodeWav_ignores_trailing_bytes (riffSize1 riffSize2 : Z)
      (cs : list (string * buffer)) (payload tail : buffer) :
  Forall Spec.passed_chunk cs -> byteLength payload < 4294967296 ->
  decodeWav (Spec.header riffSize1 ++ Spec.encode_chunks cs
             ++ Spec.chunk "data" payload ++ tail)
  = decodeWav (Spec.header riffSize2 ++ Spec.encode_chunks cs
               ++ Spec.chunk "data" payload).
Proof.
  intros Hcs Hsize.
  set (fmt := fold_left (fun f c => Spec.format_after c f) cs default_format).
  set (off := 12 + byteLength (Spec.encode_chunks cs) + 8).
  pose proof (byteLength_nonneg payload) as Hpay.
  pose proof (byteLength_nonneg (Spec.encode_chunks cs)) as Henc.
  assert (Hwalk : forall (riffSize : Z) (tail : buffer),
             decodeWav (Spec.header riffSize ++ Spec.encode_chunks cs
                        ++ Spec.chunk "data" payload ++ tail)
             = decode_data (Spec.header riffSize ++ Spec.encode_chunks cs
                            ++ Spec.chunk "data" payload ++ tail)
                           (fmt, off, byteLength payload)).
  { intros riffSize tl. rewrite decodeWav_header.
    pose proof (enough_fuel_decodeWav
                  (Spec.header riffSize ++ Spec.encode_chunks cs
                   ++ Spec.chunk "data" payload ++ tl)) as Hfuel.
    rewrite <- (header_length riffSize) in Hfuel |- * at 1.
    rewrite (chunk_walk_reaches_data cs payload Hcs Hsize _ _ _ _ Hfuel).
    cbn [bind]. rewrite header_length. reflexivity. }
  pose proof (Hwalk riffSize2 []) as Hw2. rewrite !app_nil_r in Hw2.
  rewrite (Hwalk riffSize1 tail), Hw2.
  rewrite !(app_assoc (Spec.encode_chunks cs)).
  set (body := Spec.encode_chunks cs ++ Spec.chunk "data" payload).
  rewrite app_assoc.
  assert (Hbody : byteLength body
                  = byteLength (Spec.encode_chunks cs) + 8 + byteLength payload
                    + Z.rem (byteLength payload) 2).
  { subst body. rewrite byteLength_app, chunk_length by reflexivity. lia. }
  pose proof (Z.rem_nonneg (byteLength payload) 2 ltac:(lia) ltac:(lia)) as Hrem.
  rewrite decode_data_prefix
    by (rewrite ?byteLength_app, ?header_length; subst off; lia).
  apply decode_data_aligned.
  - replace off with (byteLength (Spec.header riffSize1) + (off - 12))
      by (rewrite header_length; lia).
    replace (byteLength (Spec.header riffSize1) + (off - 12))
      with (byteLength (Spec.header riffSize2) + (off - 12)) at 2
      by (rewrite !header_length; lia).
    apply aligned_shift; [apply aligned_suffix | subst off; lia].
  - subst fmt. apply format_after_all_ok, format_ok_default.
Qed.

Lemma decodeWav_ignores_trailing_bytes_witness :
  decodeWav (Spec.header 0
             ++ Spec.encode_chunks [("fmt "%string, Spec.fmt_payload 1 1 22050 16)]
             ++ Spec.chunk "data" (Spec.le16 1 ++ Spec.le16 (-2))
             ++ [Byte.x4c; Byte.x49; Byte.x53])
  = decodeWav (Spec.header 40
               ++ Spec.encode_chunks [("fmt "%string, Spec.fmt_payload 1 1 22050 16)]
               ++ Spec.chunk "data" (Spec.le16 1 ++ Spec.le16 (-2))).
Proof.
  apply decodeWav_ignores_trailing_bytes.
  - apply Forall_cons; [ | apply Forall_nil].
    unfold Spec.passed_chunk. cbn [fst snd].
    split; [reflexivity | split; [discriminate | split; [reflexivity | ]]].
    intros _. vm_compute. discriminate.
  - reflexivity.
Defined.

Lemma format_after_all_unknown (cs : list (string * buffer)) (fmt : WavFormat) :
  Forall Spec.unknown_chunk cs ->
  fold_left (fun f c => Spec.format_after c f) cs fmt = fmt.
Proof.
  induction 1 as [| c cs Hc _ IH]; [reflexivity | ].
  cbn [fold_left]. now rewrite (format_after_unknown c fmt Hc).
Qed.

(** X27. A file without a format chunk is read with the defaults of
    [decodeWav]: its data, after any chunks that the decoder does not know,
    is taken as 16-bit mono PCM at 44100 Hz. *)
Theorem decodeWav_default_format (riffSize : Z) (cs : list (string * buffer))
      (values : list Z) (tail : buffer) :
  Forall Spec.unknown_chunk cs ->
  2 * Z.of_nat (List.length values) < 4294967296 ->
  Forall (fun v => -32768 <= v <= 32767) values ->
  decodeWav (Spec.header riffSize ++ Spec.encode_chunks cs
             ++ Spec.chunk "data" (Spec.pcm16 values) ++ tail)
  = Return (mkPcm (map (fun v => IZR v / 32768)%R values) 44100%R).
Proof.
  intros Hcs Hlen Hvalues.
  pose proof (pcm16_length values) as Hdata.
  assert (Hpassed : Forall Spec.passed_chunk cs).
  { eapply Forall_impl; [ | exact Hcs]. apply unknown_chunk_passed. }
  rewrite decodeWav_header.
  pose proof (enough_fuel_decodeWav
                (Spec.header riffSize ++ Spec.encode_chunks cs
                 ++ Spec.chunk "data" (Spec.pcm16 values) ++ tail)) as Hfuel.
  rewrite <- (header_length riffSize) in Hfuel |- * at 1.
  rewrite (chunk_walk_reaches_data cs (Spec.pcm16 values) Hpassed ltac:(lia)
             _ _ _ _ Hfuel).
  cbn [bind]. rewrite (format_after_all_unknown cs default_format Hcs), Hdata.
  set (hdr := Spec.header riffSize).
  set (enc := Spec.encode_chunks cs).
  assert (Elayout : hdr ++ enc ++ Spec.chunk "data" (Spec.pcm16 values) ++ tail
                    = (hdr ++ enc ++ Spec.tag "data"
                       ++ Spec.le32 (byteLength (Spec.pcm16 values)))
                      ++ Spec.pcm16 values
                      ++ (Spec.padding (Spec.pcm16 values) ++ tail)).
  { unfold Spec.chunk. now rewrite <- !app_assoc. }
  rewrite Elayout.
  replace (byteLength hdr + byteLength enc + 8)
    with (byteLength (hdr ++ enc ++ Spec.tag "data"
                      ++ Spec.le32 (byteLength (Spec.pcm16 values))))
    by (rewrite !byteLength_app;
        change (byteLength (Spec.tag "data")) with 4;
        change (byteLength (Spec.le32 (byteLength (Spec.pcm16 values)))) with 4;
        lia).
  unfold default_format. now apply decode_data_pcm16.
Qed.

Lemma decodeWav_default_format_witness :
  decodeWav (Spec.header 0
             ++ Spec.encode_chunks [("LIST"%string, [Byte.x61; Byte.x62; Byte.x63])]
             ++ Spec.chunk "data" (Spec.pcm16 [1; -2]) ++ [])
  = Return (mkPcm (map (fun v => IZR v / 32768)%R [1; -2]) 44100%R).
Proof.
  apply decodeWav_default_format.
  - apply Forall_cons; [ | apply Forall_nil].
    unfold Spec.unknown_chunk. cbn [fst snd].
    split; [reflexivity | split; [discriminate | split; [discriminate | reflexivity]]].
  - cbn. lia.
  - repeat (apply Forall_cons; [lia | ]). apply Forall_nil.
Defined.

End TrailingBytes.

(* ================================================================== *)
(** ** The container decoder: header test, chunk loop, unknown chunks *)
(* ================================================================== *)

Section ContainerDecoder.
Import Audio.

(** A valid header followed by the start of a format chunk whose 24 bytes
    are not all there: the read of a format field throws. *)
Lemma decodeWav_truncated_format_chunk (view : buffer) :
  20 <= byteLength view < 36 ->
  Spec.four_at view 0 = Spec.tag "RIFF" ->
  Spec.four_at view 8 = Spec.tag "WAVE" ->
  Spec.four_at view 12 = Spec.tag "fmt " ->
  decodeWav view = Throw RangeError.
Proof.
  intros Hlen Hriff Hwave Hfmt.
  rewrite decodeWav_good_header by (assumption || lia).
  rewrite chunk_walk_turn by lia. cbv zeta.
  rewrite Hfmt. change (string_of_list_byte (Spec.tag "fmt ")) with "fmt "%string.
  change (String.eqb "fmt " "fmt ") with true. cbv iota.
  rewrite read_format_truncated by lia. reflexivity.
Qed.

(** After a format chunk of 10 bytes the bit depth is the low half of the
    size field of the next chunk: the same 16 bytes of data are 8 samples
    of 16 bits when the data chunk follows, and 16 samples of 8 bits when a
    [LIST] chunk of 8 bytes stands in between. *)
Lemma decodeWav_short_format_chunk :
  exists with_list without : Pcm,
    decodeWav Spec.wav_short_fmt_with_list = Return with_list
    /\ decodeWav Spec.wav_short_fmt = Return without
    /\ List.length (samples with_list) = 16%nat
    /\ List.length (samples without) = 8%nat.
Proof.
  assert (Hlen1 : byteLength Spec.wav_short_fmt_with_list = 70)
    by (vm_compute; reflexivity).
  assert (Hlen2 : byteLength Spec.wav_short_fmt = 54)
    by (vm_compute; reflexivity).
  assert (Hw1 : chunk_walk (S (List.length Spec.wav_short_fmt_with_list))
                  Spec.wav_short_fmt_with_list 12 default_format
                = Return (mkFormat 1 1 22050 8, 54, 16))
    by (vm_compute; reflexivity).
  assert (Hw2 : chunk_walk (S (List.length Spec.wav_short_fmt))
                  Spec.wav_short_fmt 12 default_format
                = Return (mkFormat 1 1 22050 16, 38, 16))
    by (vm_compute; reflexivity).
  destruct (decode_data_integer_pcm Spec.wav_short_fmt_with_list
              (mkFormat 1 1 22050 8) 54 16)
    as (pcm1 & H1 & _ & L1 & _);
    [reflexivity | right; cbn; lia | cbn; lia | rewrite Hlen1; lia | ].
  destruct (decode_data_integer_pcm Spec.wav_short_fmt
              (mkFormat 1 1 22050 16) 38 16)
    as (pcm2 & H2 & _ & L2 & _);
    [reflexivity | right; cbn; lia | cbn; lia | rewrite Hlen2; lia | ].
  exists pcm1, pcm2.
  rewrite (decodeWav_good_header Spec.wav_short_fmt_with_list)
    by (rewrite ?Hlen1; (lia || reflexivity)).
  rewrite (decodeWav_good_header Spec.wav_short_fmt)
    by (rewrite ?Hlen2; (lia || reflexivity)).
  rewrite Hw1, Hw2. cbn [bind].
  split; [exact H1 | split; [exact H2 | ]].
  rewrite Hlen1 in L1. rewrite Hlen2 in L2.
  cbn [bitsPerSample numChannels] in L1, L2.
  change (8 * Z.max 0 (Z.min 16 (70 - 54)) / (8 * 1)) with 16 in L1.
  change (8 * Z.max 0 (Z.min 16 (54 - 38)) / (16 * 1)) with 8 in L2.
  split; lia.
Qed.

(** C6, the claim as written, fails: eight bytes that do not start with
    the container tag make [decodeWav] fail with the [RangeError] of a
    read past the end, not with [Invalid WAV header]. *)
Lemma decodeWav_short_buffer_range_error :
  Spec.four_at Spec.eight_bytes 0 <> Spec.tag "RIFF"
  /\ decodeWav Spec.eight_bytes = Throw RangeError
  /\ decodeWav Spec.eight_bytes <> Throw (Error "Invalid WAV header").
Proof.
  split; [vm_compute; discriminate | ].
  assert (H : decodeWav Spec.eight_bytes = Throw RangeError)
    by (vm_compute; reflexivity).
  split; [exact H | rewrite H; discriminate].
Qed.

(** C6, amended.
    - A buffer shorter than 12 bytes fails with the [RangeError] of a read
      past its end.
    - A buffer of 12 bytes or more fails with [Invalid WAV header] unless
      bytes 0-3 are the container tag and bytes 8-11 the format tag.
    - Past that test the chunk loop ends in one of three ways: a read of a
      format field throws [RangeError]; or the loop reaches the end of the
      buffer without a data chunk, and [decodeWav] fails with
      [WAV data chunk not found]; or it stops at a data chunk inside the
      buffer, and the samples are decoded.
    - The second way is that of every file made of complete chunks other
      than data whose format chunks hold at least 16 bytes
      ([Spec.passed_chunk]); the first is that of a file that ends inside
      the 24 bytes of its format chunk.
    - The loop passes every unknown chunk, of odd length too, by moving
      [8 + length + (length % 2)] bytes forward.
    - A buffer with an unknown chunk after chunks of the kind above, before
      the data, decodes to what the buffer without it decodes to.  After a
      format chunk of fewer than 16 bytes this fails: the fields are read
      from the bytes of the chunk that follows, and the same data decode to
      16 samples with a [LIST] chunk before them and to 8 without. *)
Theorem decodeWav_header_and_chunks :
  (forall view : buffer,
      byteLength view < 12 -> decodeWav view = Throw RangeError)
  /\ (forall view : buffer,
         12 <= byteLength view ->
         Spec.four_at view 0 <> Spec.tag "RIFF"
         \/ Spec.four_at view 8 <> Spec.tag "WAVE" ->
         decodeWav view = Throw (Error "Invalid WAV header"))
  /\ (forall view : buffer,
         12 <= byteLength view ->
         Spec.four_at view 0 = Spec.tag "RIFF" ->
         Spec.four_at view 8 = Spec.tag "WAVE" ->
         (chunk_walk (S (List.length view)) view 12 default_format
          = Throw RangeError
          /\ decodeWav view = Throw RangeError)
         \/ (exists fmt,
               chunk_walk (S (List.length view)) view 12 default_format
               = Return (fmt, -1, 0)
               /\ decodeWav view = Throw (Error "WAV data chunk not found"))
         \/ (exists fmt dataOffset dataSize,
               chunk_walk (S (List.length view)) view 12 default_format
               = Return (fmt, dataOffset, dataSize)
               /\ 20 <= dataOffset <= byteLength view
               /\ Spec.four_at view (dataOffset - 8) = Spec.tag "data"
               /\ decodeWav view = decode_data view (fmt, dataOffset, dataSize)))
  /\ (forall (view : buffer) (fmt : WavFormat),
         12 <= byteLength view ->
         Spec.four_at view 0 = Spec.tag "RIFF" ->
         Spec.four_at view 8 = Spec.tag "WAVE" ->
         chunk_walk (S (List.length view)) view 12 default_format
         = Return (fmt, -1, 0) ->
         decodeWav view = Throw (Error "WAV data chunk not found"))
  /\ (forall (riffSize : Z) (cs : list (string * buffer)),
         Forall Spec.passed_chunk cs ->
         decodeWav (Spec.header riffSize ++ Spec.encode_chunks cs)
         = Throw (Error "WAV data chunk not found"))
  /\ (forall view : buffer,
         20 <= byteLength view < 36 ->
         Spec.four_at view 0 = Spec.tag "RIFF" ->
         Spec.four_at view 8 = Spec.tag "WAVE" ->
         Spec.four_at view 12 = Spec.tag "fmt " ->
         decodeWav view = Throw RangeError)
  /\ (forall (fuel : nat) (pre tail : buffer) (unk : string * buffer)
             (fmt : WavFormat),
         Spec.unknown_chunk unk ->
         let size := byteLength (snd unk) in
         chunk_walk (S fuel) (pre ++ Spec.chunk (fst unk) (snd unk) ++ tail)
                    (byteLength pre) fmt
         = chunk_walk fuel (pre ++ Spec.chunk (fst unk) (snd unk) ++ tail)
                      (byteLength pre + (8 + size + Z.rem size 2)) fmt)
  /\ (forall (riffSize1 riffSize2 : Z) (cs : list (string * buffer))
             (unk : string * buffer) (rest : buffer),
         Forall Spec.passed_chunk cs -> Spec.unknown_chunk unk ->
         decodeWav (Spec.header riffSize1 ++ Spec.encode_chunks cs
                    ++ Spec.chunk (fst unk) (snd unk) ++ rest)
         = decodeWav (Spec.header riffSize2 ++ Spec.encode_chunks cs ++ rest))
  /\ (exists with_list without : Pcm,
         decodeWav Spec.wav_short_fmt_with_list = Return with_list
         /\ decodeWav Spec.wav_short_fmt = Return without
         /\ List.length (samples with_list) = 16%nat
         /\ List.length (samples without) = 8%nat).
Proof.
  split; [exact decodeWav_short | ].
  split; [exact decodeWav_bad_header | ].
  split; [ | split; [ | split; [ | split; [ | split; [ | split]]]]].
  - intros view H12 Hr Hw.
    rewrite (decodeWav_good_header view H12 Hr Hw).
    destruct (chunk_walk_outcomes view)
      as [Hc | [(fmt & Hc) | (fmt & dataOffset & dataSize & Hc & Hoff & Htag & _)]].
    + left. rewrite Hc. split; reflexivity.
    + right. left. exists fmt. rewrite Hc. split; reflexivity.
    + right. right. exists fmt, dataOffset, dataSize. rewrite Hc.
      split; [reflexivity | split; [exact Hoff | split; [exact Htag | reflexivity]]].
  - intros view fmt H12 Hr Hw Hwalk.
    rewrite decodeWav_good_header, Hwalk by assumption. reflexivity.
  - intros r cs Hcs. rewrite decodeWav_header.
    change 12 with (byteLength (Spec.header r)).
    destruct (chunk_walk_without_data cs Hcs (Spec.header r) default_format
                (S (List.length (Spec.header r ++ Spec.encode_chunks cs))))
      as [fmt' Hw].
    + rewrite header_length. apply enough_fuel_decodeWav.
    + rewrite Hw. reflexivity.
  - exact decodeWav_truncated_format_chunk.
  - intros fuel pre tail unk fmt Hunk size.
    rewrite chunk_walk_passes by now apply unknown_chunk_passed.
    rewrite format_after_unknown by exact Hunk.
    rewrite chunk_length by apply Hunk. reflexivity.
  - intros r1 r2 cs unk rest Hcs Hunk.
    rewrite !decodeWav_header.
    change 12 with (byteLength (Spec.header r1)) at 1.
    change 12 with (byteLength (Spec.header r2)).
    apply decode_with_unknown_chunk; try assumption.
    + reflexivity.
    + unfold Spec.format_ok. simpl. lia.
    + rewrite header_length. apply enough_fuel_decodeWav.
    + rewrite header_length. apply enough_fuel_decodeWav.
  - exact decodeWav_short_format_chunk.
Qed.

(** The theorem on a 16-bit file with a three-byte [LIST] chunk (and its
    pad byte) between the format chunk and the data chunk, on twelve bytes
    with a wrong container tag, and on a header followed by the first
    eight bytes of a format chunk. *)
Lemma decodeWav_header_and_chunks_witness :
  decodeWav Spec.wav_16bit_with_list = decodeWav Spec.wav_16bit
  /\ decodeWav (Spec.tag "RIFX" ++ Spec.le32 4 ++ Spec.tag "WAVE")
     = Throw (Error "Invalid WAV header")
  /\ decodeWav (Spec.header 12 ++ Spec.tag "fmt " ++ Spec.le32 16)
     = Throw RangeError.
Proof.
  destruct decodeWav_header_and_chunks
    as (_ & Hbad & _ & _ & _ & Hcut & _ & Hskip & _).
  split; [ | split].
  - apply (Hskip 58 50
                 [("fmt "%string, Spec.fmt_payload 1 1 22050 16)]
                 ("LIST"%string, [Byte.x61; Byte.x62; Byte.x63])
                 (Spec.chunk "data" (Spec.le16 1 ++ Spec.le16 (-2)))).
    + constructor; [ | constructor].
      unfold Spec.passed_chunk. cbn [fst snd].
      split; [reflexivity | split; [discriminate | split; [reflexivity | ]]].
      intros _. vm_compute. discriminate.
    + unfold Spec.unknown_chunk. cbn [fst snd].
      split; [reflexivity | split; [discriminate | split; [discriminate | ]]].
      reflexivity.
  - apply Hbad.
    + vm_compute. discriminate.
    + left. vm_compute. discriminate.
  - apply Hcut.
    + vm_compute. split; [discriminate | reflexivity].
    + reflexivity.
    + reflexivity.
    + reflexivity.
Defined.

End ContainerDecoder.
